(** * Student record store: a shallow embedding of [student.c]

    The C program keeps one process-wide array [students] of [Student]
    structs together with [students_size].  Here the array prefix
    [students[0 .. students_size-1]] is a [list Student]; every operation
    takes the store and returns the new store (explicit state passing).

    - [int] is a 32-bit two's-complement integer: a [Z] in
      [[-2^31, 2^31)].  Signed overflow, undefined in C, is given the
      wrap-around of the machine ([wrap32]).
    - [float] is IEEE-754 binary32, taken from the standard library's
      [SpecFloat] with [prec = 24] and [emax = 128] (round to nearest even,
      infinities, signed zeros and NaN included); every [float] operation
      is taken to round to binary32, with no excess precision.
    - [float *grades] with [gradeCount] is a [list float32]; [gradeCount] is
      its length.
    - Array positions are [nat]; the store is far smaller than [2^31]
      records, so index arithmetic never wraps.  Where the C code lets an
      index reach [-1] (binary search) the index is a [Z].
    - The C functions whose recursion is not structural take a [fuel]
      argument that bounds its depth; each entry point passes enough of it,
      and the theorems are about the entry points.
    - [realloc]/[malloc] failure ([exit (EXIT_FAILURE)]) is not modelled.
      No store operation reads [students_capacity]; it is followed beside
      the store ([ensure_capacity], [allocated]).
    - The console ([menu.c], [utils.c]) and the data file ([persistence.c])
      are modelled after the store: the input, the calls made outward and
      the file contents are explicit values, and the conversions of the C
      library ([strtol], [strtof], [printf], [sscanf]) are parameters. *)

From Stdlib Require Import ZArith Lia Bool Ascii String.
From Stdlib Require Import Floats.SpecFloat.
From stdpp Require Import base list sorting.

Local Open Scope Z_scope.

(** ** Machine integers *)

Definition INT_MIN : Z := - 2 ^ 31.
Definition INT_MAX : Z := 2 ^ 31 - 1.

Definition int_range (z : Z) : Prop := INT_MIN <= z <= INT_MAX.

(** Result of an [int] operation whose mathematical value is [z]. *)
Definition wrap32 (z : Z) : Z := (z + 2 ^ 31) mod 2 ^ 32 - 2 ^ 31.

(** ** binary32 floating point *)

Definition float32 : Type := spec_float.

Definition f32_prec : Z := 24.
Definition f32_emax : Z := 128.

Definition f32_zero : float32 := S754_zero false.            (* 0.0f *)
Definition f32_add : float32 -> float32 -> float32 := SFadd f32_prec f32_emax.
Definition f32_div : float32 -> float32 -> float32 := SFdiv f32_prec f32_emax.
Definition f32_lt : float32 -> float32 -> bool := SFltb.      (* a < b  *)
Definition f32_gt (a b : float32) : bool := SFltb b a.        (* a > b  *)
Definition f32_eq : float32 -> float32 -> bool := SFeqb.      (* a == b *)
Definition f32_le : float32 -> float32 -> bool := SFleb.      (* a <= b *)

(** The conversion [(float) n] of an [int]. *)
Definition f32_of_int (n : Z) : float32 :=
  binary_normalize f32_prec f32_emax n 0 false.

#[global] Instance float32_inhabited : Inhabited float32 := populate f32_zero.

Definition is_nan (x : float32) : bool :=
  match x with S754_nan => true | _ => false end.

(** ** The data model ([student.h]) *)

Definition NAME_LEN : nat := 50.

Record Student : Type := mkStudent {
  id : Z;                    (* int id *)
  name : string;             (* char name[NAME_LEN] *)
  grades : list float32;     (* float *grades; int gradeCount *)
  average : float32          (* float average *)
}.

Definition gradeCount (s : Student) : Z := Z.of_nat (length (grades s)).

Inductive SortKey : Type := SORT_BY_ID | SORT_BY_AVG.
Inductive SortMethod : Type := BUBBLE | INSERTION | MERGE.

(** What a read outside the array would yield.  The C program never performs
    such a read on the paths studied here (it would be undefined). *)
Definition no_student : Student := mkStudent 0 EmptyString [] f32_zero.

#[global] Instance Student_inhabited : Inhabited Student := populate no_student.

(** [students[i]] *)
Definition at_index (students : list Student) (i : nat) : Student :=
  students !!! i.

(** [strncpy (dst, src, NAME_LEN-1); dst[NAME_LEN-1] = 0] *)
Definition copy_name (src : string) : string :=
  String.substring 0 (NAME_LEN - 1) src.

(** ** Record store *)

Definition init_students : list Student := [].

(** [index_of_id]: the first position holding [target], or [-1]. *)
Fixpoint index_of_id_from (i : Z) (students : list Student) (target : Z) : Z :=
  match students with
  | [] => -1
  | s :: rest =>
      if id s =? target then i else index_of_id_from (i + 1) rest target
  end.

Definition index_of_id (students : list Student) (target : Z) : Z :=
  index_of_id_from 0 students target.

(** [add_student]; a NULL [name] is [None]. *)
Definition add_student (new_id : Z) (new_name : option string)
    (students : list Student) : bool * list Student :=
  if negb (index_of_id students new_id =? -1) then (false, students)
  else
    let s := {| id := new_id;
                name := copy_name (default EmptyString new_name);
                grades := [];
                average := f32_zero |} in
    (true, students ++ [s]).

(** The shift loop of [delete_student]:
    [for (i = idx; i < students_size - 1; ++i) students[i] = students[i+1];]
    with [n] iterations left. *)
Fixpoint shift_left (n : nat) (i : nat) (students : list Student) : list Student :=
  match n with
  | O => students
  | S n' => shift_left n' (i + 1) (<[i := at_index students (i + 1)]> students)
  end.

Definition delete_student (target : Z) (students : list Student)
    : bool * list Student :=
  let idx := index_of_id students target in
  if idx =? -1 then (false, students)
  else
    let i := Z.to_nat idx in
    let size := length students in
    let shifted := shift_left (size - 1 - i) i students in
    (true, take (size - 1) shifted).               (* students_size-- *)

Definition update_student_name (target : Z) (newname : string)
    (students : list Student) : bool * list Student :=
  let idx := index_of_id students target in
  if idx =? -1 then (false, students)
  else
    let i := Z.to_nat idx in
    let s := at_index students i in
    (true, <[i := {| id := id s; name := copy_name newname;
                     grades := grades s; average := average s |}]> students).

(** ** Recursive aggregation *)

(** [sum_grades_recursive (grades, n)], stated over the arithmetic it uses:
    the program runs it on binary32 ([f32_zero], [f32_add]); the same
    recursion on an exact arithmetic is used to compare it with sequential
    summation.  The recursion is on [n], halved at each call; [fuel] bounds
    its depth and [sum_grades_recursive] supplies enough of it. *)
Section Aggregation.
Context {num : Type} `{!Inhabited num}.
Variable zero : num.
Variable add : num -> num -> num.

Fixpoint sum_grades_fuel (fuel : nat) (gs : list num) (n : Z) : num :=
  if n <=? 0 then zero
  else if n =? 1 then gs !!! 0%nat
  else
    match fuel with
    | O => zero
    | S fuel' =>
        let mid := Z.quot n 2 in
        let left := sum_grades_fuel fuel' gs mid in
        let right :=
          sum_grades_fuel fuel' (drop (Z.to_nat mid) gs) (n - mid) in
        add left right
    end.

Definition sum_grades_recursive (gs : list num) (n : Z) : num :=
  sum_grades_fuel (Z.to_nat n) gs n.

(** Sequential summation: [s = 0; for (i = 0; i < n; ++i) s += g[i];] *)
Definition sequential_sum (gs : list num) : num := foldl add zero gs.
End Aggregation.

(** [recalc_average] applied to a record. *)
Definition recalc_average (s : Student) : Student :=
  if gradeCount s =? 0 then
    {| id := id s; name := name s; grades := grades s; average := f32_zero |}
  else
    let sum := sum_grades_recursive f32_zero f32_add (grades s) (gradeCount s) in
    {| id := id s; name := name s; grades := grades s;
       average := f32_div sum (f32_of_int (gradeCount s)) |}.

Definition add_grade_to_student (target : Z) (grade : float32)
    (students : list Student) : bool * list Student :=
  let idx := index_of_id students target in
  if idx =? -1 then (false, students)
  else
    let i := Z.to_nat idx in
    let s := at_index students i in
    let s' := {| id := id s; name := name s;
                 grades := grades s ++ [grade]; average := average s |} in
    (true, <[i := recalc_average s']> students).

(** Accessors *)
Definition students_count (students : list Student) : Z :=
  Z.of_nat (length students).

Definition get_student_by_index (students : list Student) (idx : Z)
    : option Student :=
  if (idx <? 0) || (students_count students <=? idx) then None
  else students !! Z.to_nat idx.

(** ** Sorting engine *)

(** [cmp_students]: the subtraction of the two ids is an [int] operation. *)
Definition cmp_students (a b : Student) (key : SortKey) : Z :=
  match key with
  | SORT_BY_ID => wrap32 (id a - id b)
  | SORT_BY_AVG =>
      if f32_lt (average a) (average b) then -1
      else if f32_gt (average a) (average b) then 1
      else 0
  end.

(** [swap_students (&students[a], &students[b])] *)
Definition swap_students (students : list Student) (a b : nat) : list Student :=
  let tmp := at_index students a in
  <[b := tmp]> (<[a := at_index students b]> students).

(** Inner loop of [bubble_sort], [n] iterations left, at position [j]. *)
Fixpoint bubble_inner (key : SortKey) (n j : nat) (students : list Student)
    (swapped : bool) : list Student * bool :=
  match n with
  | O => (students, swapped)
  | S n' =>
      if 0 <? cmp_students (at_index students j) (at_index students (j + 1)) key
      then bubble_inner key n' (j + 1) (swap_students students j (j + 1)) true
      else bubble_inner key n' (j + 1) students swapped
  end.

(** Outer loop of [bubble_sort], [n] iterations left, at pass [i]. *)
Fixpoint bubble_outer (key : SortKey) (n i : nat) (students : list Student)
    : list Student :=
  match n with
  | O => students
  | S n' =>
      let '(students', swapped) :=
        bubble_inner key (length students - 1 - i) 0 students false in
      if negb swapped then students'                      (* break *)
      else bubble_outer key n' (i + 1) students'
  end.

Definition bubble_sort (key : SortKey) (students : list Student) : list Student :=
  bubble_outer key (length students - 1) 0 students.

(** The [while] loop of [insertion_sort].  [j1] is [j + 1], so that [j = -1]
    is [j1 = 0]; the result is the array and the final [j + 1]. *)
Fixpoint insertion_while (key : SortKey) (keyStudent : Student) (j1 : nat)
    (students : list Student) : list Student * nat :=
  match j1 with
  | O => (students, O)
  | S j =>
      if 0 <? cmp_students (at_index students j) keyStudent key
      then insertion_while key keyStudent j
             (<[S j := at_index students j]> students)
      else (students, j1)
  end.

(** Outer loop of [insertion_sort], [n] iterations left, at position [i]. *)
Fixpoint insertion_outer (key : SortKey) (n i : nat) (students : list Student)
    : list Student :=
  match n with
  | O => students
  | S n' =>
      let keyStudent := at_index students i in
      let '(students', j1) := insertion_while key keyStudent i students in
      insertion_outer key n' (i + 1) (<[j1 := keyStudent]> students')
  end.

Definition insertion_sort (key : SortKey) (students : list Student)
    : list Student :=
  insertion_outer key (length students - 1) 1 students.

(** The three loops of [merge_range]; [L] and [R] are the two buffers, [n]
    bounds the iterations left. *)
Fixpoint merge_both (key : SortKey) (n : nat) (L R : list Student)
    (i j k : nat) (students : list Student) : nat * nat * nat * list Student :=
  match n with
  | O => (i, j, k, students)
  | S n' =>
      if (i <? length L)%nat && (j <? length R)%nat then
        if cmp_students (at_index L i) (at_index R j) key <=? 0
        then merge_both key n' L R (i + 1) j (k + 1)
               (<[k := at_index L i]> students)
        else merge_both key n' L R i (j + 1) (k + 1)
               (<[k := at_index R j]> students)
      else (i, j, k, students)
  end.

(** [while (i < n1) students[k++] = B[i++];] *)
Fixpoint merge_rest (n : nat) (B : list Student) (i k : nat)
    (students : list Student) : nat * list Student :=
  match n with
  | O => (k, students)
  | S n' =>
      if (i <? length B)%nat
      then merge_rest n' B (i + 1) (k + 1) (<[k := at_index B i]> students)
      else (k, students)
  end.

Definition merge_range (left mid right : nat) (key : SortKey)
    (students : list Student) : list Student :=
  let n1 := (mid - left + 1)%nat in
  let n2 := (right - mid)%nat in
  let L := take n1 (drop left students) in
  let R := take n2 (drop (mid + 1) students) in
  let '(i, j, k, s1) := merge_both key (n1 + n2) L R 0 0 left students in
  let '(k, s2) := merge_rest n1 L i k s1 in
  let '(_, s3) := merge_rest n2 R j k s2 in
  s3.

(** [merge_sort_recursive]; [fuel] bounds the recursion depth. *)
Fixpoint merge_sort_fuel (fuel : nat) (left right : nat) (key : SortKey)
    (students : list Student) : list Student :=
  if (right <=? left)%nat then students
  else
    match fuel with
    | O => students
    | S fuel' =>
        let mid := (left + (right - left) / 2)%nat in
        let s1 := merge_sort_fuel fuel' left mid key students in
        let s2 := merge_sort_fuel fuel' (mid + 1) right key s1 in
        merge_range left mid right key s2
    end.

Definition merge_sort_recursive (left right : nat) (key : SortKey)
    (students : list Student) : list Student :=
  merge_sort_fuel (right - left) left right key students.

(** [sort_students]; the [default:] branch of the [switch] runs merge sort as
    well, so the three methods are all there is. *)
Definition sort_students (method : SortMethod) (key : SortKey)
    (students : list Student) : list Student :=
  if (length students <=? 1)%nat then students
  else
    match method with
    | BUBBLE => bubble_sort key students
    | INSERTION => insertion_sort key students
    | MERGE => merge_sort_recursive 0 (length students - 1) key students
    end.

(** ** Search engine *)

(** [binary_search_by_id_recursive]; [None] only when [fuel] runs out, which
    the fuel given by [binary_search_by_id_recursive] excludes. *)
Fixpoint binary_search_fuel (fuel : nat) (students : list Student)
    (target_id left right : Z) : option Z :=
  if right <? left then Some (-1)
  else
    match fuel with
    | O => None
    | S fuel' =>
        let mid := left + Z.quot (right - left) 2 in
        let m := at_index students (Z.to_nat mid) in
        if id m =? target_id then Some mid
        else if id m >? target_id
        then binary_search_fuel fuel' students target_id left (mid - 1)
        else binary_search_fuel fuel' students target_id (mid + 1) right
    end.

Definition binary_search_by_id_recursive (students : list Student)
    (target_id left right : Z) : option Z :=
  binary_search_fuel (Z.to_nat (right - left + 1)) students target_id left right.

(** ** Statistics *)

(** The scan of [class_highest_lowest] from position [i] on; the state is
    [( *highest, *h_idx, *lowest, *l_idx)]. *)
Fixpoint highest_lowest_scan (rest : list Student) (i : Z)
    (st : float32 * Z * float32 * Z) : float32 * Z * float32 * Z :=
  match rest with
  | [] => st
  | s :: rest' =>
      let '(highest, h_idx, lowest, l_idx) := st in
      let '(highest, h_idx) :=
        if f32_gt (average s) highest then (average s, i) else (highest, h_idx) in
      let '(lowest, l_idx) :=
        if f32_lt (average s) lowest then (average s, i) else (lowest, l_idx) in
      highest_lowest_scan rest' (i + 1) (highest, h_idx, lowest, l_idx)
  end.

(** [class_highest_lowest]: [None] is [return false] (outputs untouched). *)
Definition class_highest_lowest (students : list Student)
    : option (float32 * Z * float32 * Z) :=
  match students with
  | [] => None
  | s0 :: rest =>
      Some (highest_lowest_scan rest 1 (average s0, 0, average s0, 0))
  end.

(** ** Auxiliary definitions used in the proofs *)

(** A non-NaN binary32 value is placed in [Z * Z * Z], ordered
    lexicographically: the class (infinities, sign, zero), then exponent and
    mantissa.  [SFcompare] is the comparison of these triples. *)
Definition f32_rank (x : float32) : Z * Z * Z :=
  match x with
  | S754_nan => (0, 0, 0)
  | S754_zero _ => (0, 0, 0)
  | S754_infinity true => (-2, 0, 0)
  | S754_infinity false => (2, 0, 0)
  | S754_finite true m e => (-1, - e, - Z.pos m)
  | S754_finite false m e => (1, e, Z.pos m)
  end.

Definition lex_lt (p q : Z * Z * Z) : Prop :=
  let '(a, b, c) := p in
  let '(a', b', c') := q in
  a < a' \/ (a = a' /\ (b < b' \/ (b = b' /\ c < c'))).

(** The record written back by [add_grade_to_student]: the grade appended,
    the average recomputed. *)
Definition graded (s : Student) (grade : float32) : Student :=
  recalc_average {| id := id s; name := name s;
                    grades := grades s ++ [grade]; average := average s |}.

Definition renamed (s : Student) (newname : string) : Student :=
  {| id := id s; name := copy_name newname;
     grades := grades s; average := average s |}.

(** What [recalc_average] stores for a grade sequence: [sum_grades_recursive]
    of the grades divided by their count, and zero for no grades. *)
Definition arithmetic_mean (gs : list float32) : float32 :=
  match gs with
  | [] => f32_zero
  | _ => f32_div (sum_grades_recursive f32_zero f32_add gs (Z.of_nat (length gs)))
                 (f32_of_int (Z.of_nat (length gs)))
  end.

(** ** The mean, in the words of the specification

    These definitions are not taken from the code: they say what the
    specification asks for, and the code is compared with them. *)

Section HalvesSum.
Context {num : Type}.
Variable zero : num.
Variable add : num -> num -> num.

(** [halves_sum gs x]: [x] is the divide-and-conquer sum of [gs]; zero for
    no element, the element itself for one, and otherwise the list is split
    at the midpoint, each half is summed in the same way, and the two
    partial sums are added. *)
Inductive halves_sum : list num -> num -> Prop :=
  | halves_nil : halves_sum [] zero
  | halves_one g : halves_sum [g] g
  | halves_split gs a b :
      (2 <= length gs)%nat ->
      halves_sum (take (length gs / 2) gs) a ->
      halves_sum (drop (length gs / 2) gs) b ->
      halves_sum gs (add a b).
End HalvesSum.

(** [mean_of gs m]: [m] is the arithmetic mean of the grades [gs], their sum
    divided by their count, and zero for no grades; sum and quotient are
    binary32 operations. *)
Definition mean_of (gs : list float32) (m : float32) : Prop :=
  match gs with
  | [] => m = f32_zero
  | _ =>
      exists sum,
        halves_sum f32_zero f32_add gs sum /\
        m = f32_div sum (f32_of_int (Z.of_nat (length gs)))
  end.

(** The exact sum of whole numbers. *)
Definition total (zs : list Z) : Z := foldr Z.add 0 zs.

(** [whole x z]: the binary32 number [x] is the whole number [z], in the
    form the operations of binary32 return it. *)
Definition whole (x : float32) (z : Z) : Prop :=
  match x with
  | S754_zero s => s = false /\ z = 0
  | S754_finite s m e =>
      e <= 0 /\ SpecFloat.cond_Zopp s (Z.pos m) = z * 2 ^ (- e) /\
      bounded f32_prec f32_emax m e = true
  | _ => False
  end.

(** A sequence of [add_student] calls, and a sequence of
    [add_grade_to_student] calls for one id. *)
Definition add_students (calls : list (Z * option string))
    (students : list Student) : list Student :=
  foldl (fun st c => snd (add_student (fst c) (snd c) st)) students calls.

Definition add_grades (target : Z) (gs : list float32)
    (students : list Student) : list Student :=
  foldl (fun st g => snd (add_grade_to_student target g st)) students gs.

(** The stores the program can be in: empty at start, then changed by the
    operations of the store only. *)
Inductive reachable : list Student -> Prop :=
  | reach_init : reachable init_students
  | reach_add t nm st :
      int_range t -> reachable st -> reachable (snd (add_student t nm st))
  | reach_delete t st :
      reachable st -> reachable (snd (delete_student t st))
  | reach_update t nm st :
      reachable st -> reachable (snd (update_student_name t nm st))
  | reach_grade t g st :
      reachable st -> reachable (snd (add_grade_to_student t g st))
  | reach_sort method key st :
      reachable st -> reachable (sort_students method key st).

(** *** The sorting loops seen on lists

    Each loop of the sorting engine is shown below to compute one of these
    functions on the part of the array it works on. *)

(** [a <= b] for the comparison of a key: [cmp_students a b key <= 0]. *)
Definition key_le (key : SortKey) (a b : Student) : Prop :=
  cmp_students a b key <= 0.

(** One pass of the inner loop of [bubble_sort] over the first [n] adjacent
    pairs of [a :: rest]; [a] is the record carried to the right. *)
Fixpoint bubble_pass (key : SortKey) (n : nat) (a : Student)
    (rest : list Student) : list Student * bool :=
  match n, rest with
  | S n', b :: rest' =>
      if 0 <? cmp_students a b key
      then (b :: fst (bubble_pass key n' a rest'), true)
      else (a :: fst (bubble_pass key n' b rest'),
            snd (bubble_pass key n' b rest'))
  | _, _ => (a :: rest, false)
  end.

(** The [while] loop of [insertion_sort] followed by the store of
    [keyStudent], on the reversed prefix. *)
Fixpoint insert_rev (key : SortKey) (k : Student) (rp : list Student)
    : list Student :=
  match rp with
  | [] => [k]
  | x :: rp' =>
      if 0 <? cmp_students x k key then x :: insert_rev key k rp'
      else k :: rp
  end.

(** The outer loop of [insertion_sort]: [rp] is the reversed prefix already
    handled, [suf] the records still to insert. *)
Fixpoint insertion_from (key : SortKey) (rp suf : list Student)
    : list Student :=
  match suf with
  | [] => rev rp
  | k :: suf' => insertion_from key (insert_rev key k rp) suf'
  end.

(** The merge computed by [merge_range] from its two buffers. *)
Fixpoint merge_lists (key : SortKey) (L : list Student)
    : list Student -> list Student :=
  fix merge_R (R : list Student) : list Student :=
    match L, R with
    | [], _ => R
    | _, [] => L
    | a :: L', b :: R' =>
        if cmp_students a b key <=? 0 then a :: merge_lists key L' R
        else b :: merge_R R'
    end.

(** [merge_sort_recursive] on the segment it sorts. *)
Fixpoint merge_sort_list (key : SortKey) (fuel : nat) (seg : list Student)
    : list Student :=
  if (length seg <=? 1)%nat then seg
  else
    match fuel with
    | O => seg
    | S fuel' =>
        let h := ((length seg - 1) / 2 + 1)%nat in
        merge_lists key (merge_sort_list key fuel' (take h seg))
                        (merge_sort_list key fuel' (drop h seg))
    end.

(** [x] stands before [y] in [l]. *)
Definition precedes (x y : Student) (l : list Student) : Prop :=
  exists l1 l2 l3, l = l1 ++ x :: l2 ++ y :: l3.

(** The records whose average compares equal ([==]) to [v]. *)
Definition same_average (v : float32) (s : Student) : bool :=
  f32_eq (average s) v.

Definition no_nan_average (students : list Student) : Prop :=
  Forall (fun s => is_nan (average s) = false) students.

(** The comparison of a key is consistent on a store when no [int]
    subtraction of two of its ids overflows (by id), or no average is NaN
    (by average). *)
Definition key_consistent (key : SortKey) (students : list Student) : Prop :=
  match key with
  | SORT_BY_ID =>
      forall a b, a ∈ students -> b ∈ students ->
        INT_MIN <= id a - id b <= INT_MAX
  | SORT_BY_AVG => no_nan_average students
  end.

(** The invariant tying [average] to [grades]. *)
Definition average_consistent (s : Student) : Prop :=
  average s = arithmetic_mean (grades s).

(** What the scan of [class_highest_lowest] has established after the
    records of [l]: [h] is the highest average so far and [hi] the first
    position holding it; likewise for the lowest. *)
Definition highest_at (l : list Student) (h : float32) (hi : Z) : Prop :=
  0 <= hi /\
  (exists s, l !! Z.to_nat hi = Some s /\ average s = h) /\
  (forall j s, l !! j = Some s -> f32_gt (average s) h = false) /\
  (forall j s, (j < Z.to_nat hi)%nat -> l !! j = Some s ->
     f32_lt (average s) h = true).

Definition lowest_at (l : list Student) (lo : float32) (li : Z) : Prop :=
  0 <= li /\
  (exists s, l !! Z.to_nat li = Some s /\ average s = lo) /\
  (forall j s, l !! j = Some s -> f32_lt (average s) lo = false) /\
  (forall j s, (j < Z.to_nat li)%nat -> l !! j = Some s ->
     f32_gt (average s) lo = true).

Definition scan_invariant (l : list Student)
    (st : float32 * Z * float32 * Z) : Prop :=
  let '(highest, h_idx, lowest, l_idx) := st in
  highest_at l highest h_idx /\ lowest_at l lowest l_idx.

(** A store built record by record: [add_student] for the record, then
    [add_grade_to_student] for each of its grades (the calls made by the
    menu, and by [load_students_from_file] for each record it has parsed). *)
Definition enroll (students : list Student) (r : Z * string * list float32)
    : list Student :=
  let '(i, nm, gs) := r in
  add_grades i gs (snd (add_student i (Some nm) students)).

Definition store_of (records : list (Z * string * list float32))
    : list Student :=
  foldl enroll init_students records.

(** What a pass of [bubble_sort] leaves behind it: every record [y] of
    [front] was compared with the record then carried on, which is not
    smaller than [y] and is either the record [m] put last by the pass or a
    record dropped further right in [front]. *)
Definition carried_over (key : SortKey) (front : list Student) (m : Student)
    : Prop :=
  forall u y w, front = u ++ y :: w ->
    exists c, key_le key y c /\ (c = m \/ c ∈ w).

(** ** The capacity of the array *)

(** [free_students]: the store is empty again. *)
Definition free_students (students : list Student) : list Student := [].

(** [ensure_capacity]: the new [students_capacity], from [students_size] and
    the old one; the doubling is an [int] multiplication. *)
Definition ensure_capacity (size capacity : Z) : Z :=
  if capacity <=? size then
    if capacity =? 0 then 4 else wrap32 (capacity * 2)
  else capacity.

(** [students_capacity] after [add_student]: [ensure_capacity] runs once the
    id is known to be new. *)
Definition add_student_capacity (new_id : Z) (students : list Student)
    (capacity : Z) : Z :=
  if negb (index_of_id students new_id =? -1) then capacity
  else ensure_capacity (students_count students) capacity.

(** The store together with its capacity, along the operations of the
    program; [add_student] is run on fewer than [2^30] records. *)
Inductive allocated : list Student -> Z -> Prop :=
  | alloc_init : allocated init_students 0
  | alloc_free st cap : allocated st cap -> allocated (free_students st) 0
  | alloc_add t nm st cap :
      allocated st cap -> students_count st < 2 ^ 30 ->
      allocated (snd (add_student t nm st)) (add_student_capacity t st cap)
  | alloc_delete t st cap :
      allocated st cap -> allocated (snd (delete_student t st)) cap
  | alloc_update t nm st cap :
      allocated st cap -> allocated (snd (update_student_name t nm st)) cap
  | alloc_grade t g st cap :
      allocated st cap -> allocated (snd (add_grade_to_student t g st)) cap
  | alloc_sort method key st cap :
      allocated st cap -> allocated (sort_students method key st) cap.

(** ** Console input and output ([utils.c], [menu.c])

    The program reads the standard input and prints; both are made explicit
    in a [World]: the characters of the input not yet read, the calls made
    outward so far, and the store.  A [printf] or [puts] call is recorded with
    its format, written as the source writes it (escapes unexpanded), and its
    arguments; a call of [save_students_to_file] is recorded with the store
    it is to write (no caller in [menu.c] looks at its result).  The input is
    taken to hold no NUL character.  [strtol] and [strtof] are the C
    library's: each is given by the value it returns and the number of
    characters it consumes ([endptr - buf]). *)

Inductive Arg : Type :=
  | ArgInt (z : Z)
  | ArgStr (s : string)
  | ArgFloat (x : float32).

Inductive Call : Type :=
  | Printf (format : string) (args : list Arg)
  | Puts (s : string)
  | SaveStudents (students : list Student).

Record World : Type := mkWorld {
  stdin : string;
  calls : list Call;
  store : list Student
}.

(** How a run ends: with a value, in a loop that has used up its [fuel], or
    in the dereference of a NULL pointer. *)
Inductive Outcome (A : Type) : Type :=
  | Value (a : A)
  | Fuel
  | Crash.
Arguments Value {A} a.
Arguments Fuel {A}.
Arguments Crash {A}.

Definition IO (A : Type) : Type := World -> Outcome A * World.

#[global] Instance io_ret : MRet IO := fun A a w => (Value a, w).

#[global] Instance io_bind : MBind IO := fun A B k m w =>
  match m w with
  | (Value a, w') => k a w'
  | (Fuel, w') => (Fuel, w')
  | (Crash, w') => (Crash, w')
  end.

Definition out_of_fuel {A : Type} : IO A := fun w => (Fuel, w).
Definition null_dereference {A : Type} : IO A := fun w => (Crash, w).

Definition call (c : Call) : IO unit := fun w =>
  (Value tt, mkWorld (stdin w) (calls w ++ [c]) (store w)).

Definition printf (format : string) (args : list Arg) : IO unit :=
  call (Printf format args).

Definition puts (s : string) : IO unit := call (Puts s).

(** The call [save_students_to_file ()]. *)
Definition call_save : IO unit := fun w => call (SaveStudents (store w)) w.

Definition get_store : IO (list Student) := fun w => (Value (store w), w).

(** A store operation run on the store of the world. *)
Definition on_store {A : Type} (f : list Student -> A * list Student)
    : IO A := fun w =>
  let '(a, st) := f (store w) in (Value a, mkWorld (stdin w) (calls w) st).

Definition newline : ascii := "010"%char.

(** The characters [fgets] stores when there is room for [room] of them:
    up to and including the first newline. *)
Fixpoint fgets_chars (room : nat) (input : string) : string * string :=
  match room, input with
  | S room', String c rest =>
      if Ascii.eqb c newline then (String c EmptyString, rest)
      else
        let '(line, rest') := fgets_chars room' rest in (String c line, rest')
  | _, _ => (EmptyString, input)
  end.

(** [fgets (buf, n, stdin)]: the line stored and the input left; [None] is
    NULL, at the end of the input. *)
Definition fgets (n : nat) (input : string) : option (string * string) :=
  match input with
  | EmptyString => None
  | _ => Some (fgets_chars (n - 1) input)
  end.

(** [len = strlen (buf); if (len && buf[len - 1] == '\n') buf[len - 1] = 0] *)
Definition strip_newline (buf : string) : string :=
  let len := String.length buf in
  match String.get (len - 1) buf with
  | Some c =>
      if negb (len =? 0)%nat && Ascii.eqb c newline
      then String.substring 0 (len - 1) buf
      else buf
  | None => buf
  end.

Definition read_line (n : nat) : IO string := fun w =>
  match fgets n (stdin w) with
  | None => (Value EmptyString, w)
  | Some (buf, rest) =>
      (Value (strip_newline buf), mkWorld rest (calls w) (store w))
  end.

Section Menu.
Variable strtol : string -> Z * nat.
Variable strtof : string -> float32 * nat.

(** [endptr != buf && *endptr == '\0'] *)
Definition whole_buffer (buf : string) (consumed : nat) : bool :=
  negb (consumed =? 0)%nat && (consumed =? String.length buf)%nat.

(** [read_int]; the [long] is converted to [int] by truncation. *)
Fixpoint read_int (fuel : nat) (prompt : string) : IO Z :=
  match fuel with
  | O => out_of_fuel
  | S fuel' =>
      printf "%s" [ArgStr prompt];;
      buf ← read_line 128;
      let '(v, consumed) := strtol buf in
      if whole_buffer buf consumed then mret (wrap32 v)
      else
        printf "Invalid integer, try again.\n" [];;
        read_int fuel' prompt
  end.

Fixpoint read_float (fuel : nat) (prompt : string) : IO float32 :=
  match fuel with
  | O => out_of_fuel
  | S fuel' =>
      printf "%s" [ArgStr prompt];;
      buf ← read_line 128;
      let '(v, consumed) := strtof buf in
      if whole_buffer buf consumed then mret v
      else
        printf "Invalid number, try again.\n" [];;
        read_float fuel' prompt
  end.

Definition add_student_menu (fuel : nat) : IO unit :=
  new_id ← read_int fuel "Enter student ID (integer): ";
  printf "Enter name: " [];;
  new_name ← read_line NAME_LEN;
  if (String.length new_name =? 0)%nat then
    printf "Name cannot be empty.\n" []
  else
    added ← on_store (add_student new_id (Some new_name));
    if negb added then
      printf "Student with ID %d already exists.\n" [ArgInt new_id]
    else
      printf "Student added.\n" [];;
      call_save.

Definition add_grade_menu (fuel : nat) : IO unit :=
  target ← read_int fuel "Enter student ID: ";
  grade ← read_float fuel "Enter grade (0-100): ";
  if f32_lt grade f32_zero || f32_gt grade (f32_of_int 100) then
    printf "Grade must be between 0 and 100.\n" []
  else
    added ← on_store (add_grade_to_student target grade);
    if negb added then
      printf "Student with ID %d not found.\n" [ArgInt target]
    else
      printf "Grade added and average recalculated.\n" [];;
      call_save.

Definition sort_menu (fuel : nat) : IO unit :=
  printf "Choose sorting method:\n1. Bubble Sort\n2. Insertion Sort\n3. Merge Sort\nChoose: " [];;
  m ← read_int fuel "";
  let method :=
    if m =? 1 then BUBBLE else if m =? 2 then INSERTION else MERGE in
  printf "Sort by:\n1. ID\n2. Average\nChoose: " [];;
  k ← read_int fuel "";
  let key := if k =? 1 then SORT_BY_ID else SORT_BY_AVG in
  on_store (fun st => (tt, sort_students method key st));;
  printf "Sorted.\n" [].

(** The loop that prints a grade sequence, separated by commas. *)
Fixpoint print_grades (gs : list float32) : IO unit :=
  match gs with
  | [] => mret tt
  | g :: rest =>
      printf "%.2f" [ArgFloat g];;
      match rest with
      | [] => mret tt
      | _ => printf ", " []
      end;;
      print_grades rest
  end.

Definition search_menu (fuel : nat) : IO unit :=
  target ← read_int fuel "Enter ID to search: ";
  on_store (fun st => (tt, sort_students MERGE SORT_BY_ID st));;
  st ← get_store;
  match binary_search_by_id_recursive st target 0 (students_count st - 1) with
  | None => out_of_fuel
  | Some idx =>
      if idx =? -1 then
        printf "Student with ID %d not found.\n" [ArgInt target]
      else
        match get_student_by_index st idx with
        | None => null_dereference
        | Some s =>
            printf "Found: ID=%d Name=%s Avg=%.2f #grades=%d\n"
              [ArgInt (id s); ArgStr (name s); ArgFloat (average s);
               ArgInt (gradeCount s)];;
            if gradeCount s >? 0 then
              printf "Grades: " [];;
              print_grades (grades s);;
              printf "\n" []
            else mret tt
        end
  end.

Definition stats_menu : IO unit :=
  st ← get_store;
  match class_highest_lowest st with
  | None => puts "No students."
  | Some (hi, hi_idx, lo, lo_idx) =>
      match get_student_by_index st hi_idx with
      | None => null_dereference
      | Some h =>
          printf "Highest average: ID=%d Name=%s Avg=%.2f\n"
            [ArgInt (id h); ArgStr (name h); ArgFloat (average h)];;
          match get_student_by_index st lo_idx with
          | None => null_dereference
          | Some l =>
              printf "Lowest average:  ID=%d Name=%s Avg=%.2f\n"
                [ArgInt (id l); ArgStr (name l); ArgFloat (average l)]
          end
      end
  end.

Definition delete_menu (fuel : nat) : IO unit :=
  target ← read_int fuel "Enter ID to delete: ";
  deleted ← on_store (delete_student target);
  if (deleted : bool) then
    printf "Deleted student %d.\n" [ArgInt target];;
    call_save
  else
    printf "Student %d not found.\n" [ArgInt target].

Definition update_menu (fuel : nat) : IO unit :=
  target ← read_int fuel "Enter ID to update name: ";
  printf "Enter new name: " [];;
  newname ← read_line NAME_LEN;
  if (String.length newname =? 0)%nat then
    printf "Name cannot be empty.\n" []
  else
    updated ← on_store (update_student_name target newname);
    if (updated : bool) then
      printf "Updated.\n" [];;
      call_save
    else
      printf "Student %d not found.\n" [ArgInt target].

Definition show_help : IO unit :=
  puts "\nMenu:";;
  puts "1 - Add student";;
  puts "2 - Add grade to student";;
  puts "3 - Display all students (summary)";;
  puts "4 - Display grade matrix (detailed)";;
  puts "5 - Sort students (choose method and key)";;
  puts "6 - Search student by ID (binary search)";;
  puts "7 - Class statistics (highest/lowest average)";;
  puts "8 - Delete student";;
  puts "9 - Update student name";;
  puts "0 - Exit".

(** The row loops of [display_all_students] and [display_grade_matrix]. *)
Fixpoint display_rows (rows : list Student) : IO unit :=
  match rows with
  | [] => mret tt
  | s :: rest =>
      printf "%d\t%-15s\t%.2f\t%d\n"
        [ArgInt (id s); ArgStr (name s); ArgFloat (average s);
         ArgInt (gradeCount s)];;
      display_rows rest
  end.

Definition display_all_students : IO unit :=
  st ← get_store;
  if students_count st =? 0 then puts "No students."
  else
    printf "ID\tName\t\tAvg\t#grades\n" [];;
    printf "-----------------------------------------\n" [];;
    display_rows st.

Fixpoint matrix_rows (i : Z) (rows : list Student) : IO unit :=
  match rows with
  | [] => mret tt
  | s :: rest =>
      printf "[%d] %d %-12s | " [ArgInt i; ArgInt (id s); ArgStr (name s)];;
      (if gradeCount s =? 0 then printf "(no grades)" []
       else
         print_grades (grades s);;
         printf "  (avg: %.2f)" [ArgFloat (average s)]);;
      printf "\n" [];;
      matrix_rows (i + 1) rest
  end.

Definition display_grade_matrix : IO unit :=
  st ← get_store;
  if students_count st =? 0 then puts "No students."
  else
    printf "Grades Matrix (each row = student):\n" [];;
    matrix_rows 0 st.

Fixpoint run_menu (fuel : nat) : IO unit :=
  match fuel with
  | O => out_of_fuel
  | S fuel' =>
      printf "\nChoose option (h for help): " [];;
      buf ← read_line 128;
      if String.eqb buf "h" || String.eqb buf "H" then
        show_help;;
        run_menu fuel'
      else
        let '(v, consumed) := strtol buf in
        if negb (whole_buffer buf consumed) then
          puts "Invalid choice. Enter 0-9 or 'h' for help.";;
          run_menu fuel'
        else
          let choice := wrap32 v in
          if choice =? 1 then add_student_menu fuel;; run_menu fuel'
          else if choice =? 2 then add_grade_menu fuel;; run_menu fuel'
          else if choice =? 3 then display_all_students;; run_menu fuel'
          else if choice =? 4 then display_grade_matrix;; run_menu fuel'
          else if choice =? 5 then sort_menu fuel;; run_menu fuel'
          else if choice =? 6 then search_menu fuel;; run_menu fuel'
          else if choice =? 7 then stats_menu;; run_menu fuel'
          else if choice =? 8 then delete_menu fuel;; run_menu fuel'
          else if choice =? 9 then update_menu fuel;; run_menu fuel'
          else if choice =? 0 then
            call_save;;
            on_store (fun st => (tt, free_students st));;
            puts "Goodbye."
          else
            puts "Invalid choice. Enter 0-9 or 'h' for help.";;
            run_menu fuel'
  end.
End Menu.

(** ** Persistence ([persistence.c])

    The data file is the string of its characters.  The conversions of the
    C library are taken as they are: [fmt_d] and [fmt_2f] are what [fprintf]
    writes for [%d] and [%.2f]; [sscanf_d] and [sscanf_f] are what [sscanf]
    stores for [%d] and [%f], [None] when it stores nothing.  The file is
    taken to hold no NUL character; what [perror] prints is left out. *)

Definition dquote : ascii := "034"%char.
Definition tab : ascii := "009"%char.

Definition nl : string := String newline EmptyString.
Definition dq : string := String dquote EmptyString.

(** [strchr (s, c)]: the offset of the first [c] in [s]; [None] is NULL. *)
Fixpoint strchr (s : string) (c : Ascii.ascii) : option nat :=
  match s with
  | EmptyString => None
  | String a rest =>
      if Ascii.eqb a c then Some O else option_map S (strchr rest c)
  end.

(** [strstr (s, pat) != NULL] *)
Fixpoint strstr (s pat : string) : bool :=
  String.prefix pat s ||
  match s with
  | EmptyString => false
  | String _ rest => strstr rest pat
  end.

(** [s + n] *)
Fixpoint advance (n : nat) (s : string) : string :=
  match n, s with
  | S n', String _ rest => advance n' rest
  | _, _ => s
  end.

(** [while ( *p == ' ' || *p == '\t') p++;] *)
Fixpoint skip_blanks (s : string) : string :=
  match s with
  | String c rest =>
      if Ascii.eqb c " "%char || Ascii.eqb c tab then skip_blanks rest else s
  | EmptyString => s
  end.

(** The characters of [s] before the first [c], and what follows them. *)
Fixpoint until_char (c : Ascii.ascii) (s : string) : string * string :=
  match s with
  | EmptyString => (EmptyString, EmptyString)
  | String a rest =>
      if Ascii.eqb a c then (EmptyString, s)
      else let '(tok, rest') := until_char c rest in (String a tok, rest')
  end.

(** The tokens that [strtok (s, c)] and then [strtok (NULL, c)] return, each
    with its offset in [s]; [off] is the offset of [s] itself, and [fuel]
    bounds the number of characters looked at. *)
Fixpoint strtok (fuel : nat) (c : Ascii.ascii) (s : string) (off : nat)
    : list (nat * string) :=
  match fuel with
  | O => []
  | S fuel' =>
      match s with
      | EmptyString => []
      | String a rest =>
          if Ascii.eqb a c then strtok fuel' c rest (S off)
          else
            let '(tok, rest') := until_char c s in
            (off, tok) :: strtok fuel' c rest' (off + String.length tok)
      end
  end.

(** The successive lines [fgets (line, n, fp)] reads from a file. *)
Fixpoint fgets_lines (fuel : nat) (n : nat) (content : string) : list string :=
  match fuel with
  | O => []
  | S fuel' =>
      match fgets n content with
      | None => []
      | Some (line, rest) => line :: fgets_lines fuel' n rest
      end
  end.

(** The literal markers the loader looks for. *)
Definition id_key : string := dq ++ "id" ++ dq ++ ":".
Definition name_key : string := dq ++ "name" ++ dq ++ ":".
Definition grades_key : string := dq ++ "grades" ++ dq ++ ":".

(** The locals of [load_students_from_file]. *)
Record Loader : Type := mkLoader {
  current_id : Z;
  current_name : string;
  in_student : bool
}.

Section Persistence.
Variable fmt_d : Z -> string.
Variable fmt_2f : float32 -> string.
Variable sscanf_d : string -> option Z.
Variable sscanf_f : string -> option float32.

(** [fprintf (fp, "      \"id\": %d,\n", s->id)] *)
Definition id_line (s : Student) : string :=
  "      " ++ dq ++ "id" ++ dq ++ ": " ++ fmt_d (id s) ++ "," ++ nl.

(** [fprintf (fp, "      \"name\": \"%s\",\n", s->name)] *)
Definition name_line (s : Student) : string :=
  "      " ++ dq ++ "name" ++ dq ++ ": " ++ dq ++ name s ++ dq ++ "," ++ nl.

(** The loop over the grades of a record. *)
Fixpoint grades_text (gs : list float32) : string :=
  match gs with
  | [] => EmptyString
  | g :: rest =>
      fmt_2f g ++ match rest with [] => EmptyString | _ => ", " end
      ++ grades_text rest
  end.

Definition grades_line (s : Student) : string :=
  "      " ++ dq ++ "grades" ++ dq ++ ": [" ++ grades_text (grades s)
  ++ "]," ++ nl.

(** [fprintf (fp, "      \"average\": %.2f\n", s->average)] *)
Definition average_line (s : Student) : string :=
  "      " ++ dq ++ "average" ++ dq ++ ": " ++ fmt_2f (average s) ++ nl.

(** The loop over the records: each is followed by a comma, but the last. *)
Fixpoint students_text (students : list Student) : string :=
  match students with
  | [] => EmptyString
  | s :: rest =>
      "    {" ++ nl ++ id_line s ++ name_line s ++ grades_line s
      ++ average_line s ++ "    }"
      ++ match rest with [] => EmptyString | _ => "," end ++ nl
      ++ students_text rest
  end.

(** What [save_students_to_file] writes. *)
Definition file_text (students : list Student) : string :=
  "{" ++ nl ++ "  " ++ dq ++ "students" ++ dq ++ ": [" ++ nl
  ++ students_text students ++ "  ]" ++ nl ++ "}" ++ nl.

(** [save_students_to_file]: [file] is the data file before the call
    ([None] when there is none) and [writable] tells whether [fopen] for
    writing succeeds; the result is the value returned and the file after. *)
Definition save_students_to_file (writable : bool) (students : list Student)
    (file : option string) : bool * option string :=
  if writable then (true, Some (file_text students)) else (false, file).

(** [sscanf (p, "\"id\": %d", &current_id)]: the literal part has to match
    for the conversion to take place. *)
Definition sscanf_id (p : string) : option Z :=
  if String.prefix id_key p
  then sscanf_d (advance (String.length id_key) p)
  else None.

(** The grades loop,
    [while (token && token < end) { ...; token = strtok (NULL, ","); }],
    on the tokens still to come; [stop] is the offset of [end]. *)
Fixpoint grades_loop (target : Z) (stop : nat) (tokens : list (nat * string))
    (students : list Student) : list Student :=
  match tokens with
  | [] => students
  | (off, token) :: rest =>
      if (off <? stop)%nat then
        grades_loop target stop rest
          match sscanf_f token with
          | Some grade => snd (add_grade_to_student target grade students)
          | None => students
          end
      else students
  end.

(** The body of the [while (fgets (...))] loop, on one line. *)
Definition load_line (st : Loader * list Student) (line : string)
    : Loader * list Student :=
  let '(ld, students) := st in
  let p := skip_blanks line in
  if strstr p id_key then
    (mkLoader (default (current_id ld) (sscanf_id p)) (current_name ld) true,
     students)
  else if strstr p name_key then
    match strchr p dquote with
    | None => st
    | Some q1 =>
        match strchr (advance (q1 + 1) p) dquote with
        | None => st
        | Some q2 =>
            let start := advance (q1 + 1 + q2 + 1) p in
            match strchr start dquote with
            | None => st
            | Some len =>
                let len :=
                  if (NAME_LEN <=? len)%nat then (NAME_LEN - 1)%nat else len in
                (mkLoader (current_id ld) (String.substring 0 len start)
                   (in_student ld), students)
            end
        end
    end
  else if strstr p grades_key then
    let students :=
      if (0 <=? current_id ld) && (0 <? String.length (current_name ld))%nat
      then snd (add_student (current_id ld) (Some (current_name ld)) students)
      else students in
    match strchr p "["%char, strchr p "]"%char with
    | Some start, Some stop =>
        if 0 <=? current_id ld then
          (ld,
           grades_loop (current_id ld) stop
             (strtok (String.length p) ","%char (advance (start + 1) p)
                (start + 1))
             students)
        else (ld, students)
    | _, _ => (ld, students)
    end
  else if strstr p "}" && in_student ld then
    (mkLoader (-1) EmptyString false, students)
  else st.

(** [load_students_from_file]; a missing file is [None]. *)
Definition load_students_from_file (file : option string)
    (students : list Student) : bool * list Student :=
  match file with
  | None => (true, students)
  | Some content =>
      (true,
       snd (foldl load_line (mkLoader (-1) EmptyString false, students)
              (fgets_lines (String.length content) 512 content)))
  end.
End Persistence.

(** *** What the menu keeps true of the store *)

(** A grade that passes the range check of [add_grade_menu]: neither
    [grade < 0.0f] nor [grade > 100.0f] holds. *)
Definition grade_accepted (g : float32) : Prop :=
  f32_lt g f32_zero = false /\ f32_gt g (f32_of_int 100) = false.

Definition record_valid (s : Student) : Prop :=
  name s <> EmptyString /\ (String.length (name s) <= 49)%nat /\
  mean_of (grades s) (average s) /\ Forall grade_accepted (grades s).

Definition store_valid (st : list Student) : Prop :=
  NoDup (id <$> st) /\ Forall record_valid st.

(** The store is valid, and so was every store handed to
    [save_students_to_file]. *)
Definition world_valid (w : World) : Prop :=
  store_valid (store w) /\
  Forall (fun c => match c with
                   | SaveStudents st => store_valid st
                   | _ => True
                   end) (calls w).

(** [m] keeps [P]: from a world where [P] holds it leads, however it ends,
    to a world where [P] holds. *)
Definition keeps {A : Type} (P : World -> Prop) (m : IO A) : Prop :=
  forall w, P w -> P (snd (m w)).

(** [m] only prints: it returns, leaving the input and the store as they
    were. *)
Definition only_prints (m : IO unit) : Prop :=
  forall w, exists out,
    m w = (Value tt, mkWorld (stdin w) (calls w ++ out) (store w)) /\
    Forall (fun c => forall st, c <> SaveStudents st) out.

(** *** What loading keeps true of the store *)

Definition record_loaded (s : Student) : Prop :=
  0 <= id s /\ name s <> EmptyString /\
  (String.length (name s) <= 49)%nat /\ mean_of (grades s) (average s).

Definition store_loaded (st : list Student) : Prop :=
  NoDup (id <$> st) /\ Forall record_loaded st.

(** *** The data file line by line *)

Fixpoint string_concat (ls : list string) : string :=
  match ls with
  | [] => EmptyString
  | l :: rest => l ++ string_concat rest
  end.

(** A line that [fgets] reads whole into the 512 bytes of the loader. *)
Definition whole_line (l : string) : Prop :=
  exists body,
    l = (body ++ nl)%string /\ strchr body newline = None /\
    (String.length body < 511)%nat.

(** A number as [fprintf] writes it, for the loader to read it back: not
    empty, and free of the characters the loader looks for. *)
Definition number_text (t : string) : Prop :=
  t <> EmptyString /\ strchr t dquote = None /\ strchr t newline = None /\
  strchr t "," = None /\ strchr t "]" = None /\ strchr t "}" = None.

Section SavedFile.
Variable fmt_d : Z -> string.
Variable fmt_2f : float32 -> string.
Variable sscanf_d : string -> option Z.
Variable sscanf_f : string -> option float32.
Variable reread : float32 -> float32.

(** The lines written for a record; [more] tells that another follows. *)
Definition record_lines (s : Student) (more : bool) : list string :=
  [("    {" ++ nl)%string; id_line fmt_d s; name_line s;
   grades_line fmt_2f s; average_line fmt_2f s;
   ("    }" ++ (if more then "," else "") ++ nl)%string].

Fixpoint students_lines (students : list Student) : list string :=
  match students with
  | [] => []
  | s :: rest =>
      record_lines s (match rest with [] => false | _ => true end)
      ++ students_lines rest
  end.

Definition file_lines (students : list Student) : list string :=
  [("{" ++ nl)%string; ("  " ++ dq ++ "students" ++ dq ++ ": [" ++ nl)%string]
  ++ students_lines students ++ [("  ]" ++ nl)%string; ("}" ++ nl)%string].

(** [sscanf] reads the grade [g] back as [reread g] from each of the tokens
    the loader cuts it into: alone, after the space that follows a comma,
    and before the closing bracket. *)
Definition grade_read_back (g : float32) : Prop :=
  forall pre post,
    pre ∈ [EmptyString; " "%string] -> post ∈ [EmptyString; "]"%string] ->
    sscanf_f (pre ++ fmt_2f g ++ post) = Some (reread g).

(** What the round trip through the data file asks of a record and of the
    conversions applied to it. *)
Definition record_saved (s : Student) : Prop :=
  strchr (name s) dquote = None /\ strchr (name s) newline = None /\
  strchr (fmt_d (id s)) newline = None /\
  sscanf_d (" " ++ fmt_d (id s) ++ "," ++ nl) = Some (id s) /\
  number_text (fmt_2f (average s)) /\
  Forall (fun g => number_text (fmt_2f g) /\ grade_read_back g) (grades s) /\
  (String.length (id_line fmt_d s) <= 511)%nat /\
  (String.length (name_line s) <= 511)%nat /\
  (String.length (grades_line fmt_2f s) <= 511)%nat /\
  (String.length (average_line fmt_2f s) <= 511)%nat.

(** The record as it comes back from the file. *)
Definition reloaded (s : Student) : Z * string * list float32 :=
  (id s, ": "%string, reread <$> grades s).
End SavedFile.

(** ** A session at the console

    The examples run the menu on an input typed line by line.  [one_digit]
    and [one_digit_float] stand in for [strtol] and [strtof] there: they
    convert a buffer that holds one decimal digit, and consume nothing of any
    other. *)

Definition one_digit (buf : string) : Z * nat :=
  match buf with
  | String c EmptyString => (Z.of_nat (nat_of_ascii c) - 48, 1%nat)
  | _ => (0, 0%nat)
  end.

Definition one_digit_float (buf : string) : float32 * nat :=
  (f32_of_int (fst (one_digit buf)), snd (one_digit buf)).

(** The input made of the given lines, each followed by a newline. *)
Definition typed (lines : list string) : string :=
  string_concat ((fun l => (l ++ nl)%string) <$> lines).

(** Two students are added (7, Ann; 3, Bob), then the grades 9 and 8 for 7
    and 5 for 3; the store is sorted (bubble sort, by average) and searched
    for 3; 3 is renamed, 7 is deleted, and the menu is left. *)
Definition session : string :=
  typed ["1"; "7"; "Ann"; "1"; "3"; "Bob"; "2"; "7"; "9"; "2"; "7"; "8";
         "2"; "3"; "5"; "5"; "1"; "2"; "6"; "3"; "9"; "3"; "Rob"; "8"; "7";
         "0"]%string.

(** The stores handed to [save_students_to_file], in order. *)
Definition saved_stores (cs : list Call) : list (list Student) :=
  omap (fun c => match c with SaveStudents st => Some st | _ => None end) cs.

(** * Properties *)

(** ** Array reads and writes on a split list *)

Lemma at_index_middle (l1 l2 : list Student) (x : Student) :
  at_index (l1 ++ x :: l2) (length l1) = x.
Proof. unfold at_index. by apply list_lookup_total_middle. Qed.

Lemma at_index_app_r (l1 l2 : list Student) (i : nat) :
  at_index (l1 ++ l2) (length l1 + i) = at_index l2 i.
Proof.
  unfold at_index. rewrite lookup_total_app_r by lia. f_equal. lia.
Qed.

Lemma at_index_app_l (l1 l2 : list Student) (i : nat) :
  (i < length l1)%nat -> at_index (l1 ++ l2) i = at_index l1 i.
Proof. intros. unfold at_index. by rewrite lookup_total_app_l. Qed.

Lemma at_index_lookup (l : list Student) (i : nat) (x : Student) :
  l !! i = Some x -> at_index l i = x.
Proof. intros. unfold at_index. by apply list_lookup_total_correct. Qed.

Lemma insert_middle (l1 l2 : list Student) (x y : Student) :
  <[length l1 := y]> (l1 ++ x :: l2) = l1 ++ y :: l2.
Proof.
  replace (length l1) with (length l1 + 0)%nat at 1 by lia.
  by rewrite insert_app_r.
Qed.

(** ** Linear search *)

Lemma index_of_id_from_absent (i : Z) (l : list Student) (t : Z) :
  t ∉ id <$> l -> index_of_id_from i l t = -1.
Proof.
  revert i. induction l as [|s l IH]; intros i Hn; simpl; [done|].
  rewrite fmap_cons, not_elem_of_cons in Hn. destruct Hn as [Hne Hn].
  destruct (Z.eqb_spec (id s) t); [congruence|]. by apply IH.
Qed.

Lemma index_of_id_from_found (i : Z) (l1 l2 : list Student) (s : Student) :
  id s ∉ id <$> l1 ->
  index_of_id_from i (l1 ++ s :: l2) (id s) = i + Z.of_nat (length l1).
Proof.
  revert i. induction l1 as [|x l1 IH]; intros i Hn; simpl.
  - rewrite Z.eqb_refl. lia.
  - rewrite fmap_cons, not_elem_of_cons in Hn. destruct Hn as [Hne Hn].
    destruct (Z.eqb_spec (id x) (id s)); [congruence|].
    rewrite IH by done. lia.
Qed.

(** Splitting a list at the first record holding [t]. *)
Lemma first_occurrence (l : list Student) (t : Z) :
  t ∈ id <$> l ->
  exists l1 s l2, l = l1 ++ s :: l2 /\ id s = t /\ t ∉ id <$> l1.
Proof.
  induction l as [|x l IH]; intros Hin.
  - by apply elem_of_nil in Hin.
  - destruct (decide (id x = t)) as [Heq|Hne].
    + exists [], x, l. split; [done|]. split; [done|]. apply not_elem_of_nil.
    + rewrite fmap_cons, elem_of_cons in Hin.
      destruct Hin as [Heq|Hin]; [congruence|].
      destruct (IH Hin) as (l1 & s & l2 & -> & Hs & Hn).
      exists (x :: l1), s, l2. split; [done|]. split; [done|].
      rewrite fmap_cons, not_elem_of_cons. split; [congruence|done].
Qed.

Lemma index_of_id_absent (l : list Student) (t : Z) :
  index_of_id l t = -1 <-> t ∉ id <$> l.
Proof.
  split.
  - intros Hidx Hin.
    destruct (first_occurrence l t Hin) as (l1 & s & l2 & -> & <- & Hn).
    unfold index_of_id in Hidx. rewrite index_of_id_from_found in Hidx by done.
    lia.
  - apply index_of_id_from_absent.
Qed.

Lemma index_of_id_found (l1 l2 : list Student) (s : Student) :
  id s ∉ id <$> l1 ->
  index_of_id (l1 ++ s :: l2) (id s) = Z.of_nat (length l1).
Proof. intros. unfold index_of_id. by rewrite index_of_id_from_found. Qed.

(** ** [add_student] *)

Lemma add_student_duplicate (t : Z) (nm : option string) (l : list Student) :
  t ∈ id <$> l -> add_student t nm l = (false, l).
Proof.
  intros Hin. unfold add_student.
  destruct (Z.eqb_spec (index_of_id l t) (-1)) as [Heq|Hne]; [|done].
  by apply index_of_id_absent in Heq.
Qed.

Lemma add_student_fresh (t : Z) (nm : option string) (l : list Student) :
  t ∉ id <$> l ->
  add_student t nm l =
    (true, l ++ [mkStudent t (copy_name (default EmptyString nm)) [] f32_zero]).
Proof.
  intros Hn. unfold add_student.
  apply index_of_id_absent in Hn. by rewrite Hn.
Qed.

(** ** [delete_student] *)

Lemma shift_left_all (l1 l2 : list Student) (x : Student) :
  exists z,
    shift_left (length l2) (length l1) (l1 ++ x :: l2) = l1 ++ l2 ++ [z].
Proof.
  revert l1 x. induction l2 as [|y l2 IH]; intros l1 x; simpl.
  - by exists x.
  - rewrite at_index_app_r. change (at_index (x :: y :: l2) 1) with y.
    rewrite insert_middle.
    destruct (IH (l1 ++ [y]) y) as [z Hz].
    exists z. rewrite length_app in Hz. simpl in Hz.
    rewrite <- !app_assoc in Hz. simpl in Hz. exact Hz.
Qed.

Lemma delete_student_absent (t : Z) (l : list Student) :
  t ∉ id <$> l -> delete_student t l = (false, l).
Proof.
  intros Hn. unfold delete_student. apply index_of_id_absent in Hn.
  by rewrite Hn.
Qed.

Lemma delete_student_present (l1 l2 : list Student) (s : Student) :
  id s ∉ id <$> l1 ->
  delete_student (id s) (l1 ++ s :: l2) = (true, l1 ++ l2).
Proof.
  intros Hn. unfold delete_student. rewrite index_of_id_found by done.
  destruct (Z.eqb_spec (Z.of_nat (length l1)) (-1)); [lia|].
  rewrite Nat2Z.id. f_equal.
  rewrite length_app. simpl.
  replace (length l1 + S (length l2) - 1 - length l1)%nat with (length l2) by lia.
  destruct (shift_left_all l1 l2 s) as [z ->].
  replace (length l1 + S (length l2) - 1)%nat with (length (l1 ++ l2))
    by (rewrite length_app; lia).
  rewrite app_assoc. by rewrite take_app_length.
Qed.

(** C6: [delete_student] returns false and leaves the store unchanged when
    the id is absent; otherwise it returns true and removes the (first)
    record holding that id, the records before and after it keeping their
    order: the later ones move one place to the left, none is swapped in. *)
Theorem delete_student_shift_left (target : Z) (students : list Student) :
  (target ∉ id <$> students ->
     delete_student target students = (false, students)) /\
  (target ∈ id <$> students ->
     exists l1 s l2,
       students = l1 ++ s :: l2 /\ id s = target /\ (target ∉ id <$> l1) /\
       delete_student target students = (true, l1 ++ l2)).
Proof.
  split.
  - apply delete_student_absent.
  - intros Hin.
    destruct (first_occurrence students target Hin) as (l1 & s & l2 & -> & <- & Hn).
    exists l1, s, l2. repeat split; try done.
    by apply delete_student_present.
Qed.

Lemma delete_student_shift_left_witness :
  delete_student 9
    [mkStudent 1 "A" [] f32_zero; mkStudent 2 "B" [] f32_zero;
     mkStudent 3 "C" [] f32_zero] =
    (false,
     [mkStudent 1 "A" [] f32_zero; mkStudent 2 "B" [] f32_zero;
      mkStudent 3 "C" [] f32_zero]) /\
  (exists l1 s l2,
     [mkStudent 1 "A" [] f32_zero; mkStudent 2 "B" [] f32_zero;
      mkStudent 3 "C" [] f32_zero] = l1 ++ s :: l2 /\
     id s = 2 /\ (2 ∉ id <$> l1) /\
     delete_student 2
       [mkStudent 1 "A" [] f32_zero; mkStudent 2 "B" [] f32_zero;
        mkStudent 3 "C" [] f32_zero] = (true, l1 ++ l2)).
Proof.
  split.
  - apply (proj1 (delete_student_shift_left 9
                    [mkStudent 1 "A" [] f32_zero; mkStudent 2 "B" [] f32_zero;
                     mkStudent 3 "C" [] f32_zero])).
    simpl. rewrite !elem_of_cons, elem_of_nil. lia.
  - apply (proj2 (delete_student_shift_left 2
                    [mkStudent 1 "A" [] f32_zero; mkStudent 2 "B" [] f32_zero;
                     mkStudent 3 "C" [] f32_zero])).
    simpl. rewrite !elem_of_cons. lia.
Defined.

(** The shift at work: deleting the middle record of three moves the last
    one into its place, and the first one is not touched. *)
Example delete_student_middle :
  delete_student 2
    [mkStudent 1 "A" [] f32_zero; mkStudent 2 "B" [] f32_zero;
     mkStudent 3 "C" [] f32_zero] =
  (true, [mkStudent 1 "A" [] f32_zero; mkStudent 3 "C" [] f32_zero]).
Proof. reflexivity. Qed.

(** ** [update_student_name] and [add_grade_to_student] *)

Lemma update_student_name_absent (t : Z) (nm : string) (l : list Student) :
  t ∉ id <$> l -> update_student_name t nm l = (false, l).
Proof.
  intros Hn. unfold update_student_name. apply index_of_id_absent in Hn.
  by rewrite Hn.
Qed.

Lemma update_student_name_present (l1 l2 : list Student) (s : Student)
    (nm : string) :
  id s ∉ id <$> l1 ->
  update_student_name (id s) nm (l1 ++ s :: l2) = (true, l1 ++ renamed s nm :: l2).
Proof.
  intros Hn. unfold update_student_name. rewrite index_of_id_found by done.
  destruct (Z.eqb_spec (Z.of_nat (length l1)) (-1)); [lia|].
  rewrite Nat2Z.id, at_index_middle, insert_middle. done.
Qed.

Lemma add_grade_to_student_absent (t : Z) (g : float32) (l : list Student) :
  t ∉ id <$> l -> add_grade_to_student t g l = (false, l).
Proof.
  intros Hn. unfold add_grade_to_student. apply index_of_id_absent in Hn.
  by rewrite Hn.
Qed.

Lemma add_grade_to_student_present (l1 l2 : list Student) (s : Student)
    (g : float32) :
  id s ∉ id <$> l1 ->
  add_grade_to_student (id s) g (l1 ++ s :: l2) = (true, l1 ++ graded s g :: l2).
Proof.
  intros Hn. unfold add_grade_to_student. rewrite index_of_id_found by done.
  destruct (Z.eqb_spec (Z.of_nat (length l1)) (-1)); [lia|].
  rewrite Nat2Z.id, at_index_middle, insert_middle. done.
Qed.

Lemma graded_average (s : Student) (g : float32) :
  average (graded s g) = arithmetic_mean (grades s ++ [g]) /\
  grades (graded s g) = grades s ++ [g] /\
  id (graded s g) = id s /\ name (graded s g) = name s.
Proof.
  unfold graded, recalc_average, gradeCount, arithmetic_mean.
  cbn [grades id name average].
  destruct (Z.eqb_spec (Z.of_nat (length (grades s ++ [g]))) 0) as [E|E].
  { rewrite length_app in E. simpl in E. lia. }
  cbn [grades id name average].
  by destruct (grades s ++ [g]) eqn:E'; [destruct (grades s); discriminate|].
Qed.

(** ** Recursive summation *)

Section AggregationFacts.
Context {num : Type} `{!Inhabited num}.
Variable zero : num.
Variable add : num -> num -> num.

(** Only the first [n] grades are read. *)
Lemma sum_grades_fuel_take (fuel : nat) (gs : list num) (n : Z) :
  0 <= n <= Z.of_nat (length gs) ->
  sum_grades_fuel zero add fuel gs n = sum_grades_fuel zero add fuel (take (Z.to_nat n) gs) n.
Proof.
  revert gs n. induction fuel as [|fuel IH]; intros gs n Hn; simpl.
  - destruct (Z.leb_spec n 0); [done|].
    destruct (Z.eqb_spec n 1) as [->|]; [|done].
    destruct gs; simpl in *; [lia|done].
  - destruct (Z.leb_spec n 0); [done|].
    destruct (Z.eqb_spec n 1) as [->|].
    { destruct gs; simpl in *; [lia|done]. }
    assert (Hq : Z.quot n 2 = n / 2) by (apply Z.quot_div_nonneg; lia).
    rewrite Hq.
    assert (0 < n / 2 < n) by (split; [apply Z.div_str_pos|apply Z.div_lt]; lia).
    f_equal.
    + rewrite (IH gs) by lia.
      rewrite (IH (take (Z.to_nat n) gs)) by (rewrite length_take; lia).
      rewrite take_take. do 2 f_equal. lia.
    + rewrite (IH (drop (Z.to_nat (n / 2)) gs)) by (rewrite length_drop; lia).
      rewrite (IH (drop (Z.to_nat (n / 2)) (take (Z.to_nat n) gs)))
        by (rewrite length_drop, length_take; lia).
      f_equal. rewrite !take_drop_commute, take_take. do 2 f_equal. lia.
Qed.

(** Any fuel of at least [n] gives the same sum. *)
Lemma sum_grades_fuel_enough (f1 f2 : nat) (gs : list num) (n : Z) :
  n <= Z.of_nat f1 -> n <= Z.of_nat f2 -> sum_grades_fuel zero add f1 gs n = sum_grades_fuel zero add f2 gs n.
Proof.
  revert f2 gs n. induction f1 as [|f1 IH]; intros f2 gs n H1 H2.
  - destruct f2; simpl; destruct (Z.leb_spec n 0); try done;
      destruct (Z.eqb_spec n 1); try done; lia.
  - destruct f2 as [|f2]; simpl; destruct (Z.leb_spec n 0); try done;
      destruct (Z.eqb_spec n 1); try done; try lia.
    assert (Hq : Z.quot n 2 = n / 2) by (apply Z.quot_div_nonneg; lia).
    rewrite Hq.
    assert (0 < n / 2 < n) by (split; [apply Z.div_str_pos|apply Z.div_lt]; lia).
    f_equal; apply IH; lia.
Qed.

Lemma sum_grades_recursive_nil : sum_grades_recursive zero add [] 0 = zero.
Proof. reflexivity. Qed.

Lemma sum_grades_recursive_one (g : num) : sum_grades_recursive zero add [g] 1 = g.
Proof. reflexivity. Qed.

Lemma sum_grades_recursive_split (gs : list num) :
  let n := Z.of_nat (length gs) in
  let mid := Z.quot n 2 in
  2 <= n ->
  sum_grades_recursive zero add gs n =
    add (sum_grades_recursive zero add (take (Z.to_nat mid) gs) mid)
        (sum_grades_recursive zero add (drop (Z.to_nat mid) gs) (n - mid)).
Proof.
  intros n mid Hn. unfold sum_grades_recursive.
  assert (Hq : mid = n / 2) by (apply Z.quot_div_nonneg; lia).
  assert (0 < n / 2 < n) by (split; [apply Z.div_str_pos|apply Z.div_lt]; lia).
  destruct (Z.to_nat n) as [|f] eqn:Hf; [lia|]. simpl.
  destruct (Z.leb_spec n 0); [lia|].
  destruct (Z.eqb_spec n 1); [lia|].
  fold mid. f_equal.
  - rewrite sum_grades_fuel_take by lia.
    apply sum_grades_fuel_enough; lia.
  - apply sum_grades_fuel_enough; lia.
Qed.

Hypothesis add_assoc : forall x y z, add x (add y z) = add (add x y) z.
Hypothesis add_zero_l : forall x, add zero x = x.
Hypothesis add_zero_r : forall x, add x zero = x.

Lemma foldl_add_from (a : num) (gs : list num) :
  foldl add a gs = add a (foldl add zero gs).
Proof.
  revert a. induction gs as [|g gs IH]; intros a; simpl.
  - by rewrite add_zero_r.
  - rewrite (IH (add a g)), (IH (add zero g)), add_zero_l. apply eq_sym, add_assoc.
Qed.

Lemma sum_grades_fuel_sequential (fuel : nat) (gs : list num) (n : Z) :
  n <= Z.of_nat fuel -> 0 <= n <= Z.of_nat (length gs) ->
  sum_grades_fuel zero add fuel gs n = sequential_sum zero add (take (Z.to_nat n) gs).
Proof.
  unfold sequential_sum.
  revert gs n. induction fuel as [|fuel IH]; intros gs n Hf Hn; simpl.
  - destruct (Z.leb_spec n 0); [|lia].
    replace n with 0 by lia. done.
  - destruct (Z.leb_spec n 0).
    { replace n with 0 by lia. done. }
    destruct (Z.eqb_spec n 1) as [->|].
    { destruct gs as [|x gs]; simpl in *; [lia|].
      change (Z.to_nat 1) with 1%nat. simpl. by rewrite add_zero_l. }
    assert (Hq : Z.quot n 2 = n / 2) by (apply Z.quot_div_nonneg; lia).
    rewrite Hq.
    assert (0 < n / 2 < n) by (split; [apply Z.div_str_pos|apply Z.div_lt]; lia).
    rewrite !IH by (rewrite ?length_drop; lia).
    rewrite <- foldl_add_from, <- foldl_app. f_equal.
    rewrite take_take_drop. f_equal. lia.
Qed.
End AggregationFacts.

(** C8 (amended): [sum_grades_recursive] is the divide-and-conquer sum: zero
    for no grade, the grade itself for one, and otherwise the sum of the
    first [n / 2] grades added to the sum of the others.  It equals
    left-to-right sequential summation whenever the addition is associative
    with zero as its identity, as in exact arithmetic; binary32 addition is
    not, and there the two can differ. *)
Theorem sum_grades_recursive_divide_and_conquer {num : Type} `{!Inhabited num}
    (zero : num) (add : num -> num -> num) (gs : list num) :
  let n := Z.of_nat (length gs) in
  let mid := Z.quot n 2 in
  sum_grades_recursive zero add [] 0 = zero /\
  (forall g, sum_grades_recursive zero add [g] 1 = g) /\
  (2 <= n ->
     sum_grades_recursive zero add gs n =
       add (sum_grades_recursive zero add (take (Z.to_nat mid) gs) mid)
           (sum_grades_recursive zero add (drop (Z.to_nat mid) gs) (n - mid))) /\
  ((forall x y z, add x (add y z) = add (add x y) z) ->
   (forall x, add zero x = x) ->
   (forall x, add x zero = x) ->
   sum_grades_recursive zero add gs n = sequential_sum zero add gs).
Proof.
  intros n mid. split; [done|]. split; [done|]. split.
  - apply sum_grades_recursive_split.
  - intros Ha Hl Hr. unfold sum_grades_recursive.
    rewrite sum_grades_fuel_sequential by (try done; lia).
    unfold n. by rewrite Nat2Z.id, firstn_all.
Qed.

Lemma sum_grades_recursive_divide_and_conquer_witness :
  sum_grades_recursive 0 Z.add [3; 1; 4; 1; 5] 5 =
  sequential_sum 0 Z.add [3; 1; 4; 1; 5].
Proof.
  apply (sum_grades_recursive_divide_and_conquer 0 Z.add [3; 1; 4; 1; 5]);
    intros; lia.
Defined.

(** C8 as stated fails in binary32, each addition rounding to nearest even:
    on the grades [2^24, 1, 1, 1] the recursive sum adds [2^24 + 1], which
    rounds to [2^24], to [1 + 1 = 2] and gets [2^24 + 2]; the sequential sum
    adds 1 three times to [2^24], which rounds back to [2^24] each time. *)
Lemma sum_grades_recursive_differs_from_sequential :
  let gs := [f32_of_int 16777216; f32_of_int 1; f32_of_int 1; f32_of_int 1] in
  sum_grades_recursive f32_zero f32_add gs 4 = f32_of_int 16777218 /\
  sequential_sum f32_zero f32_add gs = f32_of_int 16777216 /\
  sum_grades_recursive f32_zero f32_add gs 4 <> sequential_sum f32_zero f32_add gs.
Proof. vm_compute. repeat split; discriminate. Qed.

(** ** Whole numbers in binary32

    A whole number below [2^24] in absolute value converts to binary32
    without rounding, and adding two such numbers gives the conversion of
    their exact sum: the mantissas are aligned, added as integers and
    normalised, and normalising does not depend on how a value is split into
    mantissa and exponent.  Dividing such a number by one that divides it
    gives the quotient: the remainder of the integer division is zero. *)

Lemma iter_pos_nat {A : Type} (f : A -> A) (p : positive) (x : A) :
  SpecFloat.iter_pos f p x = Nat.iter (Pos.to_nat p) f x.
Proof.
  revert x. induction p as [p IH|p IH|]; intros x; cbn [SpecFloat.iter_pos].
  - rewrite !IH, Pos2Nat.inj_xI.
    replace (S (2 * Pos.to_nat p)) with (Pos.to_nat p + S (Pos.to_nat p))%nat
      by lia.
    by rewrite Nat.iter_add, Nat.iter_succ_r.
  - rewrite !IH, Pos2Nat.inj_xO.
    replace (2 * Pos.to_nat p)%nat with (Pos.to_nat p + Pos.to_nat p)%nat
      by lia.
    by rewrite Nat.iter_add.
  - done.
Qed.

Lemma shr_fexp_double (q : positive) (e : Z) :
  0 < fexp f32_prec f32_emax (Z.pos (digits2_pos q) + (e + 1)) - e ->
  shr_fexp f32_prec f32_emax (Z.pos q~0) e loc_Exact =
  shr_fexp f32_prec f32_emax (Z.pos q) (e + 1) loc_Exact.
Proof.
  intros Ht. unfold shr_fexp. cbn [Zdigits2 digits2_pos shr_record_of_loc].
  rewrite Pos2Z.inj_succ.
  replace (Z.succ (Z.pos (digits2_pos q)) + e)
    with (Z.pos (digits2_pos q) + (e + 1)) by lia.
  set (t := fexp f32_prec f32_emax (Z.pos (digits2_pos q) + (e + 1))) in *.
  unfold shr.
  destruct (t - e) as [|k|k] eqn:Hk; [lia| |lia].
  rewrite iter_pos_nat.
  destruct (t - (e + 1)) as [|k'|k'] eqn:Hk'.
  - assert (k = 1%positive) as -> by lia. simpl. f_equal; lia.
  - rewrite iter_pos_nat.
    assert (Pos.to_nat k = S (Pos.to_nat k')) as -> by lia.
    rewrite Nat.iter_succ_r. simpl. f_equal; lia.
  - lia.
Qed.

(** Doubling the mantissa and lowering the exponent by one gives the same
    binary32 number. *)
Lemma binary_round_double (s : bool) (q : positive) (e : Z) :
  binary_round f32_prec f32_emax s q~0 e =
  binary_round f32_prec f32_emax s q (e + 1).
Proof.
  unfold binary_round. cbn [digits2_pos]. rewrite Pos2Z.inj_succ.
  replace (Z.succ (Z.pos (digits2_pos q)) + e)
    with (Z.pos (digits2_pos q) + (e + 1)) by lia.
  set (t := fexp f32_prec f32_emax (Z.pos (digits2_pos q) + (e + 1))).
  unfold shl_align.
  destruct (t - e) as [|k|k] eqn:Hk.
  - assert (t - (e + 1) = Z.neg 1) as -> by lia. simpl.
    by replace t with e by lia.
  - assert (0 <= t - (e + 1)) as Hge by lia.
    destruct (t - (e + 1)) as [|k'|k'] eqn:Hk'; [| |lia].
    + unfold binary_round_aux. rewrite shr_fexp_double by (fold t; lia). done.
    + unfold binary_round_aux. rewrite shr_fexp_double by (fold t; lia). done.
  - assert (t - (e + 1) = Z.neg (Pos.succ k)) as -> by lia.
    by rewrite Pos.iter_succ_r.
Qed.

Lemma binary_normalize_double (z e : Z) (sz : bool) :
  binary_normalize f32_prec f32_emax (2 * z) e sz =
  binary_normalize f32_prec f32_emax z (e + 1) sz.
Proof. destruct z; simpl; [done| |]; apply binary_round_double. Qed.

Lemma binary_normalize_shift (z e : Z) (j : nat) (sz : bool) :
  binary_normalize f32_prec f32_emax (z * 2 ^ Z.of_nat j) e sz =
  binary_normalize f32_prec f32_emax z (e + Z.of_nat j) sz.
Proof.
  revert e. induction j as [|j IH]; intros e.
  - simpl. by rewrite Z.mul_1_r, Z.add_0_r.
  - rewrite Nat2Z.inj_succ, Z.pow_succ_r by lia.
    replace (z * (2 * 2 ^ Z.of_nat j)) with (2 * (z * 2 ^ Z.of_nat j)) by lia.
    rewrite binary_normalize_double, IH. f_equal. lia.
Qed.

(** A mantissa that needs no shift is kept as it is. *)
Lemma binary_round_canonical (s : bool) (m : positive) (e : Z) :
  bounded f32_prec f32_emax m e = true ->
  binary_round f32_prec f32_emax s m e = S754_finite s m e.
Proof.
  unfold bounded, canonical_mantissa.
  intros [Hc He]%andb_true_iff. apply Z.eqb_eq in Hc.
  unfold binary_round. rewrite Hc. unfold shl_align. rewrite Z.sub_diag.
  unfold binary_round_aux, shr_fexp. cbn [Zdigits2 shr_record_of_loc].
  rewrite Hc, Z.sub_diag. cbn [shr shr_m loc_of_shr_record round_nearest_even].
  cbn [Zdigits2 shr_record_of_loc].
  rewrite Hc, Z.sub_diag. cbn [shr shr_m]. by rewrite He.
Qed.

Lemma digits2_pos_bounds (p : positive) :
  2 ^ (Z.pos (digits2_pos p) - 1) <= Z.pos p < 2 ^ Z.pos (digits2_pos p).
Proof.
  induction p as [p IH|p IH|]; cbn [digits2_pos]; [| |done].
  - rewrite Pos2Z.inj_succ, Z.pow_succ_r by lia.
    replace (Z.succ (Z.pos (digits2_pos p)) - 1) with
      (Z.succ (Z.pos (digits2_pos p) - 1)) by lia.
    rewrite Z.pow_succ_r by lia. lia.
  - rewrite Pos2Z.inj_succ, Z.pow_succ_r by lia.
    replace (Z.succ (Z.pos (digits2_pos p)) - 1) with
      (Z.succ (Z.pos (digits2_pos p) - 1)) by lia.
    rewrite Z.pow_succ_r by lia. lia.
Qed.

Lemma digits2_pos_iter (p : positive) (j : nat) :
  Z.pos (digits2_pos (Nat.iter j xO p)) = Z.pos (digits2_pos p) + Z.of_nat j.
Proof.
  induction j as [|j IH]; [simpl; lia|].
  change (Nat.iter (S j) xO p) with (xO (Nat.iter j xO p)).
  cbn [digits2_pos]. rewrite Pos2Z.inj_succ, IH. lia.
Qed.

Lemma Zpos_iter (p : positive) (j : nat) :
  Z.pos (Nat.iter j xO p) = Z.pos p * 2 ^ Z.of_nat j.
Proof.
  induction j as [|j IH]; [simpl; lia|].
  rewrite Nat2Z.inj_succ, Z.pow_succ_r by lia.
  change (Nat.iter (S j) xO p) with (xO (Nat.iter j xO p)).
  rewrite Pos2Z.inj_xO, IH. lia.
Qed.

Lemma whole_f32_of_int (x : float32) (z : Z) : whole x z -> x = f32_of_int z.
Proof.
  destruct x as [s| | |s m e]; simpl; try done.
  - by intros [-> ->].
  - intros (He & Hv & Hb). unfold f32_of_int.
    replace 0 with (e + Z.of_nat (Z.to_nat (- e))) at 1 by lia.
    rewrite <- binary_normalize_shift, Z2Nat.id by lia.
    rewrite <- Hv. destruct s; simpl; symmetry; by apply binary_round_canonical.
Qed.

Lemma f32_of_int_whole (z : Z) : Z.abs z < 2 ^ 24 -> whole (f32_of_int z) z.
Proof.
  intros Hz. destruct z as [|p|p]; [done| |].
  all: pose proof (digits2_pos_bounds p) as [Hlo Hhi].
  all: assert (Hd : Z.pos (digits2_pos p) <= 24)
    by (apply Z.nlt_ge; intros Hd;
        assert (2 ^ 24 <= 2 ^ (Z.pos (digits2_pos p) - 1))
          by (apply Z.pow_le_mono_r; lia); lia).
  all: set (j := Z.to_nat (24 - Z.pos (digits2_pos p))).
  all: unfold f32_of_int.
  all: replace 0 with (- Z.of_nat j + Z.of_nat j) at 1 by lia.
  all: rewrite <- binary_normalize_shift.
  - change (Z.pos p * 2 ^ Z.of_nat j) with (Z.pos p * 2 ^ Z.of_nat j).
    rewrite <- Zpos_iter. cbn [binary_normalize].
    rewrite binary_round_canonical.
    + simpl. split; [lia|]. split.
      * rewrite Zpos_iter. f_equal. f_equal. lia.
      * unfold bounded, canonical_mantissa. rewrite digits2_pos_iter.
        unfold fexp, emin, f32_prec, f32_emax.
        apply andb_true_iff. split; [apply Z.eqb_eq|apply Z.leb_le]; lia.
    + unfold bounded, canonical_mantissa. rewrite digits2_pos_iter.
      unfold fexp, emin, f32_prec, f32_emax.
      apply andb_true_iff. split; [apply Z.eqb_eq|apply Z.leb_le]; lia.
  - replace (Z.neg p * 2 ^ Z.of_nat j) with (Z.neg (Nat.iter j xO p))
      by (rewrite <- Pos2Z.opp_pos, Zpos_iter; lia).
    cbn [binary_normalize].
    rewrite binary_round_canonical.
    + simpl. split; [lia|]. split.
      * rewrite Zpos_iter. replace (- - Z.of_nat j) with (Z.of_nat j) by lia.
        lia.
      * unfold bounded, canonical_mantissa. rewrite digits2_pos_iter.
        unfold fexp, emin, f32_prec, f32_emax.
        apply andb_true_iff. split; [apply Z.eqb_eq|apply Z.leb_le]; lia.
    + unfold bounded, canonical_mantissa. rewrite digits2_pos_iter.
      unfold fexp, emin, f32_prec, f32_emax.
      apply andb_true_iff. split; [apply Z.eqb_eq|apply Z.leb_le]; lia.
Qed.

Lemma shl_align_value (m : positive) (e e' : Z) :
  e' <= e ->
  Z.pos (fst (shl_align m e e')) = Z.pos m * 2 ^ (e - e').
Proof.
  intros He. unfold shl_align.
  destruct (e' - e) as [|k|k] eqn:Hk; [|lia|].
  - simpl. replace (e - e') with 0 by lia. lia.
  - simpl. rewrite Pos2Nat.inj_iter.
    change (nat_rect (fun _ => positive) m (fun _ => xO) (Pos.to_nat k))
      with (Nat.iter (Pos.to_nat k) xO m).
    rewrite Zpos_iter. f_equal. f_equal. lia.
Qed.

(** Adding two whole numbers gives their sum, rounded to binary32. *)
Lemma f32_add_whole (x y : float32) (a b : Z) :
  whole x a -> whole y b -> f32_add x y = f32_of_int (a + b).
Proof.
  intros Hx Hy.
  destruct x as [sx| | |sx mx ex], y as [sy| | |sy my ey]; simpl in Hx, Hy;
    try done.
  - destruct Hx as [-> ->], Hy as [-> ->]. done.
  - destruct Hx as [-> ->]. by apply (whole_f32_of_int (S754_finite sy my ey)).
  - destruct Hy as [-> ->]. rewrite Z.add_0_r.
    by apply (whole_f32_of_int (S754_finite sx mx ex)).
  - destruct Hx as (Hex & Hvx & _), Hy as (Hey & Hvy & _).
    unfold f32_add, SFadd.
    set (ez := Z.min ex ey).
    assert (Hsum :
      SpecFloat.cond_Zopp sx (Z.pos (fst (shl_align mx ex ez))) +
      SpecFloat.cond_Zopp sy (Z.pos (fst (shl_align my ey ez))) =
      (a + b) * 2 ^ Z.of_nat (Z.to_nat (- ez))).
    { rewrite !shl_align_value by lia. rewrite Z2Nat.id by lia.
      assert (Hpx : 2 ^ (- ex) * 2 ^ (ex - ez) = 2 ^ (- ez))
        by (rewrite <- Z.pow_add_r by lia; f_equal; lia).
      assert (Hpy : 2 ^ (- ey) * 2 ^ (ey - ez) = 2 ^ (- ez))
        by (rewrite <- Z.pow_add_r by lia; f_equal; lia).
      assert (Hcx : SpecFloat.cond_Zopp sx (Z.pos mx * 2 ^ (ex - ez)) =
                    a * 2 ^ (- ex) * 2 ^ (ex - ez))
        by (rewrite <- Hvx; unfold SpecFloat.cond_Zopp; destruct sx; lia).
      assert (Hcy : SpecFloat.cond_Zopp sy (Z.pos my * 2 ^ (ey - ez)) =
                    b * 2 ^ (- ey) * 2 ^ (ey - ez))
        by (rewrite <- Hvy; unfold SpecFloat.cond_Zopp; destruct sy; lia).
      rewrite Hcx, Hcy, <- !Z.mul_assoc, Hpx, Hpy. lia. }
    rewrite Hsum, binary_normalize_shift. unfold f32_of_int. f_equal. lia.
Qed.

Lemma fexp_mono (a b : Z) :
  a <= b -> fexp f32_prec f32_emax a <= fexp f32_prec f32_emax b.
Proof. unfold fexp. lia. Qed.

(** A mantissa with digits enough is rounded as it stands. *)
Lemma binary_round_aux_exact (s : bool) (q : positive) (e : Z) :
  e <= fexp f32_prec f32_emax (Z.pos (digits2_pos q) + e) ->
  binary_round_aux f32_prec f32_emax s (Z.pos q) e loc_Exact =
  binary_round f32_prec f32_emax s q e.
Proof.
  intros He. unfold binary_round, shl_align.
  by destruct (fexp f32_prec f32_emax (Z.pos (digits2_pos q) + e) - e)
    eqn:E; [| |lia].
Qed.

Lemma new_location_zero (d : Z) : new_location d 0 = loc_Exact.
Proof. unfold new_location. by destruct (Z.even d). Qed.

Lemma whole_digits (s : bool) (m : positive) (e z : Z) :
  whole (S754_finite s m e) z ->
  Z.pos m = Z.abs z * 2 ^ (- e) /\ z <> 0 /\
  1 <= Z.pos (digits2_pos m) + e <= 24.
Proof.
  intros (He & Hv & Hb).
  assert (Hp : 0 < 2 ^ (- e)) by (apply Z.pow_pos_nonneg; lia).
  assert (Hm : Z.pos m = Z.abs z * 2 ^ (- e)).
  { destruct s; simpl in Hv; nia. }
  split; [done|]. split; [intros ->; lia|].
  unfold bounded, canonical_mantissa in Hb.
  apply andb_true_iff in Hb as [Hc _]. apply Z.eqb_eq in Hc.
  unfold fexp, emin, f32_prec, f32_emax in Hc.
  pose proof (digits2_pos_bounds m) as [Hlo Hhi].
  split; [|lia].
  assert (Hz : 1 <= Z.abs z) by (destruct z; simpl in *; lia).
  assert (2 ^ (- e) < 2 ^ Z.pos (digits2_pos m)) by nia.
  assert (- e < Z.pos (digits2_pos m)) by (apply (Z.pow_lt_mono_r_iff 2); lia).
  lia.
Qed.

(** Dividing a whole number by a whole number that divides it gives the
    quotient. *)
Lemma f32_div_whole (x y : float32) (c n : Z) :
  0 < n -> whole x (c * n) -> whole y n -> f32_div x y = f32_of_int c.
Proof.
  intros Hn Hx Hy.
  destruct y as [sy| | |sy my ey]; simpl in Hy; try done; [lia|].
  assert (Hsy : sy = false).
  { destruct Hy as (He & Hv & _).
    assert (0 < 2 ^ (- ey)) by (apply Z.pow_pos_nonneg; lia).
    destruct sy; [simpl in Hv; nia|done]. }
  subst sy.
  destruct x as [sx| | |sx mx ex]; simpl in Hx; try done.
  { destruct Hx as [-> Hc]. assert (c = 0) as -> by nia. done. }
  destruct (whole_digits _ _ _ _ Hx) as (Hmx & Hcn & Hdx).
  destruct (whole_digits _ _ _ _ Hy) as (Hmy & _ & Hdy).
  destruct Hx as (Hex & Hvx & _), Hy as (Hey & _ & _).
  assert (Hc : c <> 0) by (intros ->; lia).
  unfold f32_div, SFdiv, SFdiv_core_binary. cbn [Zdigits2].
  set (d1 := Z.pos (digits2_pos mx)) in *.
  set (d2 := Z.pos (digits2_pos my)) in *.
  set (e' := Z.min (fexp f32_prec f32_emax (d1 + ex - (d2 + ey))) (ex - ey)).
  assert (He' : e' < 0).
  { unfold e', fexp, emin, f32_prec, f32_emax. lia. }
  assert (Hs : 0 <= ex - ey - e') by (unfold e'; lia).
  set (Q := Z.abs c * 2 ^ (- e')).
  assert (HQ : 0 < Q).
  { unfold Q. assert (0 < 2 ^ (- e')) by (apply Z.pow_pos_nonneg; lia). nia. }
  assert (Hm' :
    match ex - ey - e' with
    | 0 => Z.pos mx
    | Z.pos _ => Z.shiftl (Z.pos mx) (ex - ey - e')
    | Z.neg _ => 0
    end = Q * Z.pos my).
  { assert (Hsh : Z.pos mx * 2 ^ (ex - ey - e') = Q * Z.pos my).
    { rewrite Hmx, Hmy. unfold Q. rewrite Z.abs_mul, (Z.abs_eq n) by lia.
      replace (Z.abs c * n * 2 ^ (- ex) * 2 ^ (ex - ey - e'))
        with (Z.abs c * n * (2 ^ (- ex) * 2 ^ (ex - ey - e'))) by lia.
      rewrite <- Z.pow_add_r by lia.
      replace (Z.abs c * 2 ^ (- e') * (n * 2 ^ (- ey)))
        with (Z.abs c * n * (2 ^ (- e') * 2 ^ (- ey))) by lia.
      rewrite <- Z.pow_add_r by lia. do 2 f_equal. lia. }
    destruct (ex - ey - e') as [|k|k] eqn:Hk; [|by rewrite Z.shiftl_mul_pow2|lia].
    by rewrite <- Hsh, Z.mul_1_r. }
  rewrite Hm'.
  assert (Hdiv : Z.div_eucl (Q * Z.pos my) (Z.pos my) = (Q, 0)).
  { pose proof (Z.div_mul Q (Z.pos my) ltac:(lia)) as Hq.
    pose proof (Z.mod_mul Q (Z.pos my) ltac:(lia)) as Hr.
    unfold Z.div, Z.modulo in Hq, Hr.
    destruct (Z.div_eucl (Q * Z.pos my) (Z.pos my)) as [q r]. by subst. }
  rewrite Hdiv, new_location_zero. cbn [xorb].
  rewrite xorb_false_r.
  destruct Q as [|qp|qp] eqn:HQp; [lia| |lia].
  pose proof (digits2_pos_bounds qp) as [_ Hqhi].
  pose proof (digits2_pos_bounds mx) as [Hxlo _].
  pose proof (digits2_pos_bounds my) as [_ Hyhi].
  fold d1 in Hxlo. fold d2 in Hyhi.
  assert (Hdq : d1 + (ex - ey - e') - d2 <= Z.pos (digits2_pos qp)).
  { apply Z.nlt_ge. intros Hlt.
    assert (Hprod : Z.pos mx * 2 ^ (ex - ey - e') = Z.pos qp * Z.pos my).
    { destruct (ex - ey - e') as [|k|k] eqn:Hk; [| |lia].
      - by rewrite Z.mul_1_r.
      - by rewrite <- Z.shiftl_mul_pow2. }
    assert (H1 : 2 ^ (d1 - 1 + (ex - ey - e')) <= Z.pos mx * 2 ^ (ex - ey - e')).
    { rewrite Z.pow_add_r by (unfold d1; lia).
      apply Z.mul_le_mono_nonneg_r; [apply Z.pow_nonneg; lia|done]. }
    assert (H2 : Z.pos qp * Z.pos my
                 < 2 ^ (Z.pos (digits2_pos qp) + d2)).
    { rewrite Z.pow_add_r by (unfold d2; lia). nia. }
    assert (H3 : 2 ^ (Z.pos (digits2_pos qp) + d2)
                 <= 2 ^ (d1 - 1 + (ex - ey - e')))
      by (apply Z.pow_le_mono_r; lia).
    lia. }
  rewrite binary_round_aux_exact.
  2:{ transitivity (fexp f32_prec f32_emax (d1 + ex - (d2 + ey)));
        [unfold e'; lia|apply fexp_mono; lia]. }
  unfold f32_of_int.
  replace 0 with (e' + Z.of_nat (Z.to_nat (- e'))) at 1 by lia.
  rewrite <- binary_normalize_shift, Z2Nat.id by lia.
  assert (Hsign : SpecFloat.cond_Zopp sx (Z.pos qp) = c * 2 ^ (- e')).
  { assert (0 < 2 ^ (- e')) by (apply Z.pow_pos_nonneg; lia).
    assert (0 < 2 ^ (- ex)) by (apply Z.pow_pos_nonneg; lia).
    unfold Q in HQp.
    destruct sx; simpl in Hvx |- *.
    - assert (c < 0) by nia. rewrite Pos2Z.opp_pos || idtac. lia.
    - assert (0 < c) by nia. lia. }
  rewrite <- Hsign. by destruct sx.
Qed.

(** ** The divide-and-conquer sum of the specification *)

Section HalvesSumFacts.
Context {num : Type} `{!Inhabited num}.
Variable zero : num.
Variable add : num -> num -> num.

(** A list has one divide-and-conquer sum. *)
Lemma halves_sum_functional (gs : list num) (a b : num) :
  halves_sum zero add gs a -> halves_sum zero add gs b -> a = b.
Proof.
  intros Ha. revert b.
  induction Ha as [|g|gs a1 a2 Hlen H1 IH1 H2 IH2]; intros b Hb.
  - inversion Hb; subst; [done|simpl in *; lia].
  - inversion Hb; subst; [done|simpl in *; lia].
  - inversion Hb; subst; try (simpl in Hlen; lia).
    f_equal; [by apply IH1|by apply IH2].
Qed.

(** [sum_grades_recursive], run on a whole array, computes it. *)
Lemma sum_grades_recursive_halves (gs : list num) :
  halves_sum zero add gs
    (sum_grades_recursive zero add gs (Z.of_nat (length gs))).
Proof.
  remember (length gs) as n eqn:Hn. revert gs Hn.
  induction (lt_wf n) as [n _ IH]. intros gs ->.
  destruct gs as [|g [|g' gs]]; [constructor|constructor|].
  set (l := g :: g' :: gs) in *.
  assert (Hll : length l = S (S (length gs))) by done.
  assert (Hmid : Z.quot (Z.of_nat (length l)) 2 = Z.of_nat (length l / 2)).
  { rewrite Z.quot_div_nonneg by lia. by rewrite Nat2Z.inj_div. }
  assert (Hlt : (0 < length l / 2 < length l)%nat).
  { split; [apply Nat.div_str_pos|apply Nat.div_lt]; simpl; lia. }
  rewrite sum_grades_recursive_split by (simpl; lia).
  rewrite Hmid, Nat2Z.id.
  apply halves_split; [simpl; lia| |].
  - replace (Z.of_nat (length l / 2))
      with (Z.of_nat (length (take (length l / 2) l)))
      by (rewrite length_take; lia).
    apply (IH (length (take (length l / 2) l)));
      [rewrite length_take; lia|done].
  - replace (Z.of_nat (length l) - Z.of_nat (length l / 2))
      with (Z.of_nat (length (drop (length l / 2) l)))
      by (rewrite length_drop; lia).
    apply (IH (length (drop (length l / 2) l)));
      [rewrite length_drop; lia|done].
Qed.
End HalvesSumFacts.

(** What [recalc_average] stores is the mean of the specification, and
    nothing else is. *)
Lemma arithmetic_mean_is_mean (gs : list float32) :
  mean_of gs (arithmetic_mean gs).
Proof.
  destruct gs as [|g gs]; [done|].
  eexists. split; [apply sum_grades_recursive_halves|done].
Qed.

Lemma mean_of_unique (gs : list float32) (m : float32) :
  mean_of gs m -> m = arithmetic_mean gs.
Proof.
  destruct gs as [|g gs]; [done|].
  intros (sum & Hsum & ->). unfold arithmetic_mean. f_equal.
  eapply halves_sum_functional; [done|apply sum_grades_recursive_halves].
Qed.

Lemma average_consistent_mean (s : Student) :
  average_consistent s <-> mean_of (grades s) (average s).
Proof.
  unfold average_consistent. split.
  - intros ->. apply arithmetic_mean_is_mean.
  - apply mean_of_unique.
Qed.

(** ** The mean of whole-number grades *)

Lemma total_app (zs1 zs2 : list Z) :
  total (zs1 ++ zs2) = total zs1 + total zs2.
Proof.
  unfold total. induction zs1 as [|z zs1 IH]; cbn [fold_right app]; lia.
Qed.

Lemma total_abs (zs : list Z) : Z.abs (total zs) <= total (Z.abs <$> zs).
Proof.
  unfold total. induction zs as [|z zs IH]; cbn [fold_right fmap list_fmap]; lia.
Qed.

Lemma total_abs_nonneg (zs : list Z) : 0 <= total (Z.abs <$> zs).
Proof.
  unfold total. induction zs as [|z zs IH]; cbn [fold_right fmap list_fmap]; lia.
Qed.

(** As long as the absolute values of the grades add up to less than
    [2^24], no addition of the divide-and-conquer sum rounds. *)
Lemma halves_sum_whole (zs : list Z) :
  total (Z.abs <$> zs) < 2 ^ 24 ->
  halves_sum f32_zero f32_add (f32_of_int <$> zs) (f32_of_int (total zs)).
Proof.
  remember (length zs) as n eqn:Hn. revert zs Hn.
  induction (lt_wf n) as [n _ IH]. intros zs -> Hb.
  destruct zs as [|z [|z' zs]].
  - constructor.
  - simpl. unfold total. simpl. rewrite Z.add_0_r. constructor.
  - set (l := z :: z' :: zs) in *.
    assert (Hll : length l = S (S (length zs))) by done.
    assert (Hlt : (0 < length l / 2 < length l)%nat).
    { split; [apply Nat.div_str_pos|apply Nat.div_lt]; simpl; lia. }
    pose proof (take_drop (length l / 2) l) as Hl.
    assert (Ht : total l =
                 total (take (length l / 2) l) + total (drop (length l / 2) l))
      by (by rewrite <- total_app, Hl).
    assert (Ha : total (Z.abs <$> l) =
                 total (Z.abs <$> take (length l / 2) l) +
                 total (Z.abs <$> drop (length l / 2) l))
      by (by rewrite <- total_app, <- fmap_app, Hl).
    pose proof (total_abs (take (length l / 2) l)).
    pose proof (total_abs (drop (length l / 2) l)).
    pose proof (total_abs_nonneg (take (length l / 2) l)).
    pose proof (total_abs_nonneg (drop (length l / 2) l)).
    rewrite Ht.
    rewrite <- (f32_add_whole (f32_of_int (total (take (length l / 2) l)))
                  (f32_of_int (total (drop (length l / 2) l))))
      by (apply f32_of_int_whole; lia).
    apply halves_split; [rewrite length_fmap; simpl; lia| |].
    + rewrite length_fmap, <- fmap_take.
      apply (IH (length (take (length l / 2) l)));
        [rewrite length_take; lia|done|lia].
    + rewrite length_fmap, <- fmap_drop.
      apply (IH (length (drop (length l / 2) l)));
        [rewrite length_drop; lia|done|lia].
Qed.

(** The mean of whole-number grades is their exact total divided by their
    count, rounded once. *)
Lemma mean_of_whole (zs : list Z) (m : float32) :
  zs <> [] -> total (Z.abs <$> zs) < 2 ^ 24 ->
  mean_of (f32_of_int <$> zs) m ->
  m = f32_div (f32_of_int (total zs)) (f32_of_int (Z.of_nat (length zs))).
Proof.
  intros Hne Hb Hm. destruct zs as [|z zs]; [done|].
  destruct Hm as (sum & Hsum & ->). rewrite length_fmap. f_equal.
  eapply halves_sum_functional; [done|by apply halves_sum_whole].
Qed.

(** When the count divides the total, that is the quotient itself. *)
Lemma mean_of_whole_quotient (zs : list Z) (m : float32) (c : Z) :
  zs <> [] -> total (Z.abs <$> zs) < 2 ^ 24 ->
  Z.of_nat (length zs) < 2 ^ 24 ->
  total zs = c * Z.of_nat (length zs) ->
  mean_of (f32_of_int <$> zs) m -> m = f32_of_int c.
Proof.
  intros Hne Hb Hn Hc Hm. rewrite (mean_of_whole zs m Hne Hb Hm).
  pose proof (total_abs zs).
  apply (f32_div_whole _ _ c (Z.of_nat (length zs))).
  - destruct zs; [done|simpl; lia].
  - rewrite <- Hc. apply f32_of_int_whole. lia.
  - apply f32_of_int_whole. lia.
Qed.

(** ** Order of binary32 values *)

Lemma SFcompare_finite_pos (m1 m2 : positive) (e1 e2 : Z) :
  match e1 ?= e2 with
  | Eq => Pos.compare_cont Eq m1 m2
  | c => c
  end = Lt <-> e1 < e2 \/ (e1 = e2 /\ Z.pos m1 < Z.pos m2).
Proof.
  change (Pos.compare_cont Eq m1 m2) with (Pos.compare m1 m2).
  destruct (Z.compare_spec e1 e2); destruct (Pos.compare_spec m1 m2);
    split; intros; try lia; try discriminate; reflexivity.
Qed.

Lemma SFcompare_finite_neg (m1 m2 : positive) (e1 e2 : Z) :
  match e1 ?= e2 with
  | Eq => CompOpp (Pos.compare_cont Eq m1 m2)
  | Lt => Gt
  | Gt => Lt
  end = Lt <-> e2 < e1 \/ (e1 = e2 /\ Z.pos m2 < Z.pos m1).
Proof.
  change (Pos.compare_cont Eq m1 m2) with (Pos.compare m1 m2).
  destruct (Z.compare_spec e1 e2); destruct (Pos.compare_spec m1 m2);
    simpl; split; intros; try lia; try discriminate; reflexivity.
Qed.

Lemma f32_lt_rank (x y : float32) :
  is_nan x = false -> is_nan y = false ->
  f32_lt x y = true <-> lex_lt (f32_rank x) (f32_rank y).
Proof.
  intros Hx Hy.
  assert (Hlt : f32_lt x y = true <-> SFcompare x y = Some Lt).
  { unfold f32_lt, SFltb.
    destruct (SFcompare x y) as [[]|]; split; congruence. }
  rewrite Hlt. clear Hlt.
  destruct x as [sx|sx| |sx mx ex]; try discriminate;
  destruct y as [sy|sy| |sy my ey]; try discriminate;
  try destruct sx; try destruct sy; cbn [SFcompare f32_rank lex_lt];
  try (split; intros H; [discriminate H || lia | lia || reflexivity]).
  - pose proof (SFcompare_finite_neg mx my ex ey) as H.
    split; intros H'.
    + injection H' as H'. apply H in H'. lia.
    + f_equal. apply H. lia.
  - pose proof (SFcompare_finite_pos mx my ex ey) as H.
    split; intros H'.
    + injection H' as H'. apply H in H'. lia.
    + f_equal. apply H. lia.
Qed.

Lemma f32_lt_nan_l (x y : float32) : is_nan x = true -> f32_lt x y = false.
Proof. by destruct x. Qed.

Lemma f32_lt_nan_r (x y : float32) : is_nan y = true -> f32_lt x y = false.
Proof. by destruct x, y. Qed.

Lemma f32_lt_asym (x y : float32) : f32_lt x y = true -> f32_lt y x = false.
Proof.
  intros H.
  destruct (is_nan x) eqn:Hx; [by rewrite f32_lt_nan_l in H|].
  destruct (is_nan y) eqn:Hy; [by rewrite f32_lt_nan_r in H|].
  apply (f32_lt_rank x y Hx Hy) in H.
  apply not_true_is_false. intros H'. apply (f32_lt_rank y x Hy Hx) in H'.
  unfold lex_lt in *.
  destruct (f32_rank x) as [[a b] c], (f32_rank y) as [[a' b'] c']. lia.
Qed.

(** Without NaN, "not greater" is transitive. *)
Lemma f32_not_gt_trans (x y z : float32) :
  is_nan x = false -> is_nan y = false -> is_nan z = false ->
  f32_lt y x = false -> f32_lt z y = false -> f32_lt z x = false.
Proof.
  intros Hx Hy Hz H1 H2.
  apply not_true_iff_false in H1, H2. apply not_true_iff_false.
  rewrite f32_lt_rank in * by done.
  unfold lex_lt in *.
  destruct (f32_rank x) as [[a b] c], (f32_rank y) as [[a' b'] c'],
    (f32_rank z) as [[a'' b''] c'']. lia.
Qed.

Lemma f32_lt_le_trans (x y z : float32) :
  is_nan x = false -> is_nan y = false -> is_nan z = false ->
  f32_lt y x = false -> f32_lt y z = true -> f32_lt x z = true.
Proof.
  intros Hx Hy Hz H1 H2.
  apply not_true_iff_false in H1.
  rewrite f32_lt_rank in * by done.
  unfold lex_lt in *.
  destruct (f32_rank x) as [[a b] c], (f32_rank y) as [[a' b'] c'],
    (f32_rank z) as [[a'' b''] c'']. lia.
Qed.

Lemma f32_le_lt_trans (x y z : float32) :
  is_nan x = false -> is_nan y = false -> is_nan z = false ->
  f32_lt x y = true -> f32_lt z y = false -> f32_lt x z = true.
Proof.
  intros Hx Hy Hz H1 H2.
  apply not_true_iff_false in H2.
  rewrite f32_lt_rank in * by done.
  unfold lex_lt in *.
  destruct (f32_rank x) as [[a b] c], (f32_rank y) as [[a' b'] c'],
    (f32_rank z) as [[a'' b''] c'']. lia.
Qed.

Lemma f32_le_not_gt (x y : float32) :
  is_nan x = false -> is_nan y = false ->
  f32_le x y = true <-> f32_lt y x = false.
Proof.
  intros Hx Hy. unfold f32_le, f32_lt, SFleb, SFltb.
  destruct x as [sx|sx| |sx mx ex]; try discriminate;
  destruct y as [sy|sy| |sy my ey]; try discriminate;
  try destruct sx; try destruct sy; cbn [SFcompare]; try done.
  - change (Pos.compare_cont Eq mx my) with (Pos.compare mx my).
    change (Pos.compare_cont Eq my mx) with (Pos.compare my mx).
    rewrite (Z.compare_antisym ex ey), (Pos.compare_antisym mx my).
    destruct (ex ?= ey), (mx ?= my)%positive; simpl; done.
  - change (Pos.compare_cont Eq mx my) with (Pos.compare mx my).
    change (Pos.compare_cont Eq my mx) with (Pos.compare my mx).
    rewrite (Z.compare_antisym ex ey), (Pos.compare_antisym mx my).
    destruct (ex ?= ey), (mx ?= my)%positive; simpl; done.
Qed.

Lemma f32_eq_not_lt (x y v : float32) :
  f32_eq x v = true -> f32_eq y v = true -> f32_lt x y = false.
Proof.
  intros Hx Hy.
  assert (is_nan x = false) by (by destruct x).
  assert (is_nan y = false) by (by destruct y).
  assert (is_nan v = false) by (by destruct x, v).
  assert (Hc : forall a b, is_nan a = false -> is_nan b = false ->
     f32_eq a b = true -> f32_rank a = f32_rank b).
  { clear. intros a b Ha Hb. unfold f32_eq, SFeqb.
    destruct a as [sx|sx| |sx mx ex]; try discriminate;
    destruct b as [sy|sy| |sy my ey]; try discriminate;
    try destruct sx; try destruct sy; cbn [SFcompare f32_rank]; try done.
    - change (Pos.compare_cont Eq mx my) with (Pos.compare mx my).
      destruct (Z.compare_spec ex ey); try done.
      destruct (Pos.compare_spec mx my); try done. by subst.
    - change (Pos.compare_cont Eq mx my) with (Pos.compare mx my).
      destruct (Z.compare_spec ex ey); try done.
      destruct (Pos.compare_spec mx my); try done. by subst. }
  apply Hc in Hx, Hy; try done.
  apply not_true_iff_false. rewrite f32_lt_rank by done.
  rewrite Hx, Hy. unfold lex_lt. destruct (f32_rank v) as [[a b] c]. lia.
Qed.

(** ** The comparator *)

Lemma wrap32_small (z : Z) : INT_MIN <= z <= INT_MAX -> wrap32 z = z.
Proof.
  unfold wrap32, INT_MIN, INT_MAX. intros H.
  change (2 ^ 31) with 2147483648 in *. change (2 ^ 32) with 4294967296.
  rewrite Z.mod_small; lia.
Qed.

Lemma wrap32_opp_pos (z : Z) : 0 < wrap32 z -> wrap32 (- z) < 0.
Proof.
  unfold wrap32.
  change (2 ^ 31) with 2147483648. change (2 ^ 32) with 4294967296.
  intros H.
  pose proof (Z.div_mod (z + 2147483648) 4294967296 ltac:(lia)).
  pose proof (Z.mod_pos_bound (z + 2147483648) 4294967296 ltac:(lia)).
  replace (- z + 2147483648) with
    ((4294967296 - (z + 2147483648) mod 4294967296) +
     (- ((z + 2147483648) / 4294967296)) * 4294967296) by lia.
  rewrite Z.mod_add by lia. rewrite Z.mod_small; lia.
Qed.

Lemma cmp_students_asym (key : SortKey) (a b : Student) :
  0 < cmp_students a b key -> cmp_students b a key <= 0.
Proof.
  destruct key; simpl.
  - intros H. apply wrap32_opp_pos in H.
    replace (id b - id a) with (- (id a - id b)) by lia. lia.
  - unfold f32_gt, f32_lt.
    destruct (SFltb (average a) (average b)) eqn:E1; [lia|].
    destruct (SFltb (average b) (average a)) eqn:E2; lia.
Qed.

Lemma key_le_refl (key : SortKey) (a : Student) : key_le key a a.
Proof.
  unfold key_le. destruct (Z.lt_ge_cases 0 (cmp_students a a key)) as [H|H]; [|lia].
  by apply cmp_students_asym.
Qed.

Lemma key_le_total (key : SortKey) (a b : Student) :
  key_le key a b \/ key_le key b a.
Proof.
  unfold key_le. destruct (Z.lt_ge_cases 0 (cmp_students a b key)) as [H|H]; [|lia].
  right. by apply cmp_students_asym.
Qed.

(** ** The loops of [bubble_sort] *)

Lemma swap_students_adjacent (pre rest : list Student) (a b : Student) :
  swap_students (pre ++ a :: b :: rest) (length pre) (length pre + 1) =
    pre ++ b :: a :: rest.
Proof.
  unfold swap_students.
  rewrite at_index_middle, at_index_app_r.
  change (at_index (a :: b :: rest) 1) with b.
  rewrite insert_middle, insert_app_r. done.
Qed.

Lemma bubble_inner_pass (key : SortKey) (n : nat) (pre rest : list Student)
    (a : Student) (swapped : bool) :
  (n <= length rest)%nat ->
  bubble_inner key n (length pre) (pre ++ a :: rest) swapped =
    (pre ++ fst (bubble_pass key n a rest),
     swapped || snd (bubble_pass key n a rest)).
Proof.
  revert pre rest a swapped.
  induction n as [|n IH]; intros pre rest a swapped Hn.
  - simpl. by rewrite orb_false_r.
  - destruct rest as [|b rest]; [simpl in Hn; lia|].
    cbn [bubble_inner bubble_pass].
    rewrite at_index_middle, at_index_app_r.
    change (at_index (a :: b :: rest) 1) with b.
    destruct (0 <? cmp_students a b key) eqn:Hc.
    + rewrite swap_students_adjacent.
      specialize (IH (pre ++ [b]) rest a true).
      rewrite length_app, <- app_assoc in IH. simpl in IH.
      rewrite IH by (simpl in Hn; lia).
      simpl. rewrite <- app_assoc, orb_true_r. done.
    + specialize (IH (pre ++ [a]) rest b swapped).
      rewrite length_app, <- app_assoc in IH. simpl in IH.
      rewrite IH by (simpl in Hn; lia).
      simpl. rewrite <- app_assoc. done.
Qed.

Lemma bubble_pass_perm (key : SortKey) (n : nat) (a : Student)
    (rest : list Student) :
  fst (bubble_pass key n a rest) ≡ₚ a :: rest.
Proof.
  revert a rest. induction n as [|n IH]; intros a rest; [done|].
  destruct rest as [|b rest]; [done|]. simpl.
  destruct (0 <? cmp_students a b key); simpl.
  - rewrite IH. apply perm_swap.
  - by rewrite IH.
Qed.

(** A pass that swapped nothing changed nothing. *)
Lemma bubble_pass_unswapped (key : SortKey) (n : nat) (a : Student)
    (rest : list Student) :
  snd (bubble_pass key n a rest) = false ->
  fst (bubble_pass key n a rest) = a :: rest.
Proof.
  revert a rest. induction n as [|n IH]; intros a rest; [done|].
  destruct rest as [|b rest]; [done|]. simpl.
  destruct (0 <? cmp_students a b key); simpl; [done|].
  intros H. by rewrite IH.
Qed.

Lemma bubble_outer_perm (key : SortKey) (n i : nat) (l : list Student) :
  bubble_outer key n i l ≡ₚ l.
Proof.
  revert i l. induction n as [|n IH]; intros i l; [done|].
  cbn [bubble_outer].
  destruct l as [|a rest].
  { simpl. destruct (bubble_inner key 0 0 [] false) eqn:E.
    simpl in E. by injection E as <- <-. }
  pose proof (bubble_inner_pass key (length (a :: rest) - 1 - i) [] rest a false) as H.
  simpl in H. simpl. rewrite H by lia.
  destruct (snd (bubble_pass key (length rest - 0 - i) a rest)); simpl.
  - rewrite IH. apply bubble_pass_perm.
  - apply bubble_pass_perm.
Qed.

Lemma bubble_sort_perm (key : SortKey) (l : list Student) :
  bubble_sort key l ≡ₚ l.
Proof. apply bubble_outer_perm. Qed.

(** ** The loops of [insertion_sort] *)

(** The [while] loop running down from the hole at the end of [pre], then the
    store of the key. *)
Lemma insertion_while_insert (key : SortKey) (k h : Student)
    (pre suf : list Student) :
  let r := insertion_while key k (length pre) (pre ++ h :: suf) in
  <[snd r := k]> (fst r) = rev (insert_rev key k (rev pre)) ++ suf.
Proof.
  revert h suf. induction pre as [|x pre IH] using rev_ind; intros h suf.
  - done.
  - rewrite length_app. simpl.
    replace (length pre + 1)%nat with (S (length pre)) by lia.
    cbn [insertion_while].
    rewrite <- app_assoc. simpl.
    rewrite at_index_middle, rev_unit. simpl.
    destruct (0 <? cmp_students x k key) eqn:Hc.
    + replace (pre ++ x :: h :: suf) with ((pre ++ [x]) ++ h :: suf)
        by (by rewrite <- app_assoc).
      replace (S (length pre)) with (length (pre ++ [x]))
        by (rewrite length_app; simpl; lia).
      rewrite insert_middle, <- app_assoc. simpl.
      rewrite (IH x (x :: suf)). by rewrite <- app_assoc.
    + simpl.
      replace (pre ++ x :: h :: suf) with ((pre ++ [x]) ++ h :: suf)
        by (by rewrite <- app_assoc).
      replace (S (length pre)) with (length (pre ++ [x]))
        by (rewrite length_app; simpl; lia).
      rewrite insert_middle. rewrite rev_involutive.
      by rewrite <- !app_assoc.
Qed.

Lemma insertion_outer_from (key : SortKey) (pre suf : list Student) :
  insertion_outer key (length suf) (length pre) (pre ++ suf) =
    insertion_from key (rev pre) suf.
Proof.
  revert pre. induction suf as [|k suf IH]; intros pre.
  - simpl. by rewrite app_nil_r, rev_involutive.
  - cbn [length insertion_outer insertion_from].
    rewrite at_index_middle.
    pose proof (insertion_while_insert key k k pre suf) as H. simpl in H.
    destruct (insertion_while key k (length pre) (pre ++ k :: suf)) as [l' j1].
    simpl in H. rewrite H.
    specialize (IH (rev (insert_rev key k (rev pre)))).
    rewrite rev_involutive in IH. rewrite <- IH. f_equal.
    assert (Hlen : forall rp, length (insert_rev key k rp) = S (length rp)).
    { clear. induction rp as [|x rp IH]; [done|]. simpl.
      destruct (0 <? cmp_students x k key); simpl; by rewrite ?IH. }
    rewrite length_rev, Hlen, length_rev. lia.
Qed.

Lemma insertion_sort_from (key : SortKey) (a : Student) (rest : list Student) :
  insertion_sort key (a :: rest) = insertion_from key [a] rest.
Proof.
  unfold insertion_sort. simpl.
  replace (length rest - 0)%nat with (length rest) by lia.
  apply (insertion_outer_from key [a] rest).
Qed.

Lemma insert_rev_perm (key : SortKey) (k : Student) (rp : list Student) :
  insert_rev key k rp ≡ₚ k :: rp.
Proof.
  induction rp as [|x rp IH]; [done|]. simpl.
  destruct (0 <? cmp_students x k key); [|done].
  rewrite IH. apply perm_swap.
Qed.

Lemma insertion_from_perm (key : SortKey) (rp suf : list Student) :
  insertion_from key rp suf ≡ₚ rp ++ suf.
Proof.
  revert rp. induction suf as [|k suf IH]; intros rp; simpl.
  - by rewrite app_nil_r, <- Permutation_rev.
  - rewrite IH, insert_rev_perm. simpl. apply Permutation_middle.
Qed.

Lemma insertion_sort_perm (key : SortKey) (l : list Student) :
  insertion_sort key l ≡ₚ l.
Proof.
  destruct l as [|a rest]; [done|].
  rewrite insertion_sort_from. apply (insertion_from_perm key [a] rest).
Qed.

(** ** The loops of [merge_range] *)

Lemma merge_lists_nil_l (key : SortKey) (R : list Student) :
  merge_lists key [] R = R.
Proof. by destruct R. Qed.

Lemma merge_lists_nil_r (key : SortKey) (L : list Student) :
  merge_lists key L [] = L.
Proof. by destruct L. Qed.

Lemma merge_lists_cons (key : SortKey) (a b : Student) (L R : list Student) :
  merge_lists key (a :: L) (b :: R) =
    if cmp_students a b key <=? 0 then a :: merge_lists key L (b :: R)
    else b :: merge_lists key (a :: L) R.
Proof. done. Qed.

Lemma merge_rest_done (n : nat) (B : list Student) (i k : nat)
    (l : list Student) :
  (length B <= i)%nat -> merge_rest n B i k l = (k, l).
Proof.
  intros H. destruct n; [done|]. simpl.
  destruct (Nat.ltb_spec i (length B)); [lia|done].
Qed.

Lemma merge_rest_copy (n : nat) (B : list Student) (i : nat)
    (written junk suf : list Student) :
  (i <= length B)%nat -> (length junk = length B - i)%nat ->
  (length B - i <= n)%nat ->
  merge_rest n B i (length written) (written ++ junk ++ suf) =
    ((length written + (length B - i))%nat, written ++ drop i B ++ suf).
Proof.
  revert i written junk.
  induction n as [|n IH]; intros i written junk Hi Hj Hn.
  - assert (length junk = 0%nat) as ->%nil_length_inv by lia.
    rewrite drop_ge by lia. simpl. f_equal. lia.
  - simpl. destruct (Nat.ltb_spec i (length B)) as [Hlt|Hge].
    + destruct junk as [|h junk]; [simpl in Hj; lia|].
      destruct (lookup_lt_is_Some_2 B i Hlt) as [x Hx].
      rewrite (at_index_lookup _ _ _ Hx).
      simpl. rewrite insert_middle.
      specialize (IH (i + 1)%nat (written ++ [x]) junk).
      rewrite length_app, <- app_assoc in IH. simpl in IH.
      rewrite IH by (simpl in Hj; lia).
      rewrite (drop_S B x i Hx).
      replace (S i) with (i + 1)%nat by lia. simpl.
      f_equal; [lia|by rewrite <- app_assoc].
    + assert (length junk = 0%nat) as ->%nil_length_inv by lia.
      rewrite drop_ge by lia. simpl. f_equal. lia.
Qed.

(** The three loops together write the merge of what is left of the two
    buffers. *)
Lemma merge_loops (key : SortKey) (L R : list Student) (n i j : nat)
    (written junk suf : list Student) :
  (i <= length L)%nat -> (j <= length R)%nat ->
  (length junk = (length L - i) + (length R - j))%nat ->
  ((length L - i) + (length R - j) <= n)%nat ->
  let '(i', j', k', s1) :=
    merge_both key n L R i j (length written) (written ++ junk ++ suf) in
  let '(k'', s2) := merge_rest (length L) L i' k' s1 in
  let '(_, s3) := merge_rest (length R) R j' k'' s2 in
  s3 = written ++ merge_lists key (drop i L) (drop j R) ++ suf.
Proof.
  revert i j written junk.
  induction n as [|n IH]; intros i j written junk Hi Hj Hjunk Hn.
  - assert (length junk = 0%nat) as ->%nil_length_inv by lia.
    simpl. rewrite !merge_rest_done by lia.
    rewrite !drop_ge by lia. done.
  - cbn [merge_both].
    destruct (Nat.ltb_spec i (length L)) as [Hil|Hil];
      [destruct (Nat.ltb_spec j (length R)) as [Hjr|Hjr]|]; cbn [andb].
    + destruct (lookup_lt_is_Some_2 L i Hil) as [a Ha].
      destruct (lookup_lt_is_Some_2 R j Hjr) as [b Hb].
      rewrite (at_index_lookup _ _ _ Ha), (at_index_lookup _ _ _ Hb).
      rewrite (drop_S L a i Ha), (drop_S R b j Hb), merge_lists_cons.
      destruct junk as [|h junk]; [simpl in Hjunk; lia|].
      change ((h :: junk) ++ suf) with (h :: junk ++ suf).
      rewrite !insert_middle.
      destruct (cmp_students a b key <=? 0).
      * specialize (IH (i + 1)%nat j (written ++ [a]) junk).
        rewrite length_app, <- app_assoc in IH. simpl in IH.
        specialize (IH ltac:(lia) ltac:(lia) ltac:(simpl in Hjunk; lia) ltac:(lia)).
        rewrite (drop_S R b j Hb) in IH.
        replace (i + 1)%nat with (S i) in IH by lia.
        replace (i + 1)%nat with (S i) by lia.
        rewrite <- app_assoc in IH. exact IH.
      * specialize (IH i (j + 1)%nat (written ++ [b]) junk).
        rewrite length_app, <- app_assoc in IH. simpl in IH.
        specialize (IH ltac:(lia) ltac:(lia) ltac:(simpl in Hjunk; lia) ltac:(lia)).
        rewrite (drop_S L a i Ha) in IH.
        replace (j + 1)%nat with (S j) in IH by lia.
        replace (j + 1)%nat with (S j) by lia.
        rewrite <- app_assoc in IH. exact IH.
    + rewrite (merge_rest_copy (length L) L i written junk suf) by lia.
      rewrite merge_rest_done by lia.
      rewrite (drop_ge R j) by lia. by rewrite merge_lists_nil_r.
    + rewrite merge_rest_done by lia.
      rewrite (merge_rest_copy (length R) R j written junk suf) by lia.
      rewrite (drop_ge L i) by lia. by rewrite merge_lists_nil_l.
Qed.

Lemma merge_range_lists (key : SortKey) (pre L R suf : list Student) :
  (1 <= length L)%nat ->
  merge_range (length pre) (length pre + length L - 1)
    (length pre + length L - 1 + length R) key (pre ++ L ++ R ++ suf) =
    pre ++ merge_lists key L R ++ suf.
Proof.
  intros HL. unfold merge_range.
  replace (length pre + length L - 1 - length pre + 1)%nat with (length L) by lia.
  replace (length pre + length L - 1 + length R - (length pre + length L - 1))%nat
    with (length R) by lia.
  replace (length pre + length L - 1 + 1)%nat with (length (pre ++ L))
    by (rewrite length_app; lia).
  rewrite drop_app_length, take_app_length.
  rewrite (app_assoc pre L), drop_app_length, take_app_length.
  rewrite <- (app_assoc pre L).
  pose proof (merge_loops key L R (length L + length R) 0 0 pre (L ++ R) suf
    ltac:(lia) ltac:(lia)) as H.
  rewrite length_app, <- app_assoc in H.
  specialize (H ltac:(lia) ltac:(lia)).
  destruct (merge_both key (length L + length R) L R 0 0 (length pre)
    (pre ++ L ++ R ++ suf)) as [[[i' j'] k'] s1].
  destruct (merge_rest (length L) L i' k' s1) as [k'' s2].
  destruct (merge_rest (length R) R j' k'' s2) as [k3 s3].
  by rewrite H.
Qed.

Lemma merge_lists_perm (key : SortKey) (L R : list Student) :
  merge_lists key L R ≡ₚ L ++ R.
Proof.
  revert R. induction L as [|a L IHL]; intros R.
  - by rewrite merge_lists_nil_l.
  - induction R as [|b R IHR].
    + by rewrite merge_lists_nil_r, app_nil_r.
    + rewrite merge_lists_cons. destruct (cmp_students a b key <=? 0).
      * by rewrite IHL.
      * rewrite IHR. apply Permutation_middle.
Qed.

Lemma merge_sort_list_perm (key : SortKey) (fuel : nat) (seg : list Student) :
  merge_sort_list key fuel seg ≡ₚ seg.
Proof.
  revert seg. induction fuel as [|fuel IH]; intros seg; simpl.
  - by destruct (length seg <=? 1)%nat.
  - destruct (length seg <=? 1)%nat; [done|].
    rewrite merge_lists_perm, !IH. by rewrite take_drop.
Qed.

(** [merge_sort_recursive] sorts the segment [left .. right] in place. *)
Lemma merge_sort_fuel_list (key : SortKey) (fuel : nat)
    (pre seg suf : list Student) :
  (1 <= length seg)%nat ->
  merge_sort_fuel fuel (length pre) (length pre + length seg - 1) key
    (pre ++ seg ++ suf) = pre ++ merge_sort_list key fuel seg ++ suf.
Proof.
  revert pre seg suf.
  induction fuel as [|fuel IH]; intros pre seg suf Hseg.
  - simpl. destruct (_ <=? _)%nat, (_ <=? _)%nat; done.
  - cbn [merge_sort_fuel merge_sort_list].
    destruct (Nat.leb_spec (length pre + length seg - 1) (length pre)) as [H1|H1];
      destruct (Nat.leb_spec (length seg) 1) as [H2|H2]; try lia; [done|].
    replace (length pre + length seg - 1 - length pre)%nat
      with (length seg - 1)%nat by lia.
    pose proof (Nat.Div0.mul_div_le (length seg - 1) 2) as Hq.
    set (q := ((length seg - 1) / 2)%nat) in *.
    set (A := merge_sort_list key fuel (take (q + 1) seg)).
    set (B := merge_sort_list key fuel (drop (q + 1) seg)).
    assert (HA : length A = (q + 1)%nat).
    { unfold A. rewrite (Permutation_length (merge_sort_list_perm _ _ _)).
      rewrite length_take. lia. }
    assert (HB : length B = (length seg - (q + 1))%nat).
    { unfold B. rewrite (Permutation_length (merge_sort_list_perm _ _ _)).
      apply length_drop. }
    assert (E1 : merge_sort_fuel fuel (length pre) (length pre + q) key
                   (pre ++ seg ++ suf) = pre ++ A ++ drop (q + 1) seg ++ suf).
    { pose proof (IH pre (take (q + 1) seg) (drop (q + 1) seg ++ suf)) as IH1.
      rewrite length_take in IH1.
      replace (length pre + (q + 1) `min` length seg - 1)%nat
        with (length pre + q)%nat in IH1 by lia.
      rewrite (app_assoc (take _ _)), take_drop in IH1. apply IH1. lia. }
    assert (E2 : merge_sort_fuel fuel (length pre + q + 1)
                   (length pre + length seg - 1) key
                   (pre ++ A ++ drop (q + 1) seg ++ suf) = pre ++ A ++ B ++ suf).
    { pose proof (IH (pre ++ A) (drop (q + 1) seg) suf) as IH2.
      rewrite length_app, length_drop, HA in IH2.
      replace (length pre + (q + 1) + (length seg - (q + 1)) - 1)%nat
        with (length pre + length seg - 1)%nat in IH2 by lia.
      replace (length pre + (q + 1))%nat with (length pre + q + 1)%nat in IH2 by lia.
      rewrite <- !app_assoc in IH2. apply IH2. lia. }
    rewrite E1, E2.
    pose proof (merge_range_lists key pre A B suf) as HM.
    rewrite HA, HB in HM.
    replace (length pre + (q + 1) - 1)%nat with (length pre + q)%nat in HM by lia.
    replace (length pre + q + (length seg - (q + 1)))%nat
      with (length pre + length seg - 1)%nat in HM by lia.
    apply HM. lia.
Qed.

Lemma merge_sort_recursive_list (key : SortKey) (l : list Student) :
  (1 <= length l)%nat ->
  merge_sort_recursive 0 (length l - 1) key l =
    merge_sort_list key (length l - 1) l.
Proof.
  intros H. unfold merge_sort_recursive.
  pose proof (merge_sort_fuel_list key (length l - 1 - 0) [] l [] H) as H'.
  simpl in H'. rewrite !app_nil_r in H'. rewrite Nat.sub_0_r in H' |- *.
  exact H'.
Qed.

(** ** [sort_students] permutes the store *)

Lemma sort_students_perm (method : SortMethod) (key : SortKey)
    (l : list Student) :
  sort_students method key l ≡ₚ l.
Proof.
  unfold sort_students.
  destruct (Nat.leb_spec (length l) 1); [done|].
  destruct method.
  - apply bubble_sort_perm.
  - apply insertion_sort_perm.
  - rewrite merge_sort_recursive_list by lia. apply merge_sort_list_perm.
Qed.

(** C10: [sort_students] permutes the store, whatever the method and key: the
    sorted store holds the same records, each as it was, as many times; the
    count is unchanged, and ids that were pairwise distinct remain so. *)
Theorem sort_students_permutation (method : SortMethod) (key : SortKey)
    (students : list Student) :
  sort_students method key students ≡ₚ students /\
  (forall s, s ∈ sort_students method key students <-> s ∈ students) /\
  students_count (sort_students method key students) = students_count students /\
  (NoDup (id <$> students) ->
   NoDup (id <$> sort_students method key students)).
Proof.
  pose proof (sort_students_perm method key students) as Hp.
  split; [done|]. split; [|split].
  - intros s. by rewrite Hp.
  - unfold students_count. by rewrite Hp.
  - by rewrite Hp.
Qed.

Lemma sort_students_permutation_witness :
  NoDup (id <$> sort_students MERGE SORT_BY_ID
                  [mkStudent 5 "E" [] f32_zero; mkStudent 3 "C" [] f32_zero;
                   mkStudent 1 "A" [] f32_zero]).
Proof.
  apply (sort_students_permutation MERGE SORT_BY_ID
           [mkStudent 5 "E" [] f32_zero; mkStudent 3 "C" [] f32_zero;
            mkStudent 1 "A" [] f32_zero]).
  simpl. repeat constructor; rewrite ?elem_of_cons, ?elem_of_nil; lia.
Defined.

(** ** Invariants of the store *)

Lemma add_student_NoDup (t : Z) (nm : option string) (l : list Student) :
  NoDup (id <$> l) -> NoDup (id <$> snd (add_student t nm l)).
Proof.
  intros Hnd. destruct (decide (t ∈ id <$> l)) as [Hin|Hn].
  - by rewrite add_student_duplicate.
  - rewrite add_student_fresh by done. simpl.
    rewrite fmap_app. apply NoDup_app. split; [done|]. split.
    + intros x Hx Hx'. simpl in Hx'. apply list_elem_of_singleton in Hx'.
      by subst.
    + simpl. apply NoDup_singleton.
Qed.

Lemma add_students_NoDup (calls : list (Z * option string)) (l : list Student) :
  NoDup (id <$> l) -> NoDup (id <$> add_students calls l).
Proof.
  revert l. induction calls as [|c calls IH]; intros l Hnd; [done|].
  simpl. apply IH. by apply add_student_NoDup.
Qed.

Lemma reachable_invariant (st : list Student) :
  reachable st -> NoDup (id <$> st) /\ Forall average_consistent st.
Proof.
  induction 1 as [|t nm st Hr _ [Hnd Hav]|t st _ [Hnd Hav]|t nm st _ [Hnd Hav]
                 |t g st _ [Hnd Hav]|method key st _ [Hnd Hav]].
  - split; [apply NoDup_nil_2|apply Forall_nil_2].
  - split; [by apply add_student_NoDup|].
    destruct (decide (t ∈ id <$> st)) as [Hin|Hn].
    + by rewrite add_student_duplicate.
    + rewrite add_student_fresh by done. simpl.
      apply Forall_app. split; [done|]. by apply Forall_singleton.
  - destruct (decide (t ∈ id <$> st)) as [Hin|Hn].
    + destruct (first_occurrence st t Hin) as (l1 & s & l2 & -> & <- & Hn).
      rewrite delete_student_present by done. simpl.
      rewrite fmap_app, fmap_cons in Hnd.
      apply NoDup_app in Hnd as (Hn1 & Hd & Hn2).
      apply NoDup_cons in Hn2 as [Hs Hn2].
      apply Forall_app in Hav as [Ha1 Ha2]. apply Forall_cons in Ha2 as [_ Ha2].
      split.
      * rewrite fmap_app. apply NoDup_app. split; [done|]. split; [|done].
        intros x Hx Hx'. apply (Hd x Hx). by right.
      * by apply Forall_app.
    + by rewrite delete_student_absent.
  - destruct (decide (t ∈ id <$> st)) as [Hin|Hn].
    + destruct (first_occurrence st t Hin) as (l1 & s & l2 & -> & <- & Hn).
      rewrite update_student_name_present by done. simpl.
      split.
      * by rewrite fmap_app, fmap_cons in Hnd |- *.
      * apply Forall_app in Hav as [Ha1 Ha2]. apply Forall_cons in Ha2 as [Hs Ha2].
        apply Forall_app. split; [done|]. by apply Forall_cons.
    + by rewrite update_student_name_absent.
  - destruct (decide (t ∈ id <$> st)) as [Hin|Hn].
    + destruct (first_occurrence st t Hin) as (l1 & s & l2 & -> & <- & Hn).
      rewrite add_grade_to_student_present by done. simpl.
      destruct (graded_average s g) as (Havg & Hg & Hid & _).
      split.
      * rewrite fmap_app, fmap_cons in Hnd |- *. by rewrite Hid.
      * apply Forall_app in Hav as [Ha1 Ha2]. apply Forall_cons in Ha2 as [Hs Ha2].
        apply Forall_app. split; [done|]. apply Forall_cons. split; [|done].
        unfold average_consistent. by rewrite Havg, Hg.
    + by rewrite add_grade_to_student_absent.
  - pose proof (sort_students_perm method key st) as Hp.
    split; by rewrite Hp.
Qed.

Lemma reachable_add_grades (t : Z) (gs : list float32) (st : list Student) :
  reachable st -> reachable (add_grades t gs st).
Proof.
  revert st. induction gs as [|g gs IH]; intros st Hr; [done|].
  simpl. apply IH. by apply reach_grade.
Qed.

Lemma reachable_enroll (records : list (Z * string * list float32))
    (st : list Student) :
  Forall (fun r => int_range (fst (fst r))) records ->
  reachable st -> reachable (foldl enroll st records).
Proof.
  revert st. induction records as [|[[i nm] gs] records IH]; intros st Hi Hr;
    [done|].
  apply Forall_cons in Hi as [Hi0 Hi]. simpl in Hi0. simpl.
  apply IH; [done|]. apply reachable_add_grades. by apply reach_add.
Qed.

Lemma reachable_store_of (records : list (Z * string * list float32)) :
  Forall (fun r => int_range (fst (fst r))) records ->
  reachable (store_of records).
Proof. intros H. apply reachable_enroll; [done|apply reach_init]. Qed.

(** C1: in every reachable store the ids are pairwise distinct, and remain so
    after any sequence of [add_student] calls; [add_student] with an id that
    is present returns false and leaves the store as it was. *)
Theorem add_student_unique_ids (students : list Student) :
  reachable students ->
  NoDup (id <$> students) /\
  (forall calls, NoDup (id <$> add_students calls students)) /\
  (forall t nm, t ∈ id <$> students ->
     add_student t nm students = (false, students)).
Proof.
  intros Hr. destruct (reachable_invariant students Hr) as [Hnd _].
  split; [done|]. split.
  - intros calls. by apply add_students_NoDup.
  - intros t nm Hin. by apply add_student_duplicate.
Qed.

Lemma add_student_unique_ids_witness :
  add_student 1 (Some "C"%string) [mkStudent 1 "A" [] f32_zero] =
    (false, [mkStudent 1 "A" [] f32_zero]).
Proof.
  apply (add_student_unique_ids [mkStudent 1 "A" [] f32_zero]).
  - apply (reach_add 1 (Some "A"%string) []); [vm_compute; split; discriminate|].
    apply reach_init.
  - simpl. apply list_elem_of_singleton. reflexivity.
Defined.

(** ** Grades and averages *)

Lemma add_grade_to_student_false (t : Z) (g : float32) (l : list Student) :
  fst (add_grade_to_student t g l) = false <-> t ∉ id <$> l.
Proof.
  split.
  - intros Hf Hin.
    destruct (first_occurrence l t Hin) as (l1 & s & l2 & -> & <- & Hn).
    by rewrite add_grade_to_student_present in Hf.
  - intros Hn. by rewrite add_grade_to_student_absent.
Qed.

(** In a store with distinct ids, a record is the first one holding its id. *)
Lemma NoDup_split_at (l : list Student) (s : Student) :
  NoDup (id <$> l) -> s ∈ l ->
  exists l1 l2, l = l1 ++ s :: l2 /\ id s ∉ id <$> l1.
Proof.
  intros Hnd Hin.
  apply list_elem_of_split in Hin as (l1 & l2 & ->).
  exists l1, l2. split; [done|].
  rewrite fmap_app, fmap_cons in Hnd.
  apply NoDup_app in Hnd as (_ & Hd & _).
  intros Hin. apply (Hd _ Hin). by left.
Qed.

Lemma add_grades_present (gs : list float32) (l1 l2 : list Student)
    (s : Student) :
  id s ∉ id <$> l1 -> average_consistent s ->
  exists s',
    add_grades (id s) gs (l1 ++ s :: l2) = l1 ++ s' :: l2 /\
    id s' = id s /\ name s' = name s /\
    grades s' = grades s ++ gs /\
    average s' = arithmetic_mean (grades s ++ gs).
Proof.
  revert s. induction gs as [|g gs IH]; intros s Hn Hav.
  - exists s. rewrite app_nil_r. done.
  - simpl. rewrite add_grade_to_student_present by done. simpl.
    destruct (graded_average s g) as (Havg & Hg & Hid & Hnm).
    destruct (IH (graded s g)) as (s' & H1 & H2 & H3 & H4 & H5).
    + by rewrite Hid.
    + unfold average_consistent. by rewrite Havg, Hg.
    + exists s'. rewrite Hid in H1, H2. rewrite Hnm in H3.
      rewrite Hg, <- app_assoc in H4, H5. done.
Qed.

(** C2: in a reachable store, after any sequence of [add_grade_to_student]
    calls for the id of a record, that record, and no other, has changed: it
    holds the grades appended so far, in order, and its average is their
    arithmetic mean as [mean_of] words it, the sum of the grades divided by
    their count, in binary32 arithmetic.  When the grades are whole numbers
    whose absolute values add up to less than [2^24], no addition rounds,
    and the average is their exact total divided by their count, rounded
    once; when the count divides the total, it is the quotient itself.  The
    average is zero when a record has no grade; a call returns false exactly
    when the id is absent. *)
Theorem add_grade_average_is_mean (students : list Student) :
  reachable students ->
  (forall s gs, s ∈ students ->
     exists l1 l2 s',
       students = l1 ++ s :: l2 /\
       add_grades (id s) gs students = l1 ++ s' :: l2 /\
       id s' = id s /\ name s' = name s /\
       grades s' = grades s ++ gs /\
       mean_of (grades s') (average s') /\
       (forall zs,
          grades s' = f32_of_int <$> zs -> zs <> [] ->
          total (Z.abs <$> zs) < 2 ^ 24 ->
          average s' =
            f32_div (f32_of_int (total zs))
                    (f32_of_int (Z.of_nat (length zs))) /\
          (forall c,
             Z.of_nat (length zs) < 2 ^ 24 ->
             total zs = c * Z.of_nat (length zs) ->
             average s' = f32_of_int c))) /\
  (forall s, s ∈ students -> grades s = [] -> average s = f32_zero) /\
  (forall t g,
     fst (add_grade_to_student t g students) = false <-> t ∉ id <$> students).
Proof.
  intros Hr. destruct (reachable_invariant students Hr) as [Hnd Hav].
  rewrite Forall_forall in Hav.
  split; [|split].
  - intros s gs Hin.
    destruct (NoDup_split_at students s Hnd Hin) as (l1 & l2 & -> & Hn).
    destruct (add_grades_present gs l1 l2 s Hn (Hav s Hin))
      as (s' & Hadd & Hid & Hname & Hgr & Havg).
    assert (Hmean : mean_of (grades s') (average s')).
    { rewrite Havg, Hgr. apply arithmetic_mean_is_mean. }
    exists l1, l2, s'. do 6 (split; [done|]).
    intros zs Hzs Hne Hb. rewrite Hzs in Hmean.
    split; [by apply mean_of_whole|].
    intros c Hlen Hc. by apply (mean_of_whole_quotient zs).
  - intros s Hin Hg. rewrite (Hav s Hin), Hg. done.
  - intros t g. apply add_grade_to_student_false.
Qed.

Lemma add_grade_average_is_mean_witness :
  exists l1 l2 s',
    [mkStudent 1 "A" [] f32_zero] = l1 ++ mkStudent 1 "A" [] f32_zero :: l2 /\
    add_grades 1 [f32_of_int 80; f32_of_int 90]
      [mkStudent 1 "A" [] f32_zero] = l1 ++ s' :: l2 /\
    grades s' = [f32_of_int 80; f32_of_int 90] /\
    mean_of (grades s') (average s') /\
    average s' = f32_div (f32_of_int (80 + 90)) (f32_of_int 2) /\
    average s' = f32_of_int 85.
Proof.
  assert (Hr : reachable [mkStudent 1 "A" [] f32_zero]).
  { apply (reach_add 1 (Some "A"%string) []);
      [vm_compute; split; discriminate|apply reach_init]. }
  assert (Hin : mkStudent 1 "A" [] f32_zero ∈ [mkStudent 1 "A" [] f32_zero]).
  { apply list_elem_of_singleton. reflexivity. }
  destruct (proj1 (add_grade_average_is_mean [mkStudent 1 "A" [] f32_zero] Hr)
              (mkStudent 1 "A" [] f32_zero) [f32_of_int 80; f32_of_int 90] Hin)
    as (l1 & l2 & s' & H1 & H2 & _ & _ & H5 & H6 & H7).
  exists l1, l2, s'. repeat split; try done.
  - apply (H7 [80; 90]); [done|done|reflexivity].
  - apply (proj2 (H7 [80; 90] H5 ltac:(done) eq_refl) 85); reflexivity.
Defined.

(** The scenario of the specification: after grades 80 and 90 the average
    is 85. *)
Example average_80_90 :
  arithmetic_mean [f32_of_int 80; f32_of_int 90] = f32_of_int 85.
Proof. reflexivity. Qed.

(** ** Records in order

    [Sorted (key_le key)] says that no record is greater than the next one;
    [StronglySorted (key_le key)] that no record is greater than any later
    one. *)

Section SortedOutput.
Variable key : SortKey.

Lemma not_gt_key_le (a b : Student) :
  (0 <? cmp_students a b key) = false -> key_le key a b.
Proof. unfold key_le. intros H. apply Z.ltb_ge in H. lia. Qed.

Lemma gt_key_le (a b : Student) :
  (0 <? cmp_students a b key) = true -> key_le key b a.
Proof. intros H. apply Z.ltb_lt in H. by apply cmp_students_asym. Qed.

(** *** Bubble sort on a store in order *)

Lemma bubble_pass_app (n : nat) (a : Student) (r1 r2 : list Student) :
  (n <= length r1)%nat ->
  bubble_pass key n a (r1 ++ r2) =
    (fst (bubble_pass key n a r1) ++ r2, snd (bubble_pass key n a r1)).
Proof.
  revert a r1. induction n as [|n IH]; intros a r1 Hn; [done|].
  destruct r1 as [|b r1]; [simpl in Hn; lia|].
  simpl in Hn. simpl.
  destruct (0 <? cmp_students a b key); rewrite IH by lia; done.
Qed.

Lemma bubble_pass_unswapped_Sorted (a : Student) (r1 : list Student) :
  snd (bubble_pass key (length r1) a r1) = false ->
  Sorted (key_le key) (a :: r1).
Proof.
  revert a. induction r1 as [|b r1 IH]; intros a.
  - intros _. repeat constructor.
  - simpl. destruct (0 <? cmp_students a b key) eqn:Hc; simpl; [done|].
    intros H. constructor; [by apply IH|].
    constructor. by apply not_gt_key_le.
Qed.

Lemma bubble_pass_Sorted (n : nat) (a : Student) (rest : list Student) :
  Sorted (key_le key) (a :: rest) ->
  bubble_pass key n a rest = (a :: rest, false).
Proof.
  revert a rest. induction n as [|n IH]; intros a rest Hs; [done|].
  destruct rest as [|b rest]; [done|].
  apply Sorted_inv in Hs as [Hs Hhd]. apply HdRel_inv in Hhd.
  simpl. destruct (Z.ltb_spec 0 (cmp_students a b key)) as [Hc|Hc].
  - unfold key_le in Hhd. lia.
  - by rewrite IH.
Qed.

Lemma bubble_outer_first_pass (n i : nat) (a : Student) (rest : list Student) :
  bubble_outer key (S n) i (a :: rest) =
    let r := bubble_pass key (length rest - i) a rest in
    if negb (snd r) then fst r else bubble_outer key n (i + 1) (fst r).
Proof.
  cbn [bubble_outer].
  pose proof (bubble_inner_pass key (length (a :: rest) - 1 - i) [] rest a false) as H.
  simpl in H. simpl. rewrite Nat.sub_0_r in *. rewrite H by lia. done.
Qed.

Lemma bubble_sort_Sorted_id (l : list Student) :
  Sorted (key_le key) l -> bubble_sort key l = l.
Proof.
  intros Hs. unfold bubble_sort.
  destruct l as [|a [|b rest]]; [done|done|].
  change (length (a :: b :: rest) - 1)%nat with (S (length rest)).
  rewrite bubble_outer_first_pass. cbn zeta.
  by rewrite bubble_pass_Sorted.
Qed.
End SortedOutput.

(** Where "not greater" is transitive on a set [D] of records, the two
    notions agree on the lists of records of [D]. *)
Section Transitive.
Variable key : SortKey.
Variable D : Student -> Prop.
Hypothesis key_le_trans : forall a b c,
  D a -> D b -> D c -> key_le key a b -> key_le key b c -> key_le key a c.

Lemma Sorted_StronglySorted_on (l : list Student) :
  Forall D l -> Sorted (key_le key) l -> StronglySorted (key_le key) l.
Proof.
  induction l as [|a l IH]; intros HD Hs; [constructor|].
  apply Forall_cons in HD as [Ha HD].
  apply Sorted_inv in Hs as [Hs Hhd].
  specialize (IH HD Hs). constructor; [done|].
  destruct l as [|b l]; [constructor|].
  apply HdRel_inv in Hhd.
  apply StronglySorted_inv in IH as [_ Hb].
  apply Forall_cons in HD as [Hb' HD].
  constructor; [done|].
  rewrite Forall_forall in Hb, HD |- *.
  intros x Hx. apply (key_le_trans a b x); auto.
Qed.
End Transitive.

(** ** Bubble sort: adjacent records end up in order, for any key

    Only the asymmetry of the comparison is used, so this holds by id with
    overflowing differences and by average with NaN averages as well. *)

Lemma Sorted_app_adjacent_2 (R : relation Student) (l1 l2 : list Student) :
  Sorted R l1 -> Sorted R l2 ->
  (forall u x y w, l1 = u ++ [x] -> l2 = y :: w -> R x y) ->
  Sorted R (l1 ++ l2).
Proof.
  intros H1 H2 H. induction l1 as [|a l1 IH]; [done|].
  apply Sorted_inv in H1 as [H1 Hhd]. simpl. constructor.
  - apply IH; [done|]. intros u x y w -> ->. by apply (H (a :: u) x y w).
  - destruct l1 as [|b l1].
    + simpl. destruct l2 as [|y w]; constructor. by apply (H [] a y w).
    + simpl. constructor. by apply HdRel_inv in Hhd.
Qed.

(** A full pass: what it leaves in front of the last record, and where the
    last record came from. *)
Lemma bubble_pass_carried (key : SortKey) (a : Student) (r1 : list Student) :
  exists front m u w,
    fst (bubble_pass key (length r1) a r1) = front ++ [m] /\
    carried_over key front m /\
    a :: r1 = u ++ m :: w /\
    Forall (fun x => 0 < cmp_students m x key) w.
Proof.
  revert a. induction r1 as [|b r1 IH]; intros a.
  - exists [], a, [], []. repeat split; try done.
    intros u y w Hu. by destruct u.
  - simpl. destruct (0 <? cmp_students a b key) eqn:Hc.
    + destruct (IH a) as (front & m & u & w & Hf & Hco & Hu & Hw).
      pose proof (bubble_pass_perm key (length r1) a r1) as Hp.
      rewrite Hf in Hp.
      exists (b :: front), m. simpl. rewrite Hf.
      destruct u as [|a' u]; simpl in Hu; injection Hu as <- Hu.
      * exists [], (b :: r1). subst w. repeat split; try done.
        -- intros u' y w' Hu'. destruct u' as [|b' u']; simpl in Hu';
             injection Hu' as <- Hu'.
           ++ subst w'. exists a. split; [by apply gt_key_le|by left].
           ++ destruct (Hco u' y w' Hu') as (c & Hyc & Hcw). by exists c.
        -- constructor; [by apply Z.ltb_lt|done].
      * exists (a :: b :: u), w. subst r1. repeat split; try done.
        intros u' y w' Hu'. destruct u' as [|b' u']; simpl in Hu';
          injection Hu' as <- Hu'.
        -- subst w'. exists a. split; [by apply gt_key_le|].
           assert (Ha : a ∈ front ++ [m]) by (rewrite Hp; by left).
           apply elem_of_app in Ha as [Ha|Ha]; [by right|left].
           by apply list_elem_of_singleton in Ha.
        -- destruct (Hco u' y w' Hu') as (c & Hyc & Hcw). by exists c.
    + destruct (IH b) as (front & m & u & w & Hf & Hco & Hu & Hw).
      pose proof (bubble_pass_perm key (length r1) b r1) as Hp.
      rewrite Hf in Hp.
      exists (a :: front), m, (a :: u), w. simpl. rewrite Hf, Hu.
      repeat split; try done.
      intros u' y w' Hu'. destruct u' as [|a' u']; simpl in Hu';
        injection Hu' as <- Hu'.
      * subst w'. exists b. split; [by apply not_gt_key_le|].
        assert (Hb : b ∈ front ++ [m]) by (rewrite Hp; by left).
        apply elem_of_app in Hb as [Hb|Hb]; [by right|left].
        by apply list_elem_of_singleton in Hb.
      * destruct (Hco u' y w' Hu') as (c & Hyc & Hcw). by exists c.
Qed.

Lemma bubble_outer_Sorted (key : SortKey) (n : nat) (front back : list Student) :
  length front = S n ->
  Sorted (key_le key) back ->
  (forall m back', back = m :: back' -> carried_over key front m) ->
  Sorted (key_le key) (bubble_outer key n (length back) (front ++ back)).
Proof.
  revert front back. induction n as [|n IH]; intros front back Hlen Hb Hco.
  - simpl. destruct front as [|y [|]]; try discriminate. simpl.
    constructor; [done|]. destruct back as [|m back']; constructor.
    destruct (Hco m back' eq_refl [] y [] eq_refl) as (c & Hyc & [->|Hc]);
      [done|by apply elem_of_nil in Hc].
  - destruct front as [|a r1]; [discriminate|]. simpl in Hlen.
    change ((a :: r1) ++ back) with (a :: (r1 ++ back)).
    rewrite bubble_outer_first_pass. cbn zeta.
    replace (length (r1 ++ back) - length back)%nat with (length r1)
      by (rewrite length_app; lia).
    rewrite bubble_pass_app by lia. cbn [fst snd].
    destruct (snd (bubble_pass key (length r1) a r1)) eqn:Hsw; cbn [negb].
    + destruct (bubble_pass_carried key a r1)
        as (front' & m' & u & w & Hf & Hco' & Hu & Hw).
      pose proof (bubble_pass_perm key (length r1) a r1) as Hp.
      rewrite Hf in Hp. rewrite Hf, <- app_assoc. simpl.
      replace (length back + 1)%nat with (length (m' :: back)) by (simpl; lia).
      apply IH.
      * apply Permutation_length in Hp. rewrite length_app in Hp.
        simpl in Hp. lia.
      * constructor; [done|]. destruct back as [|m back']; constructor.
        destruct (Hco m back' eq_refl u m' w Hu) as (c & Hmc & [->|Hc]); [done|].
        rewrite Forall_forall in Hw. specialize (Hw c Hc).
        unfold key_le in Hmc. lia.
      * intros m0 back0 Heq. by injection Heq as <- <-.
    + rewrite (bubble_pass_unswapped key _ _ _ Hsw).
      apply bubble_pass_unswapped_Sorted in Hsw.
      apply (Sorted_app_adjacent_2 _ (a :: r1) back); [done|done|].
      intros u x y w Hu ->.
      destruct (Hco y w eq_refl u x []) as (c & Hxc & [->|Hc]);
        [done|done|by apply elem_of_nil in Hc].
Qed.

Lemma bubble_sort_Sorted (key : SortKey) (l : list Student) :
  Sorted (key_le key) (bubble_sort key l).
Proof.
  unfold bubble_sort. destruct l as [|a rest]; [constructor|].
  pose proof (bubble_outer_Sorted key (length rest) (a :: rest) []) as H.
  rewrite app_nil_r in H. simpl in *. rewrite Nat.sub_0_r.
  apply H; [done|constructor|done].
Qed.

(** ** Insertion sort: adjacent records end up in order, for any key *)

Lemma Sorted_rev_flip (R : relation Student) (l : list Student) :
  Sorted (flip R) l -> Sorted R (rev l).
Proof.
  intros H. rewrite rev_alt. apply (Sorted_reverse (flip R)). exact H.
Qed.

Lemma Sorted_app_adjacent (R : relation Student) (l1 l2 : list Student)
    (x y : Student) :
  Sorted R (l1 ++ x :: y :: l2) -> R x y.
Proof.
  induction l1 as [|a l1 IH]; simpl; intros H.
  - apply Sorted_inv in H as [_ H]. by apply HdRel_inv in H.
  - apply Sorted_inv in H as [H _]. by apply IH.
Qed.

Lemma insert_rev_Sorted (key : SortKey) (k : Student) (rp : list Student) :
  Sorted (flip (key_le key)) rp ->
  Sorted (flip (key_le key)) (insert_rev key k rp).
Proof.
  induction rp as [|x rp IH]; intros Hs.
  - repeat constructor.
  - apply Sorted_inv in Hs as [Hs Hhd]. simpl.
    destruct (0 <? cmp_students x k key) eqn:Hc.
    + constructor; [by apply IH|].
      destruct rp as [|y rp]; simpl.
      * constructor. by apply gt_key_le.
      * apply HdRel_inv in Hhd.
        destruct (0 <? cmp_students y k key); constructor; [done|].
        by apply gt_key_le.
    + constructor; [by constructor|].
      constructor. by apply not_gt_key_le.
Qed.

Lemma insertion_from_Sorted (key : SortKey) (rp suf : list Student) :
  Sorted (flip (key_le key)) rp ->
  Sorted (key_le key) (insertion_from key rp suf).
Proof.
  revert rp. induction suf as [|k suf IH]; intros rp Hs; simpl.
  - by apply Sorted_rev_flip.
  - apply IH. by apply insert_rev_Sorted.
Qed.

Lemma insertion_sort_Sorted (key : SortKey) (l : list Student) :
  Sorted (key_le key) (insertion_sort key l).
Proof.
  destruct l as [|a rest]; [constructor|].
  rewrite insertion_sort_from. apply insertion_from_Sorted.
  repeat constructor.
Qed.

Lemma insertion_from_Sorted_id (key : SortKey) (rp suf : list Student) :
  Sorted (key_le key) (rev rp ++ suf) ->
  insertion_from key rp suf = rev rp ++ suf.
Proof.
  revert rp. induction suf as [|k suf IH]; intros rp Hs; simpl.
  - by rewrite app_nil_r.
  - assert (Hins : insert_rev key k rp = k :: rp).
    { destruct rp as [|x rp]; [done|]. simpl.
      simpl in Hs. rewrite <- app_assoc in Hs. simpl in Hs.
      apply Sorted_app_adjacent in Hs. unfold key_le in Hs.
      destruct (Z.ltb_spec 0 (cmp_students x k key)); [lia|done]. }
    rewrite Hins, IH; simpl; rewrite <- app_assoc; done.
Qed.

Lemma insertion_sort_Sorted_id (key : SortKey) (l : list Student) :
  Sorted (key_le key) l -> insertion_sort key l = l.
Proof.
  intros Hs. destruct l as [|a rest]; [done|].
  rewrite insertion_sort_from.
  by rewrite (insertion_from_Sorted_id key [a] rest).
Qed.

(** ** Merge sort *)

Lemma merge_lists_in_order (key : SortKey) (L R : list Student) :
  (forall x y, x ∈ L -> y ∈ R -> key_le key x y) ->
  merge_lists key L R = L ++ R.
Proof.
  revert R. induction L as [|a L IH]; intros R H.
  - by rewrite merge_lists_nil_l.
  - destruct R as [|b R].
    + by rewrite merge_lists_nil_r, app_nil_r.
    + rewrite merge_lists_cons.
      assert (Hab : key_le key a b) by (apply H; by left).
      unfold key_le in Hab.
      destruct (Z.leb_spec (cmp_students a b key) 0); [|lia].
      rewrite IH; [done|]. intros x y Hx Hy. apply H; [by right|done].
Qed.

Lemma merge_sort_list_sorted_id (key : SortKey) (fuel : nat)
    (seg : list Student) :
  StronglySorted (key_le key) seg -> merge_sort_list key fuel seg = seg.
Proof.
  revert seg. induction fuel as [|fuel IH]; intros seg Hs; simpl.
  - by destruct (length seg <=? 1)%nat.
  - destruct (length seg <=? 1)%nat; [done|].
    set (h := ((length seg - 1) / 2 + 1)%nat).
    rewrite <- (take_drop h seg) in Hs.
    apply StronglySorted_app in Hs as (Hc & H1 & H2).
    rewrite !IH by done.
    rewrite merge_lists_in_order by done. apply take_drop.
Qed.

Section MergeSorted.
Variable key : SortKey.
Variable D : Student -> Prop.
Hypothesis key_le_trans : forall a b c,
  D a -> D b -> D c -> key_le key a b -> key_le key b c -> key_le key a c.

Lemma merge_lists_sorted (L R : list Student) :
  Forall D L -> Forall D R ->
  StronglySorted (key_le key) L -> StronglySorted (key_le key) R ->
  StronglySorted (key_le key) (merge_lists key L R).
Proof.
  revert R. induction L as [|a L IHL]; intros R HDL HDR HL HR.
  - by rewrite merge_lists_nil_l.
  - induction R as [|b R IHR].
    + by rewrite merge_lists_nil_r.
    + rewrite merge_lists_cons.
      apply Forall_cons in HDL as [Ha HDL']. apply Forall_cons in HDR as [Hb HDR'].
      apply StronglySorted_inv in HL as [HL' HaL].
      apply StronglySorted_inv in HR as [HR' HbR].
      pose proof HDL' as HDL''. pose proof HDR' as HDR''.
      pose proof HaL as HaL'. pose proof HbR as HbR'.
      rewrite Forall_forall in HaL', HbR', HDL'', HDR''.
      destruct (Z.leb_spec (cmp_students a b key) 0) as [Hc|Hc].
      * constructor.
        -- apply IHL; try done; by constructor.
        -- rewrite Forall_forall. intros x Hx.
           rewrite merge_lists_perm in Hx.
           apply elem_of_app in Hx as [Hx|Hx]; [by apply HaL'|].
           apply elem_of_cons in Hx as [->|Hx]; [done|].
           apply (key_le_trans a b x); auto.
      * assert (Hba : key_le key b a) by (by apply cmp_students_asym).
        constructor.
        -- apply IHR; done.
        -- rewrite Forall_forall. intros x Hx.
           rewrite merge_lists_perm in Hx.
           apply elem_of_app in Hx as [Hx|Hx]; [|by apply HbR'].
           apply elem_of_cons in Hx as [->|Hx]; [done|].
           apply (key_le_trans b a x); auto.
Qed.

Lemma merge_sort_list_sorted (fuel : nat) (seg : list Student) :
  (length seg <= S fuel)%nat -> Forall D seg ->
  StronglySorted (key_le key) (merge_sort_list key fuel seg).
Proof.
  revert seg. induction fuel as [|fuel IH]; intros seg Hlen HD.
  - simpl. destruct (Nat.leb_spec (length seg) 1); [|lia].
    destruct seg as [|a [|]]; simpl in *; try lia; repeat constructor.
  - cbn [merge_sort_list].
    destruct (Nat.leb_spec (length seg) 1).
    { destruct seg as [|a [|]]; simpl in *; try lia; repeat constructor. }
    pose proof (Nat.Div0.mul_div_le (length seg - 1) 2) as Hq.
    set (h := ((length seg - 1) / 2 + 1)%nat) in *.
    assert (HD1 : Forall D (take h seg)) by (by apply Forall_take).
    assert (HD2 : Forall D (drop h seg)) by (by apply Forall_drop).
    apply merge_lists_sorted.
    + by rewrite merge_sort_list_perm.
    + by rewrite merge_sort_list_perm.
    + apply IH; [|done]. rewrite length_take. lia.
    + apply IH; [|done]. rewrite length_drop. lia.
Qed.
End MergeSorted.

(** ** Consistent keys *)

Lemma key_le_by_average (a b : Student) :
  key_le SORT_BY_AVG a b <-> f32_lt (average b) (average a) = false.
Proof.
  unfold key_le, cmp_students, f32_gt.
  destruct (f32_lt (average a) (average b)) eqn:E1.
  - apply f32_lt_asym in E1. split; [done|lia].
  - unfold f32_lt.
    destruct (SFltb (average b) (average a)); split; try done; lia.
Qed.

Lemma key_consistent_trans (key : SortKey) (l : list Student) :
  key_consistent key l ->
  forall a b c, a ∈ l -> b ∈ l -> c ∈ l ->
    key_le key a b -> key_le key b c -> key_le key a c.
Proof.
  destruct key; simpl; intros Hk a b c Ha Hb Hc.
  - unfold key_le, cmp_students.
    rewrite !wrap32_small by (apply Hk; done). lia.
  - unfold no_nan_average in Hk. rewrite Forall_forall in Hk.
    rewrite !key_le_by_average. intros H1 H2.
    apply (f32_not_gt_trans _ (average b)); auto.
Qed.

Lemma short_list_sorted (key : SortKey) (l : list Student) :
  (length l <= 1)%nat -> StronglySorted (key_le key) l.
Proof.
  destruct l as [|a [|]]; simpl; intros; try lia; repeat constructor.
Qed.

(** Under a consistent key every method leaves the store in order. *)
Lemma sort_students_sorted (method : SortMethod) (key : SortKey)
    (l : list Student) :
  key_consistent key l ->
  StronglySorted (key_le key) (sort_students method key l).
Proof.
  intros Hk. pose proof (key_consistent_trans key l Hk) as Htr.
  assert (HD : Forall (fun s => s ∈ l) l) by (by apply Forall_forall).
  unfold sort_students.
  destruct (Nat.leb_spec (length l) 1); [by apply short_list_sorted|].
  destruct method.
  - apply (Sorted_StronglySorted_on key (fun s => s ∈ l)); [done| |].
    + rewrite Forall_forall. intros x Hx. by rewrite bubble_sort_perm in Hx.
    + apply bubble_sort_Sorted.
  - apply (Sorted_StronglySorted_on key (fun s => s ∈ l)); [done| |].
    + rewrite Forall_forall. intros x Hx. by rewrite insertion_sort_perm in Hx.
    + apply insertion_sort_Sorted.
  - rewrite merge_sort_recursive_list by lia.
    apply (merge_sort_list_sorted key (fun s => s ∈ l)); [done|lia|done].
Qed.

(** A store in order is left as it is. *)
Lemma sort_students_sorted_id (method : SortMethod) (key : SortKey)
    (l : list Student) :
  StronglySorted (key_le key) l -> sort_students method key l = l.
Proof.
  intros Hs. unfold sort_students.
  destruct (Nat.leb_spec (length l) 1); [done|].
  destruct method.
  - apply bubble_sort_Sorted_id. by apply StronglySorted_Sorted.
  - apply insertion_sort_Sorted_id. by apply StronglySorted_Sorted.
  - rewrite merge_sort_recursive_list by lia.
    by apply merge_sort_list_sorted_id.
Qed.

(** Bubble sort and insertion sort leave every store with no record greater
    than the next one, and leave such a store as it is. *)
Lemma sort_students_Sorted (method : SortMethod) (key : SortKey)
    (l : list Student) :
  method <> MERGE -> Sorted (key_le key) (sort_students method key l).
Proof.
  intros Hm. unfold sort_students.
  destruct (Nat.leb_spec (length l) 1).
  { by apply StronglySorted_Sorted, short_list_sorted. }
  destruct method; [apply bubble_sort_Sorted|apply insertion_sort_Sorted|done].
Qed.

Lemma sort_students_Sorted_id (method : SortMethod) (key : SortKey)
    (l : list Student) :
  method <> MERGE -> Sorted (key_le key) l -> sort_students method key l = l.
Proof.
  intros Hm Hs. unfold sort_students.
  destruct (Nat.leb_spec (length l) 1); [done|].
  destruct method;
    [by apply bubble_sort_Sorted_id|by apply insertion_sort_Sorted_id|done].
Qed.

(** C9 (amended): sorting twice in a row with the same method and key gives
    the order of sorting once, for bubble and insertion sort on every store
    and key, and for merge sort on every store on which the key is
    consistent: by average with no NaN average, by id with no difference of
    two ids outside the [int] range. *)
Theorem sort_students_idempotent (method : SortMethod) (key : SortKey)
    (students : list Student) :
  (method = MERGE -> key_consistent key students) ->
  sort_students method key (sort_students method key students) =
    sort_students method key students.
Proof.
  intros Hk. destruct method.
  - by apply sort_students_Sorted_id, sort_students_Sorted.
  - by apply sort_students_Sorted_id, sort_students_Sorted.
  - by apply sort_students_sorted_id, sort_students_sorted, Hk.
Qed.

Lemma sort_students_idempotent_witness :
  let students :=
    [mkStudent 5 "E" [] (f32_of_int 70); mkStudent 3 "C" [] (f32_of_int 90);
     mkStudent 1 "A" [] (f32_of_int 70)] in
  sort_students MERGE SORT_BY_AVG (sort_students MERGE SORT_BY_AVG students) =
    sort_students MERGE SORT_BY_AVG students.
Proof.
  apply sort_students_idempotent. intros _.
  simpl. repeat constructor.
Defined.

(** C9 as stated fails: merge sort by average is not idempotent on a store
    holding NaN averages.  The store is a reachable one: the records 0, 1
    and 4 were given the grade NaN. *)
Lemma sort_students_twice_differs :
  let students :=
    store_of [(0, "a", [S754_nan]); (1, "b", [S754_nan]);
              (2, "c", [f32_of_int 2]); (3, "d", [f32_of_int 1]);
              (4, "e", [S754_nan]); (5, "f", [f32_of_int 1])]%string in
  reachable students /\
  average <$> students =
    [S754_nan; S754_nan; f32_of_int 2; f32_of_int 1; S754_nan; f32_of_int 1] /\
  id <$> sort_students MERGE SORT_BY_AVG students = [0; 1; 3; 2; 4; 5] /\
  id <$> sort_students MERGE SORT_BY_AVG
           (sort_students MERGE SORT_BY_AVG students) = [0; 1; 3; 5; 2; 4] /\
  sort_students MERGE SORT_BY_AVG (sort_students MERGE SORT_BY_AVG students) <>
    sort_students MERGE SORT_BY_AVG students.
Proof.
  intros students. split.
  - apply reachable_store_of. repeat constructor; by vm_compute.
  - vm_compute. repeat split; discriminate.
Qed.

(** ** Stability

    [c] picks a class of records none of which is greater than another (the
    records of one average); a sort is stable when it keeps the sequence of
    the records of every such class. *)

Section Stability.
Variable key : SortKey.
Variable c : Student -> bool.
Hypothesis class_le : forall a b, c a = true -> c b = true -> key_le key a b.

Lemma filter_cons_app (a : Student) (l : list Student) :
  List.filter c (a :: l) = List.filter c [a] ++ List.filter c l.
Proof. simpl. by destruct (c a). Qed.

Lemma filter_none (l : list Student) :
  Forall (fun x => c x = false) l -> List.filter c l = [].
Proof.
  induction 1 as [|x l Hx _ IH]; [done|]. simpl. by rewrite Hx.
Qed.

Lemma filter_swap_gt (a b : Student) (l : list Student) :
  (0 <? cmp_students a b key) = true ->
  List.filter c (b :: a :: l) = List.filter c (a :: b :: l).
Proof.
  intros Hgt. apply Z.ltb_lt in Hgt. simpl.
  destruct (c a) eqn:Ha, (c b) eqn:Hb; try done.
  pose proof (class_le a b Ha Hb) as H. unfold key_le in H. lia.
Qed.

Lemma bubble_pass_filter (n : nat) (a : Student) (rest : list Student) :
  List.filter c (fst (bubble_pass key n a rest)) = List.filter c (a :: rest).
Proof.
  revert a rest. induction n as [|n IH]; intros a rest; [done|].
  destruct rest as [|b rest]; [done|].
  cbn [bubble_pass].
  destruct (0 <? cmp_students a b key) eqn:Hc; cbn [fst].
  - rewrite <- (filter_swap_gt a b rest Hc).
    rewrite (filter_cons_app b), (filter_cons_app b (a :: rest)).
    by rewrite IH.
  - rewrite (filter_cons_app a), (filter_cons_app a (b :: rest)).
    by rewrite IH.
Qed.

Lemma bubble_outer_filter (n i : nat) (l : list Student) :
  List.filter c (bubble_outer key n i l) = List.filter c l.
Proof.
  revert i l. induction n as [|n IH]; intros i l; [done|].
  destruct l as [|a rest].
  { cbn [bubble_outer]. simpl. done. }
  rewrite bubble_outer_first_pass. cbn zeta.
  destruct (snd (bubble_pass key (length rest - i) a rest)); cbn [negb].
  - by rewrite IH, bubble_pass_filter.
  - by rewrite bubble_pass_filter.
Qed.

Lemma insert_rev_filter (k : Student) (rp : list Student) :
  List.filter c (rev (insert_rev key k rp)) = List.filter c (rev rp ++ [k]).
Proof.
  induction rp as [|x rp IH]; [done|]. simpl.
  destruct (0 <? cmp_students x k key) eqn:Hc.
  - simpl. rewrite !List.filter_app, IH, List.filter_app.
    rewrite <- !app_assoc. f_equal.
    pose proof (filter_swap_gt x k [] Hc) as H. simpl in *.
    destruct (c x), (c k); simpl; congruence.
  - done.
Qed.

Lemma insertion_from_filter (rp suf : list Student) :
  List.filter c (insertion_from key rp suf) = List.filter c (rev rp ++ suf).
Proof.
  revert rp. induction suf as [|k suf IH]; intros rp; simpl.
  - by rewrite app_nil_r.
  - rewrite IH, !List.filter_app, insert_rev_filter, List.filter_app.
    by rewrite (filter_cons_app k suf), <- app_assoc.
Qed.

Lemma insertion_sort_filter (l : list Student) :
  List.filter c (insertion_sort key l) = List.filter c l.
Proof.
  destruct l as [|a rest]; [done|].
  rewrite insertion_sort_from. apply (insertion_from_filter [a] rest).
Qed.

Variable D : Student -> Prop.
Hypothesis key_le_trans : forall a b c,
  D a -> D b -> D c -> key_le key a b -> key_le key b c -> key_le key a c.

Lemma merge_lists_filter (L R : list Student) :
  Forall D L -> Forall D R -> StronglySorted (key_le key) L ->
  List.filter c (merge_lists key L R) = List.filter c L ++ List.filter c R.
Proof.
  revert R. induction L as [|a L IHL]; intros R HDL HDR HL.
  - by rewrite merge_lists_nil_l.
  - induction R as [|b R IHR].
    + by rewrite merge_lists_nil_r, app_nil_r.
    + rewrite merge_lists_cons.
      pose proof HDL as HDL'. apply Forall_cons in HDL' as [Ha HDL'].
      pose proof HDR as HDR'. apply Forall_cons in HDR' as [Hb HDR'].
      pose proof HL as HL'. apply StronglySorted_inv in HL' as [HL' HaL].
      destruct (Z.leb_spec (cmp_students a b key) 0) as [Hc|Hc].
      * rewrite (filter_cons_app a), (filter_cons_app a L).
        rewrite IHL by done. by rewrite <- app_assoc.
      * rewrite (filter_cons_app b), (filter_cons_app b R).
        rewrite IHR by done.
        change (List.filter c [b]) with (if c b then [b] else []).
        destruct (c b) eqn:Hcb; [|done].
        assert (Hnone : List.filter c (a :: L) = []).
        { apply filter_none. rewrite Forall_forall.
          intros x Hx. apply not_true_iff_false. intros Hcx.
          assert (Hax : key_le key a x).
          { apply elem_of_cons in Hx as [->|Hx]; [apply key_le_refl|].
            rewrite Forall_forall in HaL. by apply HaL. }
          assert (HDx : D x).
          { rewrite Forall_forall in HDL. by apply HDL. }
          pose proof (key_le_trans a x b Ha HDx Hb Hax (class_le x b Hcx Hcb)) as H.
          unfold key_le in H. lia. }
        by rewrite Hnone.
Qed.

Lemma merge_sort_list_filter (fuel : nat) (seg : list Student) :
  (length seg <= S fuel)%nat -> Forall D seg ->
  List.filter c (merge_sort_list key fuel seg) = List.filter c seg.
Proof.
  revert seg. induction fuel as [|fuel IH]; intros seg Hlen HD.
  - simpl. by destruct (length seg <=? 1)%nat.
  - cbn [merge_sort_list].
    destruct (Nat.leb_spec (length seg) 1); [done|].
    pose proof (Nat.Div0.mul_div_le (length seg - 1) 2) as Hq.
    set (h := ((length seg - 1) / 2 + 1)%nat) in *.
    assert (HD1 : Forall D (take h seg)) by (by apply Forall_take).
    assert (HD2 : Forall D (drop h seg)) by (by apply Forall_drop).
    rewrite merge_lists_filter.
    + rewrite !IH; try done.
      * by rewrite <- List.filter_app, take_drop.
      * rewrite length_drop. lia.
      * rewrite length_take. lia.
    + by rewrite merge_sort_list_perm.
    + by rewrite merge_sort_list_perm.
    + apply (merge_sort_list_sorted key D key_le_trans); [|done].
      rewrite length_take. lia.
Qed.
End Stability.

(** ** Relative order of two records *)

Lemma filter_split (c : Student -> bool) (l m1 m2 : list Student) (x : Student) :
  List.filter c l = m1 ++ x :: m2 ->
  exists l1 l2,
    l = l1 ++ x :: l2 /\ List.filter c l1 = m1 /\ List.filter c l2 = m2.
Proof.
  revert m1. induction l as [|a l IH]; intros m1 H.
  - by destruct m1.
  - simpl in H. destruct (c a) eqn:Ha.
    + destruct m1 as [|b m1]; simpl in H; injection H as <- H.
      * by exists [], l.
      * destruct (IH m1 H) as (l1 & l2 & -> & H1 & H2).
        exists (a :: l1), l2. simpl. rewrite Ha, H1. done.
    + destruct (IH m1 H) as (l1 & l2 & -> & H1 & H2).
      exists (a :: l1), l2. simpl. rewrite Ha. done.
Qed.

Lemma precedes_filter (c : Student -> bool) (x y : Student) (l : list Student) :
  c x = true -> c y = true -> precedes x y l ->
  precedes x y (List.filter c l).
Proof.
  intros Hx Hy (l1 & l2 & l3 & ->).
  exists (List.filter c l1), (List.filter c l2), (List.filter c l3).
  rewrite List.filter_app. simpl. rewrite Hx, List.filter_app. simpl.
  by rewrite Hy.
Qed.

Lemma filter_precedes (c : Student -> bool) (x y : Student) (l : list Student) :
  precedes x y (List.filter c l) -> precedes x y l.
Proof.
  intros (m1 & m2 & m3 & H).
  apply filter_split in H as (l1 & l' & -> & _ & H).
  apply filter_split in H as (l2 & l3 & -> & _ & _).
  by exists l1, l2, l3.
Qed.

Lemma precedes_antisym (x y : Student) (l : list Student) :
  NoDup (id <$> l) -> precedes x y l -> precedes y x l -> False.
Proof.
  intros Hnd (l1 & l2 & l3 & H1) (l1' & l2' & l3' & H2).
  assert (Hx : forall i j, (id <$> l) !! i = Some (id x) ->
                 (id <$> l) !! j = Some (id x) -> i = j).
  { intros i j. by apply NoDup_lookup. }
  assert (Hy : forall i j, (id <$> l) !! i = Some (id y) ->
                 (id <$> l) !! j = Some (id y) -> i = j).
  { intros i j. by apply NoDup_lookup. }
  assert (Hmid : forall (a b : list Student) (s : Student),
            (id <$> (a ++ s :: b)) !! length a = Some (id s)).
  { intros a b s. rewrite list_lookup_fmap, list_lookup_middle; done. }
  pose proof (Hmid l1 (l2 ++ y :: l3) x) as Ex1.
  pose proof (Hmid (l1 ++ x :: l2) l3 y) as Ey1.
  pose proof (Hmid l1' (l2' ++ x :: l3') y) as Ey2.
  pose proof (Hmid (l1' ++ y :: l2') l3' x) as Ex2.
  rewrite <- app_assoc in Ey1, Ex2. simpl in Ey1, Ex2.
  rewrite <- H1 in Ex1, Ey1. rewrite <- H2 in Ex2, Ey2.
  pose proof (Hx _ _ Ex1 Ex2) as E1. pose proof (Hy _ _ Ey1 Ey2) as E2.
  rewrite !length_app in *. simpl in *. lia.
Qed.

(** ** Stability of the three methods *)

Lemma f32_eq_refl_of (x y : float32) : f32_eq x y = true -> f32_eq y y = true.
Proof.
  unfold f32_eq, SFeqb.
  destruct x as [sx|sx| |sx mx ex]; try discriminate;
  destruct y as [sy|sy| |sy my ey]; try discriminate;
  try destruct sx; try destruct sy; cbn [SFcompare]; try done;
  intros _; rewrite Z.compare_refl;
  change (Pos.compare_cont Eq my my) with (Pos.compare my my);
  by rewrite Pos.compare_refl.
Qed.

Lemma same_average_le (v : float32) (a b : Student) :
  same_average v a = true -> same_average v b = true ->
  key_le SORT_BY_AVG a b.
Proof.
  unfold same_average. intros Ha Hb.
  apply key_le_by_average. by apply (f32_eq_not_lt _ _ v).
Qed.

Lemma sort_students_filter (method : SortMethod) (v : float32)
    (l : list Student) :
  (method = MERGE -> no_nan_average l) ->
  List.filter (same_average v) (sort_students method SORT_BY_AVG l) =
    List.filter (same_average v) l.
Proof.
  intros Hm. unfold sort_students.
  destruct (Nat.leb_spec (length l) 1); [done|].
  destruct method.
  - apply bubble_outer_filter, same_average_le.
  - apply insertion_sort_filter, same_average_le.
  - rewrite merge_sort_recursive_list by lia.
    apply (merge_sort_list_filter SORT_BY_AVG (same_average v)
             (same_average_le v) (fun s => s ∈ l)).
    + by apply (key_consistent_trans SORT_BY_AVG l), Hm.
    + lia.
    + by apply Forall_forall.
Qed.

(** C4 (amended): sorting by average keeps the relative order of two records
    with equal averages, for bubble and insertion sort on every store, and
    for merge sort on every store without a NaN average. *)
Theorem sort_students_stable (method : SortMethod) (students : list Student)
    (x y : Student) :
  (method = MERGE -> no_nan_average students) ->
  precedes x y students ->
  f32_eq (average x) (average y) = true ->
  id x <> id y ->
  precedes x y (sort_students method SORT_BY_AVG students).
Proof.
  intros Hm Hp Heq _.
  apply (filter_precedes (same_average (average y))).
  rewrite sort_students_filter by done.
  apply precedes_filter; [done| |done].
  unfold same_average. by apply (f32_eq_refl_of (average x)).
Qed.

Lemma sort_students_stable_witness :
  let a := mkStudent 5 "E" [] (f32_of_int 70) in
  let b := mkStudent 3 "C" [] (f32_of_int 90) in
  let c := mkStudent 1 "A" [] (f32_of_int 70) in
  precedes a c (sort_students MERGE SORT_BY_AVG [a; b; c]).
Proof.
  intros a b c.
  apply (sort_students_stable MERGE [a; b; c] a c).
  - intros _. repeat constructor.
  - by exists [], [b], [].
  - reflexivity.
  - discriminate.
Defined.

(** C4 as stated fails for merge sort: with NaN averages in the store, the
    records 3 and 4, both of average 1, are exchanged.  The store is a
    reachable one: the records 0, 2, 5 and 6 were given the grade NaN. *)
Lemma merge_sort_not_stable :
  let students :=
    store_of [(0, "a", [S754_nan]); (1, "b", [f32_of_int 2]);
              (2, "c", [S754_nan]); (3, "d", [f32_of_int 1]);
              (4, "e", [f32_of_int 1]); (5, "f", [S754_nan]);
              (6, "g", [S754_nan])]%string in
  let s3 := mkStudent 3 "d" [f32_of_int 1] (f32_of_int 1) in
  let s4 := mkStudent 4 "e" [f32_of_int 1] (f32_of_int 1) in
  reachable students /\
  precedes s3 s4 students /\
  f32_eq (average s3) (average s4) = true /\
  id s3 <> id s4 /\
  id <$> sort_students MERGE SORT_BY_AVG students = [0; 4; 1; 2; 3; 5; 6] /\
  ~ precedes s3 s4 (sort_students MERGE SORT_BY_AVG students).
Proof.
  intros students s3 s4.
  split; [|split; [|split; [done|split; [done|split; [done|]]]]].
  - apply reachable_store_of. repeat constructor; by vm_compute.
  - by exists (take 3 students), [], (drop 5 students).
  - intros Hp. apply (precedes_antisym s3 s4 _) in Hp; [done| |].
    + vm_compute. repeat constructor; rewrite ?elem_of_cons, ?elem_of_nil; lia.
    + by exists (take 1 students), (take 2 (drop 1 students)), (drop 5 students).
Qed.

(** ** Statistics *)

Lemma f32_lt_irrefl (x : float32) : f32_lt x x = false.
Proof.
  destruct (f32_lt x x) eqn:E; [|done]. by rewrite (f32_lt_asym x x E) in E.
Qed.

Lemma lookup_snoc_inv (pre : list Student) (s x : Student) (j : nat) :
  (pre ++ [s]) !! j = Some x ->
  pre !! j = Some x \/ (j = length pre /\ x = s).
Proof.
  intros Hx. apply lookup_app_Some in Hx as [Hx|[Hge Hx]]; [by left|right].
  destruct (j - length pre)%nat as [|k] eqn:Hk; simpl in Hx; [|done].
  injection Hx as <-. split; [lia|done].
Qed.

Lemma highest_at_step (pre : list Student) (s : Student) (h : float32) (hi : Z) :
  no_nan_average (pre ++ [s]) ->
  highest_at pre h hi ->
  highest_at (pre ++ [s])
    (if f32_gt (average s) h then average s else h)
    (if f32_gt (average s) h then Z.of_nat (length pre) else hi).
Proof.
  intros Hnan (Hhi0 & (sh & Hsh & Hh) & Hmax & Hfirst).
  unfold no_nan_average in Hnan. rewrite Forall_forall in Hnan.
  assert (Hns : is_nan (average s) = false).
  { apply Hnan. apply elem_of_app. right. by left. }
  assert (Hnp : forall j x, pre !! j = Some x -> is_nan (average x) = false).
  { intros j x Hx. apply Hnan. apply elem_of_app. left.
    by apply list_elem_of_lookup_2 in Hx. }
  assert (Hnh : is_nan h = false) by (subst h; by apply (Hnp _ _ Hsh)).
  unfold f32_gt in *. change SFltb with f32_lt in *.
  destruct (f32_lt h (average s)) eqn:Eh.
  - split; [lia|]. rewrite Nat2Z.id. split; [|split].
    + exists s. split; [by apply list_lookup_middle|done].
    + intros j x Hx. apply lookup_snoc_inv in Hx as [Hx|[-> ->]].
      * apply f32_lt_asym.
        apply (f32_lt_le_trans (average x) h (average s)); eauto.
      * apply f32_lt_irrefl.
    + intros j x Hj Hx. apply lookup_snoc_inv in Hx as [Hx|[-> ->]]; [|lia].
      apply (f32_lt_le_trans (average x) h (average s)); eauto.
  - split; [done|]. split; [|split].
    + exists sh. split; [by apply lookup_app_l_Some|done].
    + intros j x Hx. apply lookup_snoc_inv in Hx as [Hx|[-> ->]]; eauto.
    + intros j x Hj Hx. apply lookup_snoc_inv in Hx as [Hx|[-> ->]]; eauto.
      apply lookup_lt_Some in Hsh. lia.
Qed.

Lemma lowest_at_step (pre : list Student) (s : Student) (lo : float32) (li : Z) :
  no_nan_average (pre ++ [s]) ->
  lowest_at pre lo li ->
  lowest_at (pre ++ [s])
    (if f32_lt (average s) lo then average s else lo)
    (if f32_lt (average s) lo then Z.of_nat (length pre) else li).
Proof.
  intros Hnan (Hli0 & (sl & Hsl & Hl) & Hmin & Hfirst).
  unfold no_nan_average in Hnan. rewrite Forall_forall in Hnan.
  assert (Hns : is_nan (average s) = false).
  { apply Hnan. apply elem_of_app. right. by left. }
  assert (Hnp : forall j x, pre !! j = Some x -> is_nan (average x) = false).
  { intros j x Hx. apply Hnan. apply elem_of_app. left.
    by apply list_elem_of_lookup_2 in Hx. }
  assert (Hnl : is_nan lo = false) by (subst lo; by apply (Hnp _ _ Hsl)).
  unfold f32_gt in *. change SFltb with f32_lt in *.
  destruct (f32_lt (average s) lo) eqn:El.
  - split; [lia|]. rewrite Nat2Z.id. split; [|split].
    + exists s. split; [by apply list_lookup_middle|done].
    + intros j x Hx. apply lookup_snoc_inv in Hx as [Hx|[-> ->]].
      * apply f32_lt_asym.
        apply (f32_le_lt_trans (average s) lo (average x)); eauto.
      * apply f32_lt_irrefl.
    + intros j x Hj Hx. apply lookup_snoc_inv in Hx as [Hx|[-> ->]]; [|lia].
      apply (f32_le_lt_trans (average s) lo (average x)); eauto.
  - split; [done|]. split; [|split].
    + exists sl. split; [by apply lookup_app_l_Some|done].
    + intros j x Hx. apply lookup_snoc_inv in Hx as [Hx|[-> ->]]; eauto.
    + intros j x Hj Hx. apply lookup_snoc_inv in Hx as [Hx|[-> ->]]; eauto.
      apply lookup_lt_Some in Hsl. lia.
Qed.

Lemma highest_lowest_scan_invariant (rest pre : list Student)
    (st : float32 * Z * float32 * Z) :
  no_nan_average (pre ++ rest) ->
  scan_invariant pre st ->
  scan_invariant (pre ++ rest)
    (highest_lowest_scan rest (Z.of_nat (length pre)) st).
Proof.
  revert pre st. induction rest as [|s rest IH]; intros pre st Hnan Hinv.
  - by rewrite app_nil_r.
  - destruct st as [[[h hi] lo] li]. destruct Hinv as [Hh Hl].
    cbn [highest_lowest_scan].
    replace (pre ++ s :: rest) with ((pre ++ [s]) ++ rest) in *
      by (by rewrite <- app_assoc).
    assert (Hnan' : no_nan_average (pre ++ [s])).
    { unfold no_nan_average in *. by apply Forall_app in Hnan as [? _]. }
    pose proof (highest_at_step pre s h hi Hnan' Hh) as Hh'.
    pose proof (lowest_at_step pre s lo li Hnan' Hl) as Hl'.
    replace (Z.of_nat (length pre) + 1) with (Z.of_nat (length (pre ++ [s])))
      by (rewrite length_app; simpl; lia).
    destruct (f32_gt (average s) h), (f32_lt (average s) lo);
      apply IH; done.
Qed.

Lemma get_student_by_index_lookup (l : list Student) (idx : Z) (s : Student) :
  get_student_by_index l idx = Some s <->
  0 <= idx /\ l !! Z.to_nat idx = Some s.
Proof.
  unfold get_student_by_index, students_count.
  destruct (Z.ltb_spec idx 0); simpl.
  - split; [done|lia].
  - destruct (Z.leb_spec (Z.of_nat (length l)) idx).
    + split; [done|]. intros [_ H']. apply lookup_lt_Some in H'. lia.
    + split; [done|]. by intros [_ H'].
Qed.

(** C7 (amended): on an empty store [class_highest_lowest] returns false; on
    a non-empty store it returns true with two averages and two positions,
    and when no average is NaN these are the highest average, held at the
    returned position and exceeded by no record, every record before that
    position being strictly lower (the first record attaining the maximum
    wins), and likewise the lowest average and its first position. *)
Theorem class_highest_lowest_first (students : list Student) :
  class_highest_lowest [] = None /\
  (students <> [] ->
   exists highest h_idx lowest l_idx,
     class_highest_lowest students = Some (highest, h_idx, lowest, l_idx) /\
     (no_nan_average students ->
      (exists s, get_student_by_index students h_idx = Some s /\
                 average s = highest) /\
      (forall s, s ∈ students -> f32_le (average s) highest = true) /\
      (forall j s, j < h_idx -> get_student_by_index students j = Some s ->
         f32_lt (average s) highest = true) /\
      (exists s, get_student_by_index students l_idx = Some s /\
                 average s = lowest) /\
      (forall s, s ∈ students -> f32_le lowest (average s) = true) /\
      (forall j s, j < l_idx -> get_student_by_index students j = Some s ->
         f32_lt lowest (average s) = true))).
Proof.
  split; [done|]. intros Hne.
  destruct students as [|s0 rest]; [done|].
  unfold class_highest_lowest.
  destruct (highest_lowest_scan rest 1 (average s0, 0, average s0, 0))
    as [[[h hi] lo] li] eqn:Hscan.
  exists h, hi, lo, li. split; [done|]. intros Hnan.
  pose proof (highest_lowest_scan_invariant rest [s0]
                (average s0, 0, average s0, 0) Hnan) as Hinv.
  change (Z.of_nat (length [s0])) with 1 in Hinv. rewrite Hscan in Hinv.
  destruct Hinv as [(Hhi0 & (sh & Hsh & Hh) & Hmax & Hfirst)
                    (Hli0 & (sl & Hsl & Hl) & Hmin & Hfirstl)].
  { split; (split; [done|]; split; [by exists s0|]; split).
    - intros [|j] s Hs; [|done]. injection Hs as <-. apply f32_lt_irrefl.
    - intros j s Hj. simpl in Hj. lia.
    - intros [|j] s Hs; [|done]. injection Hs as <-. apply f32_lt_irrefl.
    - intros j s Hj. simpl in Hj. lia. }
  change ([s0] ++ rest) with (s0 :: rest) in *.
  unfold no_nan_average in Hnan. rewrite Forall_forall in Hnan.
  assert (Hnh : is_nan h = false).
  { subst h. apply Hnan. by apply list_elem_of_lookup_2 in Hsh. }
  assert (Hnl : is_nan lo = false).
  { subst lo. apply Hnan. by apply list_elem_of_lookup_2 in Hsl. }
  repeat split.
  - exists sh. split; [|done]. by apply get_student_by_index_lookup.
  - intros s Hs. apply f32_le_not_gt; auto.
    apply list_elem_of_lookup_1 in Hs as [j Hj]. by apply (Hmax j).
  - intros j s Hj Hs. apply get_student_by_index_lookup in Hs as [Hj0 Hs].
    apply (Hfirst (Z.to_nat j)); [lia|done].
  - exists sl. split; [|done]. by apply get_student_by_index_lookup.
  - intros s Hs. apply f32_le_not_gt; auto.
    apply list_elem_of_lookup_1 in Hs as [j Hj]. by apply (Hmin j).
  - intros j s Hj Hs. apply get_student_by_index_lookup in Hs as [Hj0 Hs].
    apply (Hfirstl (Z.to_nat j)); [lia|done].
Qed.

Lemma class_highest_lowest_first_witness :
  exists highest h_idx lowest l_idx,
    class_highest_lowest
      [mkStudent 2 "B" [] (f32_of_int 85); mkStudent 5 "E" [] (f32_of_int 60)] =
      Some (highest, h_idx, lowest, l_idx) /\
    (no_nan_average
       [mkStudent 2 "B" [] (f32_of_int 85); mkStudent 5 "E" [] (f32_of_int 60)] ->
     (exists s, get_student_by_index
                  [mkStudent 2 "B" [] (f32_of_int 85);
                   mkStudent 5 "E" [] (f32_of_int 60)] h_idx = Some s /\
                average s = highest) /\
     (forall s, s ∈ [mkStudent 2 "B" [] (f32_of_int 85);
                     mkStudent 5 "E" [] (f32_of_int 60)] ->
        f32_le (average s) highest = true) /\
     (forall j s, j < h_idx ->
        get_student_by_index
          [mkStudent 2 "B" [] (f32_of_int 85);
           mkStudent 5 "E" [] (f32_of_int 60)] j = Some s ->
        f32_lt (average s) highest = true) /\
     (exists s, get_student_by_index
                  [mkStudent 2 "B" [] (f32_of_int 85);
                   mkStudent 5 "E" [] (f32_of_int 60)] l_idx = Some s /\
                average s = lowest) /\
     (forall s, s ∈ [mkStudent 2 "B" [] (f32_of_int 85);
                     mkStudent 5 "E" [] (f32_of_int 60)] ->
        f32_le lowest (average s) = true) /\
     (forall j s, j < l_idx ->
        get_student_by_index
          [mkStudent 2 "B" [] (f32_of_int 85);
           mkStudent 5 "E" [] (f32_of_int 60)] j = Some s ->
        f32_lt lowest (average s) = true)).
Proof.
  apply (proj2 (class_highest_lowest_first
           [mkStudent 2 "B" [] (f32_of_int 85);
            mkStudent 5 "E" [] (f32_of_int 60)])).
  discriminate.
Defined.

(** The scenario of the specification: the highest is the record of id 2 at
    position 0, the lowest the record of id 5 at position 1. *)
Example highest_lowest_scenario :
  class_highest_lowest
    [mkStudent 2 "B" [] (f32_of_int 85); mkStudent 5 "E" [] (f32_of_int 60)] =
    Some (f32_of_int 85, 0, f32_of_int 60, 1).
Proof. reflexivity. Qed.

(** C7 as stated fails on a store whose first average is NaN: no later
    average compares greater or less than NaN, so NaN at position 0 is
    returned as both the highest and the lowest average.  The store is a
    reachable one: the record 1 was given the grade NaN. *)
Lemma class_highest_lowest_nan :
  let students :=
    store_of [(1, "A", [S754_nan]); (2, "B", [f32_of_int 5]);
              (3, "C", [f32_of_int 3])]%string in
  reachable students /\
  average <$> students = [S754_nan; f32_of_int 5; f32_of_int 3] /\
  class_highest_lowest students = Some (S754_nan, 0, S754_nan, 0) /\
  ~ (forall s, s ∈ students -> f32_le (average s) S754_nan = true) /\
  ~ (forall s, s ∈ students -> f32_le S754_nan (average s) = true).
Proof.
  intros students. split; [|split; [done|split; [done|]]].
  - apply reachable_store_of. repeat constructor; by vm_compute.
  - split; intros H.
    + specialize (H (mkStudent 2 "B" [f32_of_int 5] (f32_of_int 5))).
      discriminate H. right. by left.
    + specialize (H (mkStudent 2 "B" [f32_of_int 5] (f32_of_int 5))).
      discriminate H. right. by left.
Qed.

(** ** Binary search *)

Lemma sorted_ids_monotone (l : list Student) (i j : nat) :
  Sorted Z.le (id <$> l) -> (i <= j)%nat -> (j < length l)%nat ->
  id (at_index l i) <= id (at_index l j).
Proof.
  intros Hs Hij Hj.
  apply Sorted_StronglySorted in Hs; [|intros x y z; lia].
  destruct (lookup_lt_is_Some_2 l i ltac:(lia)) as [x Hx].
  destruct (lookup_lt_is_Some_2 l j Hj) as [y Hy].
  rewrite (at_index_lookup _ _ _ Hx), (at_index_lookup _ _ _ Hy).
  destruct (decide (i = j)) as [->|Hne]; [rewrite Hx in Hy; injection Hy as ->; lia|].
  clear Hj. revert i j x y Hij Hne Hx Hy Hs.
  induction l as [|a l IH]; intros i j x y Hij Hne Hx Hy Hs; [done|].
  rewrite fmap_cons in Hs. apply StronglySorted_inv in Hs as [Hs Ha].
  destruct j as [|j]; [lia|]. simpl in Hy.
  destruct i as [|i].
  - simpl in Hx. injection Hx as <-.
    rewrite Forall_forall in Ha. apply Ha.
    apply list_elem_of_fmap. exists y. split; [done|].
    by apply list_elem_of_lookup_2 in Hy.
  - simpl in Hx. apply (IH i j); auto; lia.
Qed.

Lemma binary_search_fuel_spec (fuel : nat) (l : list Student)
    (target left right : Z) :
  Sorted Z.le (id <$> l) ->
  0 <= left -> right < Z.of_nat (length l) ->
  right - left + 1 <= Z.of_nat fuel ->
  exists r,
    binary_search_fuel fuel l target left right = Some r /\
    ((r = -1 /\
      forall k, left <= k <= right -> id (at_index l (Z.to_nat k)) <> target) \/
     (left <= r <= right /\ id (at_index l (Z.to_nat r)) = target)).
Proof.
  intros Hs. revert left right.
  induction fuel as [|fuel IH]; intros left right Hl Hr Hf.
  - simpl. destruct (Z.ltb_spec right left); [|lia].
    exists (-1). split; [done|]. left. split; [done|]. intros k Hk. lia.
  - cbn [binary_search_fuel].
    destruct (Z.ltb_spec right left).
    { exists (-1). split; [done|]. left. split; [done|]. intros k Hk. lia. }
    assert (Hq : Z.quot (right - left) 2 = (right - left) / 2)
      by (apply Z.quot_div_nonneg; lia).
    rewrite Hq.
    pose proof (Z.div_pos (right - left) 2 ltac:(lia) ltac:(lia)) as Hq0.
    pose proof (Z.mul_div_le (right - left) 2 ltac:(lia)) as Hq1.
    set (mid := left + (right - left) / 2) in *.
    assert (Hmid : left <= mid <= right) by (unfold mid; lia).
    destruct (Z.eqb_spec (id (at_index l (Z.to_nat mid))) target) as [Heq|Hne].
    { exists mid. split; [done|]. by right. }
    destruct (Z.gtb_spec (id (at_index l (Z.to_nat mid))) target) as [Hgt|Hle].
    + destruct (IH left (mid - 1) Hl ltac:(lia) ltac:(lia)) as (r & Hr' & Hres).
      exists r. split; [done|].
      destruct Hres as [[-> Hnone]|[Hin Hfound]]; [left|right; split; [lia|done]].
      split; [done|]. intros k Hk.
      destruct (Z.le_gt_cases k (mid - 1)); [apply Hnone; lia|].
      pose proof (sorted_ids_monotone l (Z.to_nat mid) (Z.to_nat k) Hs
                    ltac:(lia) ltac:(lia)). lia.
    + destruct (IH (mid + 1) right ltac:(lia) Hr ltac:(lia)) as (r & Hr' & Hres).
      exists r. split; [done|].
      destruct Hres as [[-> Hnone]|[Hin Hfound]]; [left|right; split; [lia|done]].
      split; [done|]. intros k Hk.
      destruct (Z.le_gt_cases (mid + 1) k); [apply Hnone; lia|].
      pose proof (sorted_ids_monotone l (Z.to_nat k) (Z.to_nat mid) Hs
                    ltac:(lia) ltac:(lia)). lia.
Qed.

(** The whole-store call either returns [-1], the id being absent, or a
    position of the store holding the id. *)
Lemma binary_search_whole_store (students : list Student) (target : Z) :
  Sorted Z.le (id <$> students) ->
  exists r,
    binary_search_by_id_recursive students target 0
      (students_count students - 1) = Some r /\
    ((r = -1 /\ target ∉ id <$> students) \/
     (exists s, get_student_by_index students r = Some s /\ id s = target)).
Proof.
  intros Hs.
  unfold binary_search_by_id_recursive, students_count.
  destruct (binary_search_fuel_spec
              (Z.to_nat (Z.of_nat (length students) - 1 - 0 + 1))
              students target 0 (Z.of_nat (length students) - 1) Hs)
    as (r & Hr & Hres); try lia.
  exists r. split; [done|].
  destruct Hres as [[-> Hnone]|[Hrange Hid]]; [left|right].
  - split; [done|]. intros Hin.
    apply list_elem_of_fmap in Hin as (s & -> & Hin).
    apply list_elem_of_lookup_1 in Hin as [k Hk].
    apply (Hnone (Z.of_nat k)).
    + apply lookup_lt_Some in Hk. lia.
    + rewrite Nat2Z.id. by rewrite (at_index_lookup _ _ _ Hk).
  - exists (at_index students (Z.to_nat r)). split; [|done].
    apply get_student_by_index_lookup. split; [lia|].
    unfold at_index. apply list_lookup_lookup_total_lt. lia.
Qed.

(** C3: on a store sorted ascending by id,
    [binary_search_by_id_recursive (target, 0, count - 1)] returns the
    position of a record holding [target] when there is one, and the
    sentinel [-1] when there is none; a call on an empty interval
    ([left > right]) returns the sentinel at once, and the sentinel is
    returned in no other way. *)
Theorem binary_search_by_id_correct (students : list Student) (target : Z) :
  Sorted Z.le (id <$> students) ->
  let count := students_count students in
  (forall left right, right < left ->
     binary_search_by_id_recursive students target left right = Some (-1)) /\
  (target ∈ id <$> students ->
     exists idx s,
       binary_search_by_id_recursive students target 0 (count - 1) = Some idx /\
       get_student_by_index students idx = Some s /\ id s = target) /\
  (target ∉ id <$> students ->
     binary_search_by_id_recursive students target 0 (count - 1) = Some (-1)) /\
  (binary_search_by_id_recursive students target 0 (count - 1) = Some (-1) ->
     target ∉ id <$> students).
Proof.
  intros Hs count.
  destruct (binary_search_whole_store students target Hs) as (r & Hr & Hres).
  fold count in Hr.
  split; [|split; [|split]].
  - intros left right Hlt. unfold binary_search_by_id_recursive.
    destruct (Z.to_nat (right - left + 1)); simpl;
      destruct (Z.ltb_spec right left); try done; lia.
  - intros Hin. destruct Hres as [[_ Hn]|(s & Hget & Hid)]; [done|].
    by exists r, s.
  - intros Hn. destruct Hres as [[-> _]|(s & Hget & Hid)]; [done|].
    apply get_student_by_index_lookup in Hget as [_ Hget].
    exfalso. apply Hn. apply list_elem_of_fmap. exists s. split; [done|].
    by apply list_elem_of_lookup_2 in Hget.
  - intros Hm1. rewrite Hr in Hm1. injection Hm1 as ->.
    destruct Hres as [[_ Hn]|(s & Hget & _)]; [done|].
    apply get_student_by_index_lookup in Hget as [Hge _]. lia.
Qed.

Lemma binary_search_by_id_correct_witness :
  exists idx s,
    binary_search_by_id_recursive
      [mkStudent 1 "A" [] f32_zero; mkStudent 3 "C" [] f32_zero;
       mkStudent 5 "E" [] f32_zero] 5 0 (3 - 1) = Some idx /\
    get_student_by_index
      [mkStudent 1 "A" [] f32_zero; mkStudent 3 "C" [] f32_zero;
       mkStudent 5 "E" [] f32_zero] idx = Some s /\ id s = 5.
Proof.
  refine (proj1 (proj2 (binary_search_by_id_correct
           [mkStudent 1 "A" [] f32_zero; mkStudent 3 "C" [] f32_zero;
            mkStudent 5 "E" [] f32_zero] 5 _)) _).
  - simpl. repeat constructor; lia.
  - simpl. rewrite !elem_of_cons. auto.
Defined.

(** ** Sorting by id *)

Lemma StronglySorted_ids (l : list Student) :
  key_consistent SORT_BY_ID l ->
  StronglySorted (key_le SORT_BY_ID) l -> StronglySorted Z.le (id <$> l).
Proof.
  intros Hk Hs. revert Hk.
  induction Hs as [|a l Hs IH Ha]; intros Hk; [constructor|].
  rewrite fmap_cons. constructor.
  - apply IH. intros x y Hx Hy. apply Hk; by right.
  - rewrite Forall_forall in Ha. rewrite Forall_forall.
    intros z Hz. apply list_elem_of_fmap in Hz as (b & -> & Hb).
    specialize (Ha b Hb). unfold key_le, cmp_students in Ha.
    rewrite wrap32_small in Ha; [lia|].
    apply Hk; [by left|by right].
Qed.

(** Where no subtraction of two ids overflows, sorting by id leaves the ids
    in ascending order. *)
Lemma sort_students_by_id_ascending (method : SortMethod) (l : list Student) :
  key_consistent SORT_BY_ID l ->
  Sorted Z.le (id <$> sort_students method SORT_BY_ID l).
Proof.
  intros Hk.
  pose proof (sort_students_sorted method SORT_BY_ID l Hk) as Hs.
  pose proof (sort_students_perm method SORT_BY_ID l) as Hp.
  apply StronglySorted_Sorted, StronglySorted_ids; [|done].
  intros x y Hx Hy. rewrite Hp in Hx, Hy. by apply Hk.
Qed.

(** Sorting by id and then searching finds every id of the store, as
    [search_menu] does. *)
Lemma search_after_sort (l : list Student) (target : Z) :
  key_consistent SORT_BY_ID l -> target ∈ id <$> l ->
  let sorted := sort_students MERGE SORT_BY_ID l in
  exists idx s,
    binary_search_by_id_recursive sorted target 0 (students_count sorted - 1)
      = Some idx /\
    get_student_by_index sorted idx = Some s /\ id s = target /\ s ∈ l.
Proof.
  intros Hk Hin sorted.
  pose proof (sort_students_perm MERGE SORT_BY_ID l) as Hp. fold sorted in Hp.
  destruct (binary_search_whole_store sorted target
              (sort_students_by_id_ascending MERGE l Hk))
    as (r & Hr & [[_ Hn]|(s & Hget & Hid)]).
  { exfalso. apply Hn. by rewrite Hp. }
  exists r, s. repeat split; try done.
  apply get_student_by_index_lookup in Hget as [_ Hget].
  apply list_elem_of_lookup_2 in Hget. by rewrite Hp in Hget.
Qed.

(** C5 fails on the code: [cmp_students] subtracts the ids as [int]s, and
    [INT_MIN - 1] wraps to [INT_MAX], so the record of id [INT_MIN] compares
    greater than the record of id 1.  Every method then puts the reachable
    store [INT_MIN, 1], which is in ascending order, in the order
    [1, INT_MIN]. *)
Theorem sort_by_id_overflow :
  let students := store_of [(-2147483648, "A", []); (1, "B", [])]%string in
  let a := mkStudent (-2147483648) "A" [] f32_zero in
  let b := mkStudent 1 "B" [] f32_zero in
  reachable students /\ students = [a; b] /\
  int_range (id a) /\ int_range (id b) /\ id a < id b /\
  cmp_students a b SORT_BY_ID = 2147483647 /\
  (forall method,
     id <$> sort_students method SORT_BY_ID students = [1; -2147483648]) /\
  (forall method,
     ~ Sorted Z.le (id <$> sort_students method SORT_BY_ID students)).
Proof.
  intros students a b.
  assert (Hsort : forall method,
            id <$> sort_students method SORT_BY_ID students = [1; -2147483648])
    by (by intros []).
  split; [apply reachable_store_of; repeat constructor; by vm_compute|].
  split; [done|].
  split; [by vm_compute|]. split; [by vm_compute|].
  split; [done|]. split; [done|]. split; [done|].
  intros method Hs. rewrite Hsort in Hs.
  apply Sorted_inv in Hs as [_ Hs]. apply HdRel_inv in Hs. lia.
Qed.

(** ** The scenarios of the specification *)

Example scenario_add_duplicate :
  let s1 := snd (add_student 1 (Some "A"%string) init_students) in
  let s2 := snd (add_student 2 (Some "B"%string) s1) in
  add_student 1 (Some "C"%string) s2 = (false, s2) /\ students_count s2 = 2.
Proof. by vm_compute. Qed.

Example scenario_grades_delete :
  let st := store_of [(1, "A", [f32_of_int 80; f32_of_int 90]);
                      (2, "B", [])]%string in
  average <$> st = [f32_of_int 85; f32_zero] /\
  id <$> snd (delete_student 1 st) = [2] /\
  id <$> get_student_by_index (snd (delete_student 1 st)) 0 = Some 2.
Proof. by vm_compute. Qed.

Example scenario_merge_sort_by_id :
  id <$> sort_students MERGE SORT_BY_ID (store_of [(5, "e", []); (3, "c", []);
                                                  (1, "a", [])]%string)
    = [1; 3; 5].
Proof. by vm_compute. Qed.

(** On a store already in order the first pass of [bubble_sort] swaps
    nothing and the outer loop stops after it. *)
Example scenario_bubble_sorted_input :
  let st := store_of [(1, "a", []); (3, "c", []); (5, "e", [])]%string in
  bubble_inner SORT_BY_ID (length st - 1 - 0) 0 st false = (st, false) /\
  bubble_sort SORT_BY_ID st = st.
Proof. by vm_compute. Qed.

(** * Further properties of the record store *)

(** ** Names: the truncation of [strncpy (dst, src, NAME_LEN - 1)] *)

Lemma substring_0_length (n : nat) (s : string) :
  String.length (String.substring 0 n s) = Nat.min n (String.length s).
Proof.
  revert s. induction n as [|n IH]; intros [|c s]; simpl; try done.
  by rewrite IH.
Qed.

Lemma substring_0_prefix (n : nat) (s : string) :
  String.prefix (String.substring 0 n s) s = true.
Proof.
  revert s. induction n as [|n IH]; intros [|c s]; simpl; try done.
  destruct (Ascii.ascii_dec c c); [apply IH|done].
Qed.

Lemma substring_0_all (n : nat) (s : string) :
  (String.length s <= n)%nat -> String.substring 0 n s = s.
Proof.
  revert s. induction n as [|n IH]; intros [|c s]; simpl; try done; try lia.
  intros Hl. f_equal. apply IH. lia.
Qed.

Lemma copy_name_length (src : string) :
  (String.length (copy_name src) <= 49)%nat.
Proof.
  unfold copy_name. rewrite substring_0_length.
  change (NAME_LEN - 1)%nat with 49%nat. lia.
Qed.

(** X1: the name stored for [src] is the longest prefix of [src] of at most
    49 characters: [src] itself when it fits, its first 49 characters
    otherwise. *)
Theorem copy_name_truncates (src : string) :
  String.length (copy_name src) = Nat.min 49 (String.length src) /\
  String.prefix (copy_name src) src = true /\
  ((String.length src <= 49)%nat -> copy_name src = src).
Proof.
  unfold copy_name. change (NAME_LEN - 1)%nat with 49%nat.
  split; [apply substring_0_length|].
  split; [apply substring_0_prefix|apply substring_0_all].
Qed.

Lemma copy_name_truncates_witness :
  (String.length "Alice" <= 49)%nat /\ copy_name "Alice" = "Alice"%string.
Proof.
  split; [simpl; lia|].
  apply (proj2 (proj2 (copy_name_truncates "Alice"))). simpl; lia.
Defined.

(** ** Adding a record, and finding it *)

Lemma get_student_by_index_snoc (l : list Student) (s : Student) (idx : Z) :
  get_student_by_index (l ++ [s]) idx =
    if idx =? students_count l then Some s else get_student_by_index l idx.
Proof.
  unfold get_student_by_index, students_count. rewrite length_app. simpl.
  destruct (Z.eqb_spec idx (Z.of_nat (length l))) as [->|Hne].
  - destruct (Z.ltb_spec (Z.of_nat (length l)) 0); [lia|]. simpl.
    destruct (Z.leb_spec (Z.of_nat (length l + 1)) (Z.of_nat (length l))); [lia|].
    rewrite Nat2Z.id. by apply list_lookup_middle.
  - destruct (Z.ltb_spec idx 0); simpl; [done|].
    destruct (Z.leb_spec (Z.of_nat (length l + 1)) idx),
      (Z.leb_spec (Z.of_nat (length l)) idx); try lia; try done.
    apply lookup_app_l. lia.
Qed.

(** X2: [add_student] with an id that is not in the store returns true and
    puts the new record, with no grade, a zero average and the truncated
    name, at the end: the count grows by one, [index_of_id] finds the id at
    the former count, [get_student_by_index] returns the new record there,
    and every other position reads as before. *)
Theorem add_student_then_lookup (t : Z) (nm : option string)
    (students : list Student) :
  t ∉ id <$> students ->
  let students' := snd (add_student t nm students) in
  let new := mkStudent t (copy_name (default EmptyString nm)) [] f32_zero in
  fst (add_student t nm students) = true /\
  students_count students' = students_count students + 1 /\
  index_of_id students' t = students_count students /\
  get_student_by_index students' (students_count students) = Some new /\
  (forall idx, idx <> students_count students ->
     get_student_by_index students' idx = get_student_by_index students idx).
Proof.
  intros Hn. cbv zeta. rewrite add_student_fresh by done. simpl.
  split; [done|]. split; [|split; [|split]].
  - unfold students_count. rewrite length_app. simpl. lia.
  - pose proof (index_of_id_found students []
                  (mkStudent t (copy_name (default EmptyString nm)) [] f32_zero))
      as H. simpl in H. by apply H.
  - rewrite get_student_by_index_snoc. by rewrite Z.eqb_refl.
  - intros idx Hidx. rewrite get_student_by_index_snoc.
    by destruct (Z.eqb_spec idx (students_count students)).
Qed.

Lemma add_student_then_lookup_witness :
  get_student_by_index
    (snd (add_student 7 (Some "Bob"%string)
            [mkStudent 1 "Al" [] f32_zero])) 1
  = Some (mkStudent 7 "Bob" [] f32_zero).
Proof.
  refine (proj1 (proj2 (proj2 (proj2
    (add_student_then_lookup 7 (Some "Bob"%string)
       [mkStudent 1 "Al" [] f32_zero] _))))).
  simpl. rewrite list_elem_of_singleton. lia.
Defined.

(** X3: [index_of_id] returns [-1] exactly when no record holds the id;
    otherwise it returns a position of the store, the record at that
    position holds the id, and no record before it does. *)
Theorem index_of_id_first_position (students : list Student) (t : Z) :
  (index_of_id students t = -1 <-> t ∉ id <$> students) /\
  (index_of_id students t <> -1 ->
     0 <= index_of_id students t < students_count students /\
     (exists s, get_student_by_index students (index_of_id students t) = Some s
                /\ id s = t) /\
     (forall j s, j < index_of_id students t ->
        get_student_by_index students j = Some s -> id s <> t)).
Proof.
  split; [apply index_of_id_absent|]. intros Hne.
  destruct (decide (t ∈ id <$> students)) as [Hin|Hn];
    [|by apply index_of_id_absent in Hn].
  destruct (first_occurrence students t Hin) as (l1 & s & l2 & -> & <- & Hn).
  rewrite index_of_id_found by done.
  split; [|split].
  - unfold students_count. rewrite length_app. simpl. lia.
  - exists s. split; [|done]. apply get_student_by_index_lookup.
    split; [lia|]. rewrite Nat2Z.id. by apply list_lookup_middle.
  - intros j s' Hj Hs' Heq. apply get_student_by_index_lookup in Hs' as [Hj0 Hs'].
    rewrite lookup_app_l in Hs' by lia.
    apply Hn. rewrite <- Heq. apply list_elem_of_fmap. exists s'.
    split; [done|]. by apply list_elem_of_lookup_2 in Hs'.
Qed.

Lemma index_of_id_first_position_witness :
  0 <= index_of_id [mkStudent 4 "a" [] f32_zero; mkStudent 9 "b" [] f32_zero] 9
    < students_count [mkStudent 4 "a" [] f32_zero; mkStudent 9 "b" [] f32_zero]
  /\
  (exists s,
     get_student_by_index
       [mkStudent 4 "a" [] f32_zero; mkStudent 9 "b" [] f32_zero]
       (index_of_id
          [mkStudent 4 "a" [] f32_zero; mkStudent 9 "b" [] f32_zero] 9)
     = Some s /\ id s = 9) /\
  (forall j s,
     j < index_of_id
           [mkStudent 4 "a" [] f32_zero; mkStudent 9 "b" [] f32_zero] 9 ->
     get_student_by_index
       [mkStudent 4 "a" [] f32_zero; mkStudent 9 "b" [] f32_zero] j = Some s ->
     id s <> 9).
Proof.
  apply (proj2 (index_of_id_first_position
                  [mkStudent 4 "a" [] f32_zero; mkStudent 9 "b" [] f32_zero]
                  9)).
  by vm_compute.
Defined.

(** ** Renaming and deleting *)

(** X4: [update_student_name] returns false and leaves the store as it was
    when the id is absent; otherwise it returns true and replaces the name of
    the first record holding the id by the truncated new name, and nothing
    else: the id, grades and average of that record, the other records and
    the order are the same. *)
Theorem update_student_name_effect (t : Z) (nm : string)
    (students : list Student) :
  (t ∉ id <$> students ->
     update_student_name t nm students = (false, students)) /\
  (t ∈ id <$> students ->
     exists l1 s l2 s',
       students = l1 ++ s :: l2 /\ id s = t /\ (t ∉ id <$> l1) /\
       update_student_name t nm students = (true, l1 ++ s' :: l2) /\
       name s' = copy_name nm /\
       id s' = id s /\ grades s' = grades s /\ average s' = average s).
Proof.
  split; [apply update_student_name_absent|]. intros Hin.
  destruct (first_occurrence students t Hin) as (l1 & s & l2 & -> & <- & Hn).
  exists l1, s, l2, (renamed s nm).
  split; [done|]. split; [done|]. split; [done|].
  split; [by apply update_student_name_present|done].
Qed.

Lemma update_student_name_effect_witness :
  exists l1 s l2 s',
    [mkStudent 1 "a" [] f32_zero; mkStudent 2 "b" [] f32_zero]
      = l1 ++ s :: l2 /\
    id s = 2 /\ (2 ∉ id <$> l1) /\
    update_student_name 2 "Zed"
      [mkStudent 1 "a" [] f32_zero; mkStudent 2 "b" [] f32_zero]
      = (true, l1 ++ s' :: l2) /\
    name s' = copy_name "Zed" /\
    id s' = id s /\ grades s' = grades s /\ average s' = average s.
Proof.
  apply (proj2 (update_student_name_effect 2 "Zed"
                  [mkStudent 1 "a" [] f32_zero; mkStudent 2 "b" [] f32_zero])).
  apply list_elem_of_In. simpl. auto.
Defined.

(** X5: deleting the id of a record just added by a successful [add_student]
    gives back the store as it was before the addition. *)
Theorem add_then_delete_restores (t : Z) (nm : option string)
    (students : list Student) :
  t ∉ id <$> students ->
  delete_student t (snd (add_student t nm students)) = (true, students).
Proof.
  intros Hn. rewrite add_student_fresh by done. simpl.
  pose proof (delete_student_present students []
                (mkStudent t (copy_name (default EmptyString nm)) [] f32_zero))
    as H. simpl in H. rewrite H by done. by rewrite app_nil_r.
Qed.

Lemma add_then_delete_restores_witness :
  delete_student 3 (snd (add_student 3 (Some "c"%string)
                           [mkStudent 1 "a" [] f32_zero]))
  = (true, [mkStudent 1 "a" [] f32_zero]).
Proof.
  apply (add_then_delete_restores 3 (Some "c"%string)
           [mkStudent 1 "a" [] f32_zero]).
  simpl. rewrite list_elem_of_singleton. lia.
Defined.

(** X6: in a store with pairwise distinct ids, deleting a present id makes it
    absent: [index_of_id] no longer finds it, the count drops by one, the
    records left are exactly those with another id, and the id can be added
    again. *)
Theorem delete_student_removes_id (t : Z) (students : list Student) :
  NoDup (id <$> students) -> t ∈ id <$> students ->
  let students' := snd (delete_student t students) in
  fst (delete_student t students) = true /\
  (t ∉ id <$> students') /\
  index_of_id students' t = -1 /\
  students_count students' = students_count students - 1 /\
  (forall s, s ∈ students' <-> s ∈ students /\ id s <> t) /\
  (forall nm, fst (add_student t nm students') = true).
Proof.
  intros Hnd Hin. cbv zeta.
  destruct (first_occurrence students t Hin) as (l1 & s & l2 & -> & <- & Hn).
  rewrite delete_student_present by done. simpl.
  rewrite fmap_app, fmap_cons in Hnd.
  apply NoDup_app in Hnd as (Hn1 & Hd & Hn2).
  apply NoDup_cons in Hn2 as [Hs Hn2].
  assert (Habs : id s ∉ id <$> l1 ++ l2).
  { rewrite fmap_app. intros [H|H]%elem_of_app; [by apply Hn|by apply Hs]. }
  split; [done|]. split; [done|]. split; [by apply index_of_id_absent|].
  split; [|split].
  - unfold students_count. rewrite !length_app. simpl. lia.
  - intros x. rewrite !elem_of_app, elem_of_cons. split.
    + intros Hx. split; [tauto|]. intros Heq. apply Habs. rewrite <- Heq.
      apply list_elem_of_fmap. exists x. split; [done|].
      by apply elem_of_app.
    + intros [[H|[->|H]] Hne]; [by left|done|by right].
  - intros nm. by rewrite add_student_fresh.
Qed.

Lemma delete_student_removes_id_witness :
  index_of_id
    (snd (delete_student 1
            [mkStudent 1 "a" [] f32_zero; mkStudent 2 "b" [] f32_zero])) 1
  = -1.
Proof.
  refine (proj1 (proj2 (proj2
    (delete_student_removes_id 1
       [mkStudent 1 "a" [] f32_zero; mkStudent 2 "b" [] f32_zero] _ _)))).
  - simpl. apply NoDup_cons. split.
    + rewrite list_elem_of_singleton. lia.
    + apply NoDup_singleton.
  - simpl. left.
Defined.

(** ** Names in the stores the program can reach *)

(** X7: in every reachable store each name fits the [name] field: it has at
    most 49 characters, leaving room for the terminator. *)
Theorem reachable_names_bounded (students : list Student) :
  reachable students ->
  Forall (fun s => (String.length (name s) <= 49)%nat) students.
Proof.
  induction 1 as [|t nm st Hr _ IH|t st _ IH|t nm st _ IH|t g st _ IH
                 |method key st _ IH].
  - apply Forall_nil_2.
  - destruct (decide (t ∈ id <$> st)) as [Hin|Hn].
    + by rewrite add_student_duplicate.
    + rewrite add_student_fresh by done. simpl.
      apply Forall_app. split; [done|]. apply Forall_singleton. simpl.
      apply copy_name_length.
  - destruct (decide (t ∈ id <$> st)) as [Hin|Hn].
    + destruct (first_occurrence st t Hin) as (l1 & s & l2 & -> & <- & Hn).
      rewrite delete_student_present by done. simpl.
      apply Forall_app in IH as [H1 H2]. apply Forall_cons in H2 as [_ H2].
      by apply Forall_app.
    + by rewrite delete_student_absent.
  - destruct (decide (t ∈ id <$> st)) as [Hin|Hn].
    + destruct (first_occurrence st t Hin) as (l1 & s & l2 & -> & <- & Hn).
      rewrite update_student_name_present by done. simpl.
      apply Forall_app in IH as [H1 H2]. apply Forall_cons in H2 as [_ H2].
      apply Forall_app. split; [done|]. apply Forall_cons. split; [|done].
      apply copy_name_length.
    + by rewrite update_student_name_absent.
  - destruct (decide (t ∈ id <$> st)) as [Hin|Hn].
    + destruct (first_occurrence st t Hin) as (l1 & s & l2 & -> & <- & Hn).
      rewrite add_grade_to_student_present by done. simpl.
      destruct (graded_average s g) as (_ & _ & _ & Hnm).
      apply Forall_app in IH as [H1 H2]. apply Forall_cons in H2 as [Hs H2].
      apply Forall_app. split; [done|]. apply Forall_cons. split; [|done].
      by rewrite Hnm.
    + by rewrite add_grade_to_student_absent.
  - pose proof (sort_students_perm method key st) as Hp. by rewrite Hp.
Qed.

Lemma reachable_names_bounded_witness :
  Forall (fun s => (String.length (name s) <= 49)%nat)
    (snd (add_student 1 (Some "Alice"%string) init_students)).
Proof.
  apply reachable_names_bounded. apply reach_add; [by vm_compute|].
  apply reach_init.
Defined.

(** ** Sorting: the order of the output *)

Lemma StronglySorted_impl_on {A : Type} (R R' : A -> A -> Prop)
    (D : A -> Prop) (l : list A) :
  (forall a b, D a -> D b -> R a b -> R' a b) ->
  Forall D l -> StronglySorted R l -> StronglySorted R' l.
Proof.
  intros HR HD Hs. induction Hs as [|a l Hs IH Ha]; [constructor|].
  apply Forall_cons in HD as [Da HD]. constructor; [by apply IH|].
  rewrite Forall_forall in Ha, HD |- *. intros x Hx. apply HR; auto.
Qed.

(** X8: when no average is NaN, sorting by average with any of the three
    methods leaves the averages in ascending order: every record's average
    is less than or equal to that of every record after it. *)
Theorem sort_students_by_average_ascending (method : SortMethod)
    (students : list Student) :
  no_nan_average students ->
  StronglySorted (fun a b => f32_le (average a) (average b) = true)
    (sort_students method SORT_BY_AVG students).
Proof.
  intros Hnan.
  pose proof (sort_students_sorted method SORT_BY_AVG students Hnan) as Hs.
  apply (StronglySorted_impl_on (key_le SORT_BY_AVG) _
           (fun s => is_nan (average s) = false)); [| |done].
  - intros a b Ha Hb Hab. apply f32_le_not_gt; [done|done|].
    by apply key_le_by_average.
  - unfold no_nan_average in Hnan.
    by rewrite (sort_students_perm method SORT_BY_AVG students).
Qed.

Lemma sort_students_by_average_ascending_witness :
  StronglySorted (fun a b => f32_le (average a) (average b) = true)
    (sort_students BUBBLE SORT_BY_AVG
       [mkStudent 1 "a" [f32_of_int 90] (f32_of_int 90);
        mkStudent 2 "b" [f32_of_int 60] (f32_of_int 60)]).
Proof.
  apply sort_students_by_average_ascending.
  repeat constructor.
Defined.

Lemma nonneg_ids_consistent (l : list Student) :
  Forall (fun s => 0 <= id s <= INT_MAX) l -> key_consistent SORT_BY_ID l.
Proof.
  rewrite Forall_forall. intros H a b Ha Hb.
  pose proof (H a Ha). pose proof (H b Hb). unfold INT_MIN, INT_MAX in *. lia.
Qed.

(** X9: when no difference of two ids of the store leaves the [int] range,
    sorting by id with any of the three methods leaves the ids in ascending
    order; this is so in particular when no id is negative. *)
Theorem sort_students_by_id_ascending_ids (method : SortMethod)
    (students : list Student) :
  (key_consistent SORT_BY_ID students ->
     StronglySorted Z.le (id <$> sort_students method SORT_BY_ID students)) /\
  (Forall (fun s => 0 <= id s <= INT_MAX) students ->
     StronglySorted Z.le (id <$> sort_students method SORT_BY_ID students)).
Proof.
  assert (H : key_consistent SORT_BY_ID students ->
     StronglySorted Z.le (id <$> sort_students method SORT_BY_ID students)).
  { intros Hk. apply Sorted_StronglySorted; [intros x y z; lia|].
    by apply sort_students_by_id_ascending. }
  split; [done|]. intros Hp. by apply H, nonneg_ids_consistent.
Qed.

Lemma sort_students_by_id_ascending_ids_witness :
  StronglySorted Z.le
    (id <$> sort_students INSERTION SORT_BY_ID
       [mkStudent 5 "e" [] f32_zero; mkStudent 3 "c" [] f32_zero;
        mkStudent 1 "a" [] f32_zero]).
Proof.
  apply (proj2 (sort_students_by_id_ascending_ids INSERTION
                  [mkStudent 5 "e" [] f32_zero; mkStudent 3 "c" [] f32_zero;
                   mkStudent 1 "a" [] f32_zero])).
  repeat constructor; by vm_compute.
Defined.

(** X10: a store in which no record compares greater than the next one is
    left exactly as it is by [sort_students]: by bubble and insertion sort
    for every key, by merge sort when the key is consistent on the store (no
    NaN average, no id difference outside the [int] range). *)
Theorem sort_students_in_order_unchanged (method : SortMethod) (key : SortKey)
    (students : list Student) :
  (method = MERGE -> key_consistent key students) ->
  Sorted (key_le key) students ->
  sort_students method key students = students.
Proof.
  intros Hk Hs.
  destruct method;
    [by apply sort_students_Sorted_id|by apply sort_students_Sorted_id|].
  apply sort_students_sorted_id.
  apply (Sorted_StronglySorted_on key (fun s => s ∈ students)); [| |done].
  - by apply key_consistent_trans, Hk.
  - by apply Forall_forall.
Qed.

Lemma sort_students_in_order_unchanged_witness :
  sort_students MERGE SORT_BY_ID
    [mkStudent 1 "a" [] f32_zero; mkStudent 3 "c" [] f32_zero;
     mkStudent 5 "e" [] f32_zero]
  = [mkStudent 1 "a" [] f32_zero; mkStudent 3 "c" [] f32_zero;
     mkStudent 5 "e" [] f32_zero].
Proof.
  apply sort_students_in_order_unchanged.
  - intros _. apply nonneg_ids_consistent. repeat constructor; by vm_compute.
  - repeat constructor; by vm_compute.
Defined.

(** X11: bubble sort and insertion sort leave every store, under every key,
    with no record comparing greater than the next one; this needs no
    assumption on the ids or the averages. *)
Theorem bubble_insertion_adjacent_in_order (method : SortMethod)
    (key : SortKey) (students : list Student) :
  method <> MERGE ->
  Sorted (key_le key) (sort_students method key students).
Proof. apply sort_students_Sorted. Qed.

Lemma bubble_insertion_adjacent_in_order_witness :
  Sorted (key_le SORT_BY_AVG)
    (sort_students BUBBLE SORT_BY_AVG
       [mkStudent 1 "a" [] S754_nan; mkStudent 2 "b" [] f32_zero]).
Proof. by apply bubble_insertion_adjacent_in_order. Defined.

(** ** Merge sort on a segment *)

(** X12: [merge_range] on two adjacent runs, each in order under a consistent
    key, writes their merge over them: the segment becomes a run in order
    holding the same records, and the records outside the segment are not
    touched. *)
Theorem merge_range_merges (key : SortKey) (pre L R suf : list Student) :
  (1 <= length L)%nat ->
  key_consistent key (L ++ R) ->
  StronglySorted (key_le key) L -> StronglySorted (key_le key) R ->
  exists seg,
    merge_range (length pre) (length pre + length L - 1)
      (length pre + length L - 1 + length R) key (pre ++ L ++ R ++ suf)
      = pre ++ seg ++ suf /\
    seg ≡ₚ L ++ R /\ StronglySorted (key_le key) seg.
Proof.
  intros HL Hk HsL HsR. exists (merge_lists key L R).
  split; [by apply merge_range_lists|]. split; [apply merge_lists_perm|].
  apply (merge_lists_sorted key (fun s => s ∈ L ++ R)).
  - by apply key_consistent_trans.
  - apply Forall_forall. intros x Hx. apply elem_of_app. by left.
  - apply Forall_forall. intros x Hx. apply elem_of_app. by right.
  - done.
  - done.
Qed.

Lemma merge_range_merges_witness :
  exists seg,
    merge_range 1 2 3 SORT_BY_ID
      [mkStudent 9 "z" [] f32_zero; mkStudent 2 "b" [] f32_zero;
       mkStudent 6 "f" [] f32_zero; mkStudent 4 "d" [] f32_zero;
       mkStudent 0 "o" [] f32_zero]
      = [mkStudent 9 "z" [] f32_zero] ++ seg ++ [mkStudent 0 "o" [] f32_zero] /\
    seg ≡ₚ [mkStudent 2 "b" [] f32_zero; mkStudent 6 "f" [] f32_zero]
           ++ [mkStudent 4 "d" [] f32_zero] /\
    StronglySorted (key_le SORT_BY_ID) seg.
Proof.
  apply (merge_range_merges SORT_BY_ID [mkStudent 9 "z" [] f32_zero]
           [mkStudent 2 "b" [] f32_zero; mkStudent 6 "f" [] f32_zero]
           [mkStudent 4 "d" [] f32_zero] [mkStudent 0 "o" [] f32_zero]).
  - simpl. lia.
  - apply nonneg_ids_consistent. repeat constructor; by vm_compute.
  - repeat constructor; by vm_compute.
  - repeat constructor.
Defined.

(** X13: [merge_sort_recursive (left, right)] sorts the segment
    [left .. right] and nothing else: the records before [left] and after
    [right] stay where they are, the segment keeps its records, and under a
    consistent key it ends up in order. *)
Theorem merge_sort_recursive_segment (key : SortKey)
    (pre seg suf : list Student) :
  (1 <= length seg)%nat ->
  exists seg',
    merge_sort_recursive (length pre) (length pre + length seg - 1) key
      (pre ++ seg ++ suf) = pre ++ seg' ++ suf /\
    seg' ≡ₚ seg /\
    (key_consistent key seg -> StronglySorted (key_le key) seg').
Proof.
  intros Hl. exists (merge_sort_list key (length seg - 1) seg).
  split; [|split].
  - unfold merge_sort_recursive.
    replace (length pre + length seg - 1 - length pre)%nat
      with (length seg - 1)%nat by lia.
    by apply merge_sort_fuel_list.
  - apply merge_sort_list_perm.
  - intros Hk.
    apply (merge_sort_list_sorted key (fun s => s ∈ seg)).
    + by apply key_consistent_trans.
    + lia.
    + by apply Forall_forall.
Qed.

Lemma merge_sort_recursive_segment_witness :
  exists seg',
    merge_sort_recursive 1 2 SORT_BY_ID
      [mkStudent 9 "z" [] f32_zero; mkStudent 6 "f" [] f32_zero;
       mkStudent 2 "b" [] f32_zero; mkStudent 0 "o" [] f32_zero]
      = [mkStudent 9 "z" [] f32_zero] ++ seg' ++ [mkStudent 0 "o" [] f32_zero] /\
    seg' ≡ₚ [mkStudent 6 "f" [] f32_zero; mkStudent 2 "b" [] f32_zero] /\
    (key_consistent SORT_BY_ID
       [mkStudent 6 "f" [] f32_zero; mkStudent 2 "b" [] f32_zero] ->
     StronglySorted (key_le SORT_BY_ID) seg').
Proof.
  apply (merge_sort_recursive_segment SORT_BY_ID [mkStudent 9 "z" [] f32_zero]
           [mkStudent 6 "f" [] f32_zero; mkStudent 2 "b" [] f32_zero]
           [mkStudent 0 "o" [] f32_zero]).
  simpl. lia.
Defined.

(** ** Binary search without the ordering precondition *)

Lemma binary_search_fuel_sound (fuel : nat) (l : list Student)
    (target left right : Z) :
  right - left + 1 <= Z.of_nat fuel ->
  exists r,
    binary_search_fuel fuel l target left right = Some r /\
    (r = -1 \/ (left <= r <= right /\ id (at_index l (Z.to_nat r)) = target)).
Proof.
  revert left right.
  induction fuel as [|fuel IH]; intros left right Hf.
  - simpl. destruct (Z.ltb_spec right left); [|lia].
    exists (-1). split; [done|]. by left.
  - cbn [binary_search_fuel].
    destruct (Z.ltb_spec right left).
    { exists (-1). split; [done|]. by left. }
    assert (Hq : Z.quot (right - left) 2 = (right - left) / 2)
      by (apply Z.quot_div_nonneg; lia).
    rewrite Hq.
    pose proof (Z.div_pos (right - left) 2 ltac:(lia) ltac:(lia)) as Hq0.
    pose proof (Z.mul_div_le (right - left) 2 ltac:(lia)) as Hq1.
    set (mid := left + (right - left) / 2) in *.
    assert (Hmid : left <= mid <= right) by (unfold mid; lia).
    destruct (Z.eqb_spec (id (at_index l (Z.to_nat mid))) target) as [Heq|Hne].
    { exists mid. split; [done|]. by right. }
    destruct (Z.gtb_spec (id (at_index l (Z.to_nat mid))) target) as [Hgt|Hle].
    + destruct (IH left (mid - 1) ltac:(lia)) as (r & Hr' & Hres).
      exists r. split; [done|].
      destruct Hres as [->|[Hin Hfound]]; [by left|right; split; [lia|done]].
    + destruct (IH (mid + 1) right ltac:(lia)) as (r & Hr' & Hres).
      exists r. split; [done|].
      destruct Hres as [->|[Hin Hfound]]; [by left|right; split; [lia|done]].
Qed.

(** X14: on any store, in order or not, a call of
    [binary_search_by_id_recursive] on an interval of positions of the store
    returns; what it returns is the sentinel [-1] or a position of the
    interval whose record holds the target id, never the position of another
    record. *)
Theorem binary_search_by_id_sound (students : list Student)
    (target left right : Z) :
  0 <= left -> right < students_count students ->
  exists r,
    binary_search_by_id_recursive students target left right = Some r /\
    (r = -1 \/
     (left <= r <= right /\
      exists s, get_student_by_index students r = Some s /\ id s = target)).
Proof.
  intros Hl Hr. unfold binary_search_by_id_recursive.
  destruct (binary_search_fuel_sound (Z.to_nat (right - left + 1)) students
              target left right ltac:(lia)) as (r & Hres & Hcase).
  exists r. split; [done|].
  destruct Hcase as [->|[Hin Hid]]; [by left|right]. split; [done|].
  unfold students_count in Hr.
  destruct (lookup_lt_is_Some_2 students (Z.to_nat r) ltac:(lia)) as [s Hs].
  exists s. split.
  - apply get_student_by_index_lookup. split; [lia|done].
  - rewrite <- Hid. unfold at_index.
    by rewrite (list_lookup_total_correct _ _ _ Hs).
Qed.

Lemma binary_search_by_id_sound_witness :
  exists r,
    binary_search_by_id_recursive
      [mkStudent 5 "e" [] f32_zero; mkStudent 3 "c" [] f32_zero;
       mkStudent 1 "a" [] f32_zero] 1 0 2 = Some r /\
    (r = -1 \/
     (0 <= r <= 2 /\
      exists s, get_student_by_index
                  [mkStudent 5 "e" [] f32_zero; mkStudent 3 "c" [] f32_zero;
                   mkStudent 1 "a" [] f32_zero] r = Some s /\ id s = 1)).
Proof.
  apply (binary_search_by_id_sound
           [mkStudent 5 "e" [] f32_zero; mkStudent 3 "c" [] f32_zero;
            mkStudent 1 "a" [] f32_zero] 1 0 2); by vm_compute.
Defined.

(** ** Statistics on any store *)

Lemma highest_lowest_scan_positions (rest pre : list Student)
    (h : float32) (hi : Z) (lo : float32) (li : Z) :
  (exists s, get_student_by_index pre hi = Some s /\ average s = h) ->
  (exists s, get_student_by_index pre li = Some s /\ average s = lo) ->
  exists h' hi' lo' li',
    highest_lowest_scan rest (Z.of_nat (length pre)) (h, hi, lo, li)
      = (h', hi', lo', li') /\
    (exists s, get_student_by_index (pre ++ rest) hi' = Some s /\
               average s = h') /\
    (exists s, get_student_by_index (pre ++ rest) li' = Some s /\
               average s = lo').
Proof.
  revert pre h hi lo li.
  induction rest as [|s rest IH]; intros pre h hi lo li Hh Hl.
  - rewrite app_nil_r. by exists h, hi, lo, li.
  - cbn [highest_lowest_scan].
    replace (pre ++ s :: rest) with ((pre ++ [s]) ++ rest)
      by (by rewrite <- app_assoc).
    replace (Z.of_nat (length pre) + 1) with (Z.of_nat (length (pre ++ [s])))
      by (rewrite length_app; simpl; lia).
    assert (Hnew : exists x, get_student_by_index (pre ++ [s])
                     (Z.of_nat (length pre)) = Some x /\ average x = average s).
    { exists s. split; [|done]. apply get_student_by_index_lookup.
      split; [lia|]. rewrite Nat2Z.id. by apply list_lookup_middle. }
    assert (Hold : forall v i,
              (exists x, get_student_by_index pre i = Some x /\ average x = v) ->
              exists x, get_student_by_index (pre ++ [s]) i = Some x /\
                        average x = v).
    { intros v i (x & Hx & Hv). exists x. split; [|done].
      apply get_student_by_index_lookup in Hx as [Hi Hx].
      apply get_student_by_index_lookup. split; [done|].
      by apply lookup_app_l_Some. }
    destruct (f32_gt (average s) h), (f32_lt (average s) lo);
      apply IH; auto.
Qed.

(** X15: on every non-empty store, NaN averages included,
    [class_highest_lowest] returns two positions of the store, and the two
    averages it returns are those of the records at these positions. *)
Theorem class_highest_lowest_positions (students : list Student) :
  students <> [] ->
  exists highest h_idx lowest l_idx,
    class_highest_lowest students = Some (highest, h_idx, lowest, l_idx) /\
    (exists s, get_student_by_index students h_idx = Some s /\
               average s = highest) /\
    (exists s, get_student_by_index students l_idx = Some s /\
               average s = lowest).
Proof.
  destruct students as [|s0 rest]; [done|]. intros _.
  unfold class_highest_lowest.
  destruct (highest_lowest_scan_positions rest [s0] (average s0) 0
              (average s0) 0) as (h & hi & lo & li & Hscan & Hh & Hl).
  - by exists s0.
  - by exists s0.
  - exists h, hi, lo, li.
    change (Z.of_nat (length [s0])) with 1 in Hscan. by rewrite Hscan.
Qed.

Lemma class_highest_lowest_positions_witness :
  exists highest h_idx lowest l_idx,
    class_highest_lowest [mkStudent 1 "a" [] S754_nan;
                          mkStudent 2 "b" [] f32_zero]
      = Some (highest, h_idx, lowest, l_idx) /\
    (exists s, get_student_by_index [mkStudent 1 "a" [] S754_nan;
                                     mkStudent 2 "b" [] f32_zero] h_idx
               = Some s /\ average s = highest) /\
    (exists s, get_student_by_index [mkStudent 1 "a" [] S754_nan;
                                     mkStudent 2 "b" [] f32_zero] l_idx
               = Some s /\ average s = lowest).
Proof.
  by apply (class_highest_lowest_positions
              [mkStudent 1 "a" [] S754_nan; mkStudent 2 "b" [] f32_zero]).
Defined.

(** ** A NaN grade *)

Lemma f32_add_nan_l (y : float32) : f32_add S754_nan y = S754_nan.
Proof. by destruct y. Qed.

Lemma f32_add_nan_r (x : float32) : f32_add x S754_nan = S754_nan.
Proof. by destruct x. Qed.

Lemma f32_div_nan_l (y : float32) : f32_div S754_nan y = S754_nan.
Proof. by destruct y. Qed.

Lemma sum_grades_recursive_nan (n : nat) (gs : list float32) :
  length gs = n -> S754_nan ∈ gs ->
  sum_grades_recursive f32_zero f32_add gs (Z.of_nat n) = S754_nan.
Proof.
  revert gs. induction (lt_wf n) as [n _ IH]. intros gs Hlen Hnan.
  destruct gs as [|g [|g' gs]].
  - by apply elem_of_nil in Hnan.
  - apply list_elem_of_singleton in Hnan as <-. simpl in Hlen. by subst n.
  - subst n.
    set (l := g :: g' :: gs) in *.
    assert (Hl : (2 <= length l)%nat) by (simpl; lia).
    pose proof (sum_grades_recursive_split f32_zero f32_add l) as Hsplit.
    cbv zeta in Hsplit. rewrite Hsplit by lia. clear Hsplit.
    assert (Hq : Z.quot (Z.of_nat (length l)) 2 = Z.of_nat (length l / 2)).
    { rewrite Z.quot_div_nonneg by lia. by rewrite Nat2Z.inj_div. }
    rewrite Hq, Nat2Z.id.
    assert (Hhalf : (1 <= length l / 2 < length l)%nat).
    { split; [by apply Nat.div_le_lower_bound|apply Nat.div_lt; lia]. }
    rewrite <- (take_drop (length l / 2) l) in Hnan.
    replace (Z.of_nat (length l) - Z.of_nat (length l / 2))
      with (Z.of_nat (length l - length l / 2)) by lia.
    apply elem_of_app in Hnan as [Hin|Hin].
    + rewrite (IH (length l / 2)%nat); [apply f32_add_nan_l|lia| |done].
      rewrite length_take. lia.
    + rewrite (IH (length l - length l / 2)%nat (ltac:(lia))
                 (drop (length l / 2) l)); [apply f32_add_nan_r| |done].
      by rewrite length_drop.
Qed.

Lemma arithmetic_mean_nan (gs : list float32) :
  S754_nan ∈ gs -> arithmetic_mean gs = S754_nan.
Proof.
  intros Hnan. unfold arithmetic_mean.
  destruct gs as [|g gs]; [by apply elem_of_nil in Hnan|].
  rewrite (sum_grades_recursive_nan (length (g :: gs))) by done.
  apply f32_div_nan_l.
Qed.

(** X16: a NaN grade makes the average NaN for good.  In every reachable
    store a record with a NaN among its grades has a NaN average; and
    [add_grade_to_student] with a NaN grade for a present id leaves that
    record with a NaN average, which further grades do not repair. *)
Theorem nan_grade_poisons_average (students : list Student) :
  reachable students ->
  (forall s, s ∈ students -> S754_nan ∈ grades s -> average s = S754_nan) /\
  (forall t more s,
     t ∈ id <$> students ->
     s ∈ add_grades t (S754_nan :: more) students -> id s = t ->
     average s = S754_nan).
Proof.
  intros Hr.
  assert (Hall : forall st, reachable st ->
            forall s, s ∈ st -> S754_nan ∈ grades s -> average s = S754_nan).
  { intros st Hst s Hs Hnan.
    destruct (reachable_invariant st Hst) as [_ Hav].
    rewrite Forall_forall in Hav. rewrite (Hav s Hs).
    by apply arithmetic_mean_nan. }
  split; [by apply Hall|].
  intros t more s Ht Hs Hid.
  destruct (reachable_invariant students Hr) as [Hnd Hav].
  destruct (first_occurrence students t Ht) as (l1 & s0 & l2 & -> & <- & Hn).
  apply Forall_app in Hav as [_ Hav]. apply Forall_cons in Hav as [Hav0 _].
  destruct (add_grades_present (S754_nan :: more) l1 l2 s0 Hn Hav0)
    as (s' & Hres & Hid' & _ & Hgr & Hav').
  rewrite Hres in Hs.
  rewrite fmap_app, fmap_cons in Hnd.
  apply NoDup_app in Hnd as (_ & _ & Hnd2).
  apply NoDup_cons in Hnd2 as [Hn2 _].
  apply elem_of_app in Hs as [Hs|Hs].
  { destruct Hn. rewrite <- Hid. apply list_elem_of_fmap. by exists s. }
  apply elem_of_cons in Hs as [->|Hs].
  - rewrite Hav'. apply arithmetic_mean_nan.
    apply elem_of_app. right. by left.
  - destruct Hn2. rewrite <- Hid. apply list_elem_of_fmap. by exists s.
Qed.

Lemma nan_grade_poisons_average_witness :
  (forall s,
     s ∈ store_of [(1, "a"%string, [S754_nan; f32_of_int 80])] ->
     S754_nan ∈ grades s -> average s = S754_nan) /\
  (forall t more s,
     t ∈ id <$> store_of [(1, "a"%string, [S754_nan; f32_of_int 80])] ->
     s ∈ add_grades t (S754_nan :: more)
           (store_of [(1, "a"%string, [S754_nan; f32_of_int 80])]) ->
     id s = t -> average s = S754_nan).
Proof.
  apply (nan_grade_poisons_average
           (store_of [(1, "a"%string, [S754_nan; f32_of_int 80])])).
  apply reachable_store_of. apply Forall_singleton. by vm_compute.
Defined.

(** * The interactive menu *)

(** ** Sequencing *)

Lemma bind_value {A B : Type} (m : IO A) (k : A -> IO B) (w w' : World)
    (a : A) :
  m w = (Value a, w') -> (m ≫= k) w = k a w'.
Proof. intros H. unfold mbind, io_bind. by rewrite H. Qed.

Lemma bind_fuel {A B : Type} (m : IO A) (k : A -> IO B) (w w' : World) :
  m w = (Fuel, w') -> (m ≫= k) w = (Fuel, w').
Proof. intros H. unfold mbind, io_bind. by rewrite H. Qed.

Lemma keeps_bind {A B : Type} (P : World -> Prop) (m : IO A)
    (k : A -> IO B) :
  keeps P m -> (forall a, keeps P (k a)) -> keeps P (m ≫= k).
Proof.
  intros Hm Hk w Hw. specialize (Hm w Hw). unfold mbind, io_bind.
  destruct (m w) as [[a| |] w']; simpl in *; [by apply Hk|done|done].
Qed.

Lemma keeps_ret {A : Type} (P : World -> Prop) (a : A) : keeps P (mret a).
Proof. by intros w Hw. Qed.

Lemma keeps_out_of_fuel {A : Type} (P : World -> Prop) :
  keeps P (@out_of_fuel A).
Proof. by intros w Hw. Qed.

Lemma keeps_null_dereference {A : Type} (P : World -> Prop) :
  keeps P (@null_dereference A).
Proof. by intros w Hw. Qed.

Lemma keeps_get_store (P : World -> Prop) : keeps P get_store.
Proof. by intros w Hw. Qed.

(** ** The store stays valid *)

Lemma world_valid_print (w : World) (c : Call) :
  (forall st, c <> SaveStudents st) -> world_valid w ->
  world_valid (mkWorld (stdin w) (calls w ++ [c]) (store w)).
Proof.
  intros Hc [Hs Hcalls]. split; [done|]. simpl.
  apply Forall_app. split; [done|]. apply Forall_singleton.
  destruct c; try done. by destruct (Hc students).
Qed.

Lemma keeps_printf (format : string) (args : list Arg) :
  keeps world_valid (printf format args).
Proof. intros w Hw. by apply world_valid_print. Qed.

Lemma keeps_puts (s : string) : keeps world_valid (puts s).
Proof. intros w Hw. by apply world_valid_print. Qed.

Lemma keeps_call_save : keeps world_valid call_save.
Proof.
  intros w [Hs Hcalls]. split; [done|]. simpl.
  apply Forall_app. split; [done|]. by apply Forall_singleton.
Qed.

Lemma keeps_read_line (n : nat) : keeps world_valid (read_line n).
Proof.
  intros w Hw. unfold read_line.
  destruct (fgets n (stdin w)) as [[buf rest]|]; [|done]. done.
Qed.

Lemma keeps_on_store {A : Type} (f : list Student -> A * list Student) :
  (forall st, store_valid st -> store_valid (snd (f st))) ->
  keeps world_valid (on_store f).
Proof.
  intros Hf w [Hs Hcalls]. unfold on_store.
  specialize (Hf (store w) Hs). destruct (f (store w)) as [a st]. by split.
Qed.

Ltac keeps_io :=
  repeat lazymatch goal with
  | |- keeps _ (mbind _ _) => apply keeps_bind; [|intros ?]
  | |- keeps _ (mret _) => apply keeps_ret
  | |- keeps _ (printf _ _) => apply keeps_printf
  | |- keeps _ (puts _) => apply keeps_puts
  | |- keeps _ (read_line _) => apply keeps_read_line
  | |- keeps _ out_of_fuel => apply keeps_out_of_fuel
  | |- keeps _ null_dereference => apply keeps_null_dereference
  | |- keeps _ call_save => apply keeps_call_save
  | |- keeps _ get_store => apply keeps_get_store
  | |- keeps _ (if ?c then _ else _) => destruct c eqn:?
  | |- keeps _ (match ?x with _ => _ end) => destruct x eqn:?
  end.

Lemma keeps_read_int (strtol : string -> Z * nat) (fuel : nat)
    (prompt : string) :
  keeps world_valid (read_int strtol fuel prompt).
Proof. induction fuel as [|fuel IH]; simpl; keeps_io. done. Qed.

Lemma keeps_read_float (strtof : string -> float32 * nat) (fuel : nat)
    (prompt : string) :
  keeps world_valid (read_float strtof fuel prompt).
Proof. induction fuel as [|fuel IH]; simpl; keeps_io. done. Qed.

Lemma keeps_print_grades (gs : list float32) :
  keeps world_valid (print_grades gs).
Proof. induction gs as [|g gs IH]; simpl; keeps_io. done. Qed.

Lemma keeps_display_rows (rows : list Student) :
  keeps world_valid (display_rows rows).
Proof. induction rows as [|s rows IH]; simpl; keeps_io. done. Qed.

Lemma keeps_matrix_rows (rows : list Student) (i : Z) :
  keeps world_valid (matrix_rows i rows).
Proof.
  revert i. induction rows as [|s rows IH]; intros i; simpl; keeps_io.
  - apply keeps_print_grades.
  - apply IH.
Qed.

(** What each store operation does to a property of all records. *)
Lemma add_student_Forall (P : Student -> Prop) (t : Z) (nm : option string)
    (st : list Student) :
  P (mkStudent t (copy_name (default EmptyString nm)) [] f32_zero) ->
  Forall P st -> Forall P (snd (add_student t nm st)).
Proof.
  intros Hnew Hst. destruct (decide (t ∈ id <$> st)) as [Hin|Hn].
  - by rewrite add_student_duplicate.
  - rewrite add_student_fresh by done. simpl.
    apply Forall_app. split; [done|]. by apply Forall_singleton.
Qed.

Lemma delete_student_Forall (P : Student -> Prop) (t : Z)
    (st : list Student) :
  Forall P st -> Forall P (snd (delete_student t st)).
Proof.
  intros Hst. destruct (decide (t ∈ id <$> st)) as [Hin|Hn].
  - destruct (first_occurrence st t Hin) as (l1 & s & l2 & -> & <- & Hn).
    rewrite delete_student_present by done. simpl.
    apply Forall_app in Hst as [H1 H2]. apply Forall_cons in H2 as [_ H2].
    by apply Forall_app.
  - by rewrite delete_student_absent.
Qed.

Lemma delete_student_NoDup (t : Z) (st : list Student) :
  NoDup (id <$> st) -> NoDup (id <$> snd (delete_student t st)).
Proof.
  intros Hnd. destruct (decide (t ∈ id <$> st)) as [Hin|Hn].
  - destruct (first_occurrence st t Hin) as (l1 & s & l2 & -> & <- & Hn).
    rewrite delete_student_present by done. simpl.
    rewrite fmap_app, fmap_cons in Hnd.
    apply NoDup_app in Hnd as (Hn1 & Hd & Hn2).
    apply NoDup_cons in Hn2 as [Hs Hn2].
    rewrite fmap_app. apply NoDup_app. split; [done|]. split; [|done].
    intros x Hx Hx'. apply (Hd x Hx). by right.
  - by rewrite delete_student_absent.
Qed.

Lemma update_student_name_Forall (P : Student -> Prop) (t : Z) (nm : string)
    (st : list Student) :
  (forall s, P s -> P (renamed s nm)) ->
  Forall P st -> Forall P (snd (update_student_name t nm st)).
Proof.
  intros Hre Hst. destruct (decide (t ∈ id <$> st)) as [Hin|Hn].
  - destruct (first_occurrence st t Hin) as (l1 & s & l2 & -> & <- & Hn).
    rewrite update_student_name_present by done. simpl.
    apply Forall_app in Hst as [H1 H2]. apply Forall_cons in H2 as [Hs H2].
    apply Forall_app. split; [done|]. apply Forall_cons. split; [|done].
    by apply Hre.
  - by rewrite update_student_name_absent.
Qed.

Lemma update_student_name_ids (t : Z) (nm : string) (st : list Student) :
  id <$> snd (update_student_name t nm st) = id <$> st.
Proof.
  destruct (decide (t ∈ id <$> st)) as [Hin|Hn].
  - destruct (first_occurrence st t Hin) as (l1 & s & l2 & -> & <- & Hn).
    rewrite update_student_name_present by done. simpl.
    by rewrite !fmap_app, !fmap_cons.
  - by rewrite update_student_name_absent.
Qed.

Lemma add_grade_to_student_Forall (P : Student -> Prop) (t : Z) (g : float32)
    (st : list Student) :
  (forall s, P s -> P (graded s g)) ->
  Forall P st -> Forall P (snd (add_grade_to_student t g st)).
Proof.
  intros Hgr Hst. destruct (decide (t ∈ id <$> st)) as [Hin|Hn].
  - destruct (first_occurrence st t Hin) as (l1 & s & l2 & -> & <- & Hn).
    rewrite add_grade_to_student_present by done. simpl.
    apply Forall_app in Hst as [H1 H2]. apply Forall_cons in H2 as [Hs H2].
    apply Forall_app. split; [done|]. apply Forall_cons. split; [|done].
    by apply Hgr.
  - by rewrite add_grade_to_student_absent.
Qed.

Lemma add_grade_to_student_ids (t : Z) (g : float32) (st : list Student) :
  id <$> snd (add_grade_to_student t g st) = id <$> st.
Proof.
  destruct (decide (t ∈ id <$> st)) as [Hin|Hn].
  - destruct (first_occurrence st t Hin) as (l1 & s & l2 & -> & <- & Hn).
    rewrite add_grade_to_student_present by done. simpl.
    destruct (graded_average s g) as (_ & _ & Hid & _).
    by rewrite !fmap_app, !fmap_cons, Hid.
  - by rewrite add_grade_to_student_absent.
Qed.

Lemma copy_name_nonempty (nm : string) :
  nm <> EmptyString -> copy_name nm <> EmptyString.
Proof. by destruct nm. Qed.

Lemma length_nonempty (s : string) :
  (String.length s =? 0)%nat = false -> s <> EmptyString.
Proof. by destruct s. Qed.

Lemma store_valid_add (t : Z) (nm : string) (st : list Student) :
  nm <> EmptyString -> store_valid st ->
  store_valid (snd (add_student t (Some nm) st)).
Proof.
  intros Hnm [Hnd Hall]. split; [by apply add_student_NoDup|].
  apply add_student_Forall; [|done]. split; [|split; [|split]]; simpl.
  - by apply copy_name_nonempty.
  - apply copy_name_length.
  - done.
  - constructor.
Qed.

Lemma store_valid_delete (t : Z) (st : list Student) :
  store_valid st -> store_valid (snd (delete_student t st)).
Proof.
  intros [Hnd Hall].
  split; [by apply delete_student_NoDup|by apply delete_student_Forall].
Qed.

Lemma store_valid_update (t : Z) (nm : string) (st : list Student) :
  nm <> EmptyString -> store_valid st ->
  store_valid (snd (update_student_name t nm st)).
Proof.
  intros Hnm [Hnd Hall]. split; [by rewrite update_student_name_ids|].
  apply update_student_name_Forall; [|done].
  intros s (_ & _ & Hav & Hg). split; [|split; [|split]]; simpl.
  - by apply copy_name_nonempty.
  - apply copy_name_length.
  - done.
  - done.
Qed.

Lemma store_valid_grade (t : Z) (g : float32) (st : list Student) :
  grade_accepted g -> store_valid st ->
  store_valid (snd (add_grade_to_student t g st)).
Proof.
  intros Hg [Hnd Hall]. split; [by rewrite add_grade_to_student_ids|].
  apply add_grade_to_student_Forall; [|done].
  intros s (Hnm & Hlen & Hav & Hgs).
  destruct (graded_average s g) as (Havg & Hgr & _ & Hname).
  split; [|split; [|split]].
  - by rewrite Hname.
  - by rewrite Hname.
  - rewrite Havg, Hgr. apply arithmetic_mean_is_mean.
  - rewrite Hgr. apply Forall_app. split; [done|]. by apply Forall_singleton.
Qed.

Lemma store_valid_sort (method : SortMethod) (key : SortKey)
    (st : list Student) :
  store_valid st -> store_valid (sort_students method key st).
Proof.
  intros [Hnd Hall]. pose proof (sort_students_perm method key st) as Hp.
  split; by rewrite Hp.
Qed.

Lemma store_valid_nil : store_valid [].
Proof. split; [apply NoDup_nil_2|apply Forall_nil_2]. Qed.

Lemma keeps_run_menu (strtol : string -> Z * nat)
    (strtof : string -> float32 * nat) (fuel : nat) :
  keeps world_valid (run_menu strtol strtof fuel).
Proof.
  induction fuel as [|fuel' IH]; [apply keeps_out_of_fuel|].
  simpl.
  apply keeps_bind; [apply keeps_printf|intros _].
  apply keeps_bind; [apply keeps_read_line|intros buf].
  destruct (String.eqb buf "h" || String.eqb buf "H").
  { unfold show_help. keeps_io. done. }
  destruct (strtol buf) as [v consumed].
  destruct (negb (whole_buffer buf consumed)).
  { keeps_io. done. }
  cbv zeta.
  repeat match goal with
         | |- keeps _ (if ?c then _ else _) => destruct c
         end;
    (apply keeps_bind; [|intros _; first [exact IH|idtac]]).
  - (* add_student_menu *)
    unfold add_student_menu.
    apply keeps_bind; [apply keeps_read_int|intros new_id].
    apply keeps_bind; [apply keeps_printf|intros _].
    apply keeps_bind; [apply keeps_read_line|intros new_name].
    destruct (String.length new_name =? 0)%nat eqn:Hlen; [apply keeps_printf|].
    apply keeps_bind.
    + apply keeps_on_store. intros st.
      by apply store_valid_add, length_nonempty.
    + intros added. keeps_io.
  - (* add_grade_menu *)
    unfold add_grade_menu.
    apply keeps_bind; [apply keeps_read_int|intros target].
    apply keeps_bind; [apply keeps_read_float|intros grade].
    destruct (f32_lt grade f32_zero || f32_gt grade (f32_of_int 100)) eqn:Hg;
      [apply keeps_printf|].
    apply orb_false_elim in Hg.
    apply keeps_bind.
    + apply keeps_on_store. intros st. by apply store_valid_grade.
    + intros added. keeps_io.
  - unfold display_all_students. keeps_io. apply keeps_display_rows.
  - unfold display_grade_matrix. keeps_io. apply keeps_matrix_rows.
  - (* sort_menu *)
    unfold sort_menu.
    apply keeps_bind; [apply keeps_printf|intros _].
    apply keeps_bind; [apply keeps_read_int|intros m].
    apply keeps_bind; [apply keeps_printf|intros _].
    apply keeps_bind; [apply keeps_read_int|intros k].
    apply keeps_bind; [|intros _; apply keeps_printf].
    apply keeps_on_store. intros st. apply store_valid_sort.
  - (* search_menu *)
    unfold search_menu.
    apply keeps_bind; [apply keeps_read_int|intros target].
    apply keeps_bind.
    + apply keeps_on_store. intros st. apply store_valid_sort.
    + intros _. keeps_io. apply keeps_print_grades.
  - unfold stats_menu. keeps_io.
  - (* delete_menu *)
    unfold delete_menu.
    apply keeps_bind; [apply keeps_read_int|intros target].
    apply keeps_bind.
    + apply keeps_on_store. intros st. apply store_valid_delete.
    + intros deleted. keeps_io.
  - (* update_menu *)
    unfold update_menu.
    apply keeps_bind; [apply keeps_read_int|intros target].
    apply keeps_bind; [apply keeps_printf|intros _].
    apply keeps_bind; [apply keeps_read_line|intros newname].
    destruct (String.length newname =? 0)%nat eqn:Hlen; [apply keeps_printf|].
    apply keeps_bind.
    + apply keeps_on_store. intros st.
      by apply store_valid_update, length_nonempty.
    + intros updated. keeps_io.
  - apply keeps_call_save.
  - apply keeps_bind; [|intros _; apply keeps_puts].
    apply keeps_on_store. intros st _. apply store_valid_nil.
  - apply keeps_puts.
Qed.

Lemma grade_accepted_range (g : float32) :
  grade_accepted g <->
  is_nan g = true \/
  (f32_le f32_zero g = true /\ f32_le g (f32_of_int 100) = true).
Proof.
  unfold grade_accepted, f32_gt. change SFltb with f32_lt.
  destruct (is_nan g) eqn:Hn.
  - rewrite f32_lt_nan_l, f32_lt_nan_r by done. split; [by left|done].
  - rewrite !f32_le_not_gt by done. split; [by right|].
    by intros [|].
Qed.

(** X17: whatever is typed at the menu, and for as long as it runs, the store
    stays valid, and so does every store handed to [save_students_to_file]:
    the ids are pairwise distinct, every name is non-empty and has at most
    49 characters, every average is the mean of the grades of its record,
    and every grade has passed the range check, which lets through the
    grades from 0 to 100 and NaN. *)
Theorem run_menu_keeps_store_valid (strtol : string -> Z * nat)
    (strtof : string -> float32 * nat) (fuel : nat) (w : World) :
  world_valid w ->
  world_valid (snd (run_menu strtol strtof fuel w)) /\
  (forall g, grade_accepted g <->
     is_nan g = true \/
     (f32_le f32_zero g = true /\ f32_le g (f32_of_int 100) = true)).
Proof.
  intros Hw. split; [by apply keeps_run_menu|apply grade_accepted_range].
Qed.

Lemma run_menu_keeps_store_valid_witness :
  world_valid
    (snd (run_menu one_digit one_digit_float 20
            (mkWorld session []
               [mkStudent 5 "Eve" [f32_of_int 80; f32_of_int 90]
                  (f32_of_int 85)]))) /\
  (forall g, grade_accepted g <->
     is_nan g = true \/
     (f32_le f32_zero g = true /\ f32_le g (f32_of_int 100) = true)).
Proof.
  apply (run_menu_keeps_store_valid one_digit one_digit_float 20
           (mkWorld session []
              [mkStudent 5 "Eve" [f32_of_int 80; f32_of_int 90]
                 (f32_of_int 85)])).
  split; [|apply Forall_nil_2]. split.
  - simpl. apply NoDup_singleton.
  - apply Forall_singleton. split; [done|]. split; [simpl; lia|]. split.
    + apply average_consistent_mean. reflexivity.
    + repeat constructor.
Defined.

(** What the session does: every command of it reaches the store, and these
    are the stores saved on the way, the last one at the exit. *)
Example session_saved_stores :
  let ann gs avg := mkStudent 7 "Ann" (f32_of_int <$> gs) avg in
  let eve := mkStudent 5 "Eve" [f32_of_int 80; f32_of_int 90] (f32_of_int 85) in
  let w := snd (run_menu one_digit one_digit_float 20
                  (mkWorld session [] [eve])) in
  fst (run_menu one_digit one_digit_float 20 (mkWorld session [] [eve])) =
    Value tt /\
  stdin w = EmptyString /\ store w = [] /\
  saved_stores (calls w) =
    [ [eve; ann [] f32_zero];
      [eve; ann [] f32_zero; mkStudent 3 "Bob" [] f32_zero];
      [eve; ann [9] (f32_of_int 9); mkStudent 3 "Bob" [] f32_zero];
      [eve; ann [9; 8] (f32_div (f32_of_int 17) (f32_of_int 2));
       mkStudent 3 "Bob" [] f32_zero];
      [eve; ann [9; 8] (f32_div (f32_of_int 17) (f32_of_int 2));
       mkStudent 3 "Bob" [f32_of_int 5] (f32_of_int 5)];
      [mkStudent 3 "Rob" [f32_of_int 5] (f32_of_int 5);
       eve; ann [9; 8] (f32_div (f32_of_int 17) (f32_of_int 2))];
      [mkStudent 3 "Rob" [f32_of_int 5] (f32_of_int 5); eve];
      [mkStudent 3 "Rob" [f32_of_int 5] (f32_of_int 5); eve] ].
Proof. vm_compute. repeat split. Qed.

(** ** What the handlers do *)

Lemma bind_inv {A B : Type} (m : IO A) (k : A -> IO B) (w w' : World)
    (b : B) :
  (m ≫= k) w = (Value b, w') ->
  exists a w1, m w = (Value a, w1) /\ k a w1 = (Value b, w').
Proof.
  unfold mbind, io_bind. destruct (m w) as [[a| |] w1]; try done.
  intros H. by exists a, w1.
Qed.

Lemma only_prints_printf (format : string) (args : list Arg) :
  only_prints (printf format args).
Proof.
  intros w. exists [Printf format args]. split; [done|].
  by apply Forall_singleton.
Qed.

Lemma only_prints_ret : only_prints (mret tt).
Proof.
  intros w. exists []. rewrite app_nil_r. split; [by destruct w|done].
Qed.

Lemma only_prints_bind (m k : IO unit) :
  only_prints m -> only_prints k -> only_prints (m ;; k).
Proof.
  intros Hm Hk w. destruct (Hm w) as (o1 & H1 & F1).
  destruct (Hk (mkWorld (stdin w) (calls w ++ o1) (store w)))
    as (o2 & H2 & F2).
  exists (o1 ++ o2). split; [|by apply Forall_app].
  rewrite (bind_value _ _ _ _ _ H1), H2. simpl. by rewrite app_assoc.
Qed.

Lemma only_prints_print_grades (gs : list float32) :
  only_prints (print_grades gs).
Proof.
  induction gs as [|g gs IH]; simpl; [apply only_prints_ret|].
  apply only_prints_bind; [apply only_prints_printf|].
  apply only_prints_bind; [|done].
  destruct gs; [apply only_prints_ret|apply only_prints_printf].
Qed.

(** X18: the range check of [add_grade_menu].  Once the id and the grade have
    been read, a grade below 0 or above 100 is refused: a message is
    printed, the store is not touched and nothing is saved.  Every other
    grade is handed to [add_grade_to_student]; NaN is one of them, as it is
    neither below 0 nor above 100. *)
Theorem add_grade_menu_range_check (strtol : string -> Z * nat)
    (strtof : string -> float32 * nat) (fuel : nat) (w w1 w2 : World)
    (target : Z) (grade : float32) :
  read_int strtol fuel "Enter student ID: " w = (Value target, w1) ->
  read_float strtof fuel "Enter grade (0-100): " w1 = (Value grade, w2) ->
  (f32_lt grade f32_zero = true \/ f32_gt grade (f32_of_int 100) = true ->
     add_grade_menu strtol strtof fuel w =
       (Value tt,
        mkWorld (stdin w2)
          (calls w2 ++ [Printf "Grade must be between 0 and 100.\n" []])
          (store w2))) /\
  (f32_lt grade f32_zero = false /\ f32_gt grade (f32_of_int 100) = false ->
     store (snd (add_grade_menu strtol strtof fuel w)) =
       snd (add_grade_to_student target grade (store w2))) /\
  (is_nan grade = true ->
     f32_lt grade f32_zero = false /\ f32_gt grade (f32_of_int 100) = false).
Proof.
  intros Hid Hgr. unfold add_grade_menu.
  rewrite (bind_value _ _ _ _ _ Hid), (bind_value _ _ _ _ _ Hgr).
  split; [|split].
  - intros Hout.
    assert (f32_lt grade f32_zero || f32_gt grade (f32_of_int 100) = true)
      as -> by (apply orb_true_iff; done).
    done.
  - intros [H0 H100]. rewrite H0, H100. simpl.
    unfold mbind, io_bind, on_store.
    destruct (add_grade_to_student target grade (store w2)) as [[|] st];
      done.
  - intros Hnan. unfold f32_gt. change SFltb with f32_lt.
    by rewrite f32_lt_nan_l, f32_lt_nan_r.
Qed.

Lemma add_grade_menu_range_check_witness :
  store
    (snd (add_grade_menu (fun _ => (1, 1%nat)) (fun _ => (S754_nan, 1%nat)) 1
            (mkWorld ("1" ++ nl ++ "n") [] [mkStudent 1 "a" [] f32_zero])))
  = snd (add_grade_to_student 1 S754_nan [mkStudent 1 "a" [] f32_zero]).
Proof.
  refine (proj1 (proj2
    (add_grade_menu_range_check (fun _ => (1, 1%nat))
       (fun _ => (S754_nan, 1%nat)) 1
       (mkWorld ("1" ++ nl ++ "n") [] [mkStudent 1 "a" [] f32_zero])
       (mkWorld "n" [Printf "%s" [ArgStr "Enter student ID: "]]
          [mkStudent 1 "a" [] f32_zero])
       (mkWorld "" [Printf "%s" [ArgStr "Enter student ID: "];
                    Printf "%s" [ArgStr "Enter grade (0-100): "]]
          [mkStudent 1 "a" [] f32_zero])
       1 S754_nan _ _)) _).
  - reflexivity.
  - reflexivity.
  - by vm_compute.
Defined.

(** X19: [search_menu], once the id has been read, leaves the store sorted by
    id with merge sort, and returns: it prints either that the id was not
    found or the record found, which is a record of the store holding that
    id, and never dereferences NULL.  When no difference of two ids leaves
    the [int] range, an id of the store is always found. *)
Theorem search_menu_reports (strtol : string -> Z * nat) (fuel : nat)
    (w w1 : World) (target : Z) :
  read_int strtol fuel "Enter ID to search: " w = (Value target, w1) ->
  let sorted := sort_students MERGE SORT_BY_ID (store w1) in
  let not_found := Printf "Student with ID %d not found.\n" [ArgInt target] in
  exists out,
    search_menu strtol fuel w =
      (Value tt, mkWorld (stdin w1) (calls w1 ++ out) sorted) /\
    (out = [not_found] \/
     exists s more,
       s ∈ store w1 /\ id s = target /\
       out = Printf "Found: ID=%d Name=%s Avg=%.2f #grades=%d\n"
               [ArgInt (id s); ArgStr (name s); ArgFloat (average s);
                ArgInt (gradeCount s)] :: more) /\
    (key_consistent SORT_BY_ID (store w1) -> target ∈ id <$> store w1 ->
     out <> [not_found]).
Proof.
  intros Hid sorted not_found. unfold search_menu.
  rewrite (bind_value _ _ _ _ _ Hid).
  unfold mbind at 1, io_bind at 1, on_store at 1. cbn [snd].
  unfold mbind at 1, io_bind at 1, get_store at 1. cbn [store].
  fold sorted.
  assert (Hperm : sorted ≡ₚ store w1) by apply sort_students_perm.
  destruct (binary_search_fuel_sound
              (Z.to_nat (students_count sorted - 1 - 0 + 1)) sorted target 0
              (students_count sorted - 1) ltac:(lia)) as (r & Hr & Hcase).
  unfold binary_search_by_id_recursive. rewrite Hr.
  destruct Hcase as [->|[Hin Hfound]].
  - exists [not_found]. split; [done|]. split; [by left|].
    intros Hk Ht _.
    assert (Hs : Sorted Z.le (id <$> sorted))
      by (by apply sort_students_by_id_ascending).
    destruct (binary_search_whole_store sorted target Hs) as (r' & Hr' & Hres).
    unfold binary_search_by_id_recursive in Hr'. rewrite Hr in Hr'.
    injection Hr' as <-.
    destruct Hres as [[_ Habs]|(s & Hs' & _)].
    + apply Habs. by rewrite Hperm.
    + apply get_student_by_index_lookup in Hs' as [? _]. lia.
  - destruct (Z.eqb_spec r (-1)) as [->|Hne]; [lia|].
    unfold students_count in Hin.
    destruct (lookup_lt_is_Some_2 sorted (Z.to_nat r) ltac:(lia)) as [s Hs].
    assert (Hget : get_student_by_index sorted r = Some s)
      by (apply get_student_by_index_lookup; split; [lia|done]).
    rewrite Hget.
    assert (Hids : id s = target).
    { rewrite <- Hfound. unfold at_index.
      by rewrite (list_lookup_total_correct _ _ _ Hs). }
    assert (Hmem : s ∈ store w1).
    { rewrite <- Hperm. by apply list_elem_of_lookup_2 in Hs. }
    set (found := Printf "Found: ID=%d Name=%s Avg=%.2f #grades=%d\n"
                    [ArgInt (id s); ArgStr (name s); ArgFloat (average s);
                     ArgInt (gradeCount s)]).
    destruct (gradeCount s >? 0).
    + destruct (only_prints_bind _ _ (only_prints_printf "Grades: " [])
                  (only_prints_bind _ _ (only_prints_print_grades (grades s))
                     (only_prints_printf "\n" []))
                  (mkWorld (stdin w1) (calls w1 ++ [found]) sorted))
        as (out & Hout & _).
      exists (found :: out). split; [|split].
      * erewrite (bind_value (printf _ _)) by reflexivity.
        cbn [stdin calls store]. cbv beta.
        unfold found in *. rewrite Hout. cbn [stdin calls store].
        by rewrite <- app_assoc.
      * right. by exists s, out.
      * done.
    + exists [found]. split; [done|]. split; [|done].
      right. by exists s, [].
Qed.

Lemma search_menu_reports_witness :
  exists out,
    search_menu (fun _ => (2, 1%nat)) 1
      (mkWorld "2" [] [mkStudent 5 "e" [] f32_zero; mkStudent 2 "b" [] f32_zero])
    = (Value tt,
       mkWorld (stdin (mkWorld "" [Printf "%s" [ArgStr "Enter ID to search: "]]
                         [mkStudent 5 "e" [] f32_zero;
                          mkStudent 2 "b" [] f32_zero]))
         (calls (mkWorld "" [Printf "%s" [ArgStr "Enter ID to search: "]]
                   [mkStudent 5 "e" [] f32_zero; mkStudent 2 "b" [] f32_zero])
          ++ out)
         (sort_students MERGE SORT_BY_ID
            (store (mkWorld "" [Printf "%s" [ArgStr "Enter ID to search: "]]
                      [mkStudent 5 "e" [] f32_zero;
                       mkStudent 2 "b" [] f32_zero])))) /\
    (out = [Printf "Student with ID %d not found.\n" [ArgInt 2]] \/
     exists s more,
       s ∈ store (mkWorld "" [Printf "%s" [ArgStr "Enter ID to search: "]]
                    [mkStudent 5 "e" [] f32_zero; mkStudent 2 "b" [] f32_zero])
       /\ id s = 2 /\
       out = Printf "Found: ID=%d Name=%s Avg=%.2f #grades=%d\n"
               [ArgInt (id s); ArgStr (name s); ArgFloat (average s);
                ArgInt (gradeCount s)] :: more) /\
    (key_consistent SORT_BY_ID
       (store (mkWorld "" [Printf "%s" [ArgStr "Enter ID to search: "]]
                 [mkStudent 5 "e" [] f32_zero; mkStudent 2 "b" [] f32_zero])) ->
     2 ∈ id <$> store (mkWorld "" [Printf "%s" [ArgStr "Enter ID to search: "]]
                         [mkStudent 5 "e" [] f32_zero;
                          mkStudent 2 "b" [] f32_zero]) ->
     out <> [Printf "Student with ID %d not found.\n" [ArgInt 2]]).
Proof.
  apply (search_menu_reports (fun _ => (2, 1%nat)) 1
           (mkWorld "2" [] [mkStudent 5 "e" [] f32_zero;
                            mkStudent 2 "b" [] f32_zero])).
  reflexivity.
Defined.

(** X20: [stats_menu] returns on every store and dereferences no NULL
    pointer: on the empty store it prints that there are no students; on any
    other it prints two records of the store, those at the positions given
    by [class_highest_lowest], and leaves the store as it was. *)
Theorem stats_menu_reports (w : World) :
  (store w = [] ->
     stats_menu w =
       (Value tt,
        mkWorld (stdin w) (calls w ++ [Puts "No students."]) (store w))) /\
  (store w <> [] ->
     exists hi hi_idx lo lo_idx h l,
       class_highest_lowest (store w) = Some (hi, hi_idx, lo, lo_idx) /\
       get_student_by_index (store w) hi_idx = Some h /\ average h = hi /\
       get_student_by_index (store w) lo_idx = Some l /\ average l = lo /\
       stats_menu w =
         (Value tt,
          mkWorld (stdin w)
            (calls w ++
             [Printf "Highest average: ID=%d Name=%s Avg=%.2f\n"
                [ArgInt (id h); ArgStr (name h); ArgFloat (average h)];
              Printf "Lowest average:  ID=%d Name=%s Avg=%.2f\n"
                [ArgInt (id l); ArgStr (name l); ArgFloat (average l)]])
            (store w))).
Proof.
  unfold stats_menu, mbind, io_bind, get_store. split.
  - intros Hst.
    replace (class_highest_lowest (store w))
      with (@None (float32 * Z * float32 * Z)) by (by rewrite Hst).
    done.
  - intros Hne. destruct (store w) as [|s0 rest] eqn:Hst; [done|].
    destruct (highest_lowest_scan_positions rest [s0] (average s0) 0
                (average s0) 0) as (hi & hi_idx & lo & lo_idx & Hscan &
                                    (h & Hh & Hhi) & (l & Hl & Hlo)).
    { by exists s0. }
    { by exists s0. }
    change (Z.of_nat (length [s0])) with 1 in Hscan.
    change ([s0] ++ rest) with (s0 :: rest) in *.
    exists hi, hi_idx, lo, lo_idx, h, l.
    unfold class_highest_lowest. rewrite Hscan, Hh.
    unfold printf, call. cbn [stdin calls store]. rewrite Hst, Hl.
    repeat (split; [done|]). cbn [stdin calls store].
    by rewrite <- app_assoc.
Qed.

Lemma stats_menu_reports_witness :
  stats_menu (mkWorld "" [] []) =
    (Value tt, mkWorld "" [Puts "No students."] []) /\
  (exists hi hi_idx lo lo_idx h l,
     class_highest_lowest
       [mkStudent 5 "E" [f32_of_int 60] (f32_of_int 60);
        mkStudent 2 "B" [f32_of_int 85] (f32_of_int 85)] =
       Some (hi, hi_idx, lo, lo_idx) /\
     get_student_by_index
       [mkStudent 5 "E" [f32_of_int 60] (f32_of_int 60);
        mkStudent 2 "B" [f32_of_int 85] (f32_of_int 85)] hi_idx = Some h /\
     average h = hi /\
     get_student_by_index
       [mkStudent 5 "E" [f32_of_int 60] (f32_of_int 60);
        mkStudent 2 "B" [f32_of_int 85] (f32_of_int 85)] lo_idx = Some l /\
     average l = lo /\
     stats_menu
       (mkWorld "" []
          [mkStudent 5 "E" [f32_of_int 60] (f32_of_int 60);
           mkStudent 2 "B" [f32_of_int 85] (f32_of_int 85)]) =
       (Value tt,
        mkWorld ""
          ([] ++
           [Printf "Highest average: ID=%d Name=%s Avg=%.2f\n"
              [ArgInt (id h); ArgStr (name h); ArgFloat (average h)];
            Printf "Lowest average:  ID=%d Name=%s Avg=%.2f\n"
              [ArgInt (id l); ArgStr (name l); ArgFloat (average l)]])
          [mkStudent 5 "E" [f32_of_int 60] (f32_of_int 60);
           mkStudent 2 "B" [f32_of_int 85] (f32_of_int 85)])).
Proof.
  split.
  - by apply (proj1 (stats_menu_reports (mkWorld "" [] []))).
  - by apply (proj2 (stats_menu_reports
                       (mkWorld "" []
                          [mkStudent 5 "E" [f32_of_int 60] (f32_of_int 60);
                           mkStudent 2 "B" [f32_of_int 85] (f32_of_int 85)]))).
Defined.

(** On the store of the scenario the record with average 85 is reported as
    the highest and the one with average 60 as the lowest. *)
Example stats_menu_two_records :
  stats_menu
    (mkWorld "" []
       [mkStudent 5 "E" [f32_of_int 60] (f32_of_int 60);
        mkStudent 2 "B" [f32_of_int 85] (f32_of_int 85)]) =
  (Value tt,
   mkWorld ""
     [Printf "Highest average: ID=%d Name=%s Avg=%.2f\n"
        [ArgInt 2; ArgStr "B"; ArgFloat (f32_of_int 85)];
      Printf "Lowest average:  ID=%d Name=%s Avg=%.2f\n"
        [ArgInt 5; ArgStr "E"; ArgFloat (f32_of_int 60)]]
     [mkStudent 5 "E" [f32_of_int 60] (f32_of_int 60);
      mkStudent 2 "B" [f32_of_int 85] (f32_of_int 85)]).
Proof. reflexivity. Qed.

Lemma read_line_end_of_input (n : nat) (w : World) :
  stdin w = EmptyString -> read_line n w = (Value EmptyString, w).
Proof. intros H. unfold read_line. by rewrite H. Qed.

(** X21: at the end of the input neither [read_int] nor the menu loop ever
    returns: each turn of the loop prints the prompt and a complaint about
    the empty line it takes itself to have read, the store is not changed,
    and [save_students_to_file] is not called.  ([strtol] consumes nothing
    of an empty string.) *)
Theorem run_menu_end_of_input (strtol : string -> Z * nat)
    (strtof : string -> float32 * nat) (fuel : nat) (prompt : string)
    (w : World) :
  snd (strtol EmptyString) = 0%nat -> stdin w = EmptyString ->
  read_int strtol fuel prompt w =
    (Fuel,
     mkWorld EmptyString
       (calls w ++
        concat (replicate fuel
                  [Printf "%s" [ArgStr prompt];
                   Printf "Invalid integer, try again.\n" []]))
       (store w)) /\
  run_menu strtol strtof fuel w =
    (Fuel,
     mkWorld EmptyString
       (calls w ++
        concat (replicate fuel
                  [Printf "\nChoose option (h for help): " [];
                   Puts "Invalid choice. Enter 0-9 or 'h' for help."]))
       (store w)).
Proof.
  intros Hstr. revert w. induction fuel as [|fuel IH]; intros w Hin.
  - simpl. rewrite app_nil_r. destruct w as [i c s]. simpl in Hin. by subst.
  - destruct (strtol EmptyString) as [v consumed] eqn:Hs. simpl in Hstr.
    subst consumed. split.
    + simpl read_int.
      erewrite (bind_value (printf _ _)) by reflexivity.
      erewrite (bind_value (read_line _))
        by (by apply read_line_end_of_input).
      rewrite Hs. cbv iota beta.
      change (whole_buffer EmptyString 0) with false. cbv iota.
      erewrite (bind_value (printf _ _)) by reflexivity.
      cbn [stdin calls store].
      destruct (IH (mkWorld (stdin w)
                      ((calls w ++ [Printf "%s" [ArgStr prompt]]) ++
                       [Printf "Invalid integer, try again.\n" []])
                      (store w)) Hin) as [-> _].
      cbn [stdin calls store concat replicate].
      by rewrite <- !app_assoc.
    + simpl run_menu.
      erewrite (bind_value (printf _ _)) by reflexivity.
      erewrite (bind_value (read_line _))
        by (by apply read_line_end_of_input).
      change (String.eqb EmptyString "h" || String.eqb EmptyString "H")
        with false. cbv iota.
      rewrite Hs. cbv iota beta.
      change (negb (whole_buffer EmptyString 0)) with true. cbv iota.
      erewrite (bind_value (puts _)) by reflexivity.
      cbn [stdin calls store].
      destruct (IH (mkWorld (stdin w)
                      ((calls w ++ [Printf "\nChoose option (h for help): " []])
                       ++ [Puts "Invalid choice. Enter 0-9 or 'h' for help."])
                      (store w)) Hin) as [_ ->].
      cbn [stdin calls store concat replicate].
      by rewrite <- !app_assoc.
Qed.

Lemma run_menu_end_of_input_witness :
  run_menu (fun _ => (0, 0%nat)) (fun _ => (f32_zero, 0%nat)) 2
    (mkWorld "" [] [mkStudent 1 "a" [] f32_zero]) =
    (Fuel,
     mkWorld EmptyString
       (calls (mkWorld "" [] [mkStudent 1 "a" [] f32_zero]) ++
        concat (replicate 2
                  [Printf "\nChoose option (h for help): " [];
                   Puts "Invalid choice. Enter 0-9 or 'h' for help."]))
       (store (mkWorld "" [] [mkStudent 1 "a" [] f32_zero]))).
Proof.
  apply (run_menu_end_of_input (fun _ => (0, 0%nat))
           (fun _ => (f32_zero, 0%nat)) 2 EmptyString
           (mkWorld "" [] [mkStudent 1 "a" [] f32_zero])); reflexivity.
Defined.

(** X22: when the menu returns, the last things it did were to call
    [save_students_to_file], and then, the store freed, to print its
    farewell: it returns in no other way, and with an empty store. *)
Theorem run_menu_exit_saves (strtol : string -> Z * nat)
    (strtof : string -> float32 * nat) (fuel : nat) (w w' : World) :
  run_menu strtol strtof fuel w = (Value tt, w') ->
  store w' = [] /\
  exists earlier saved,
    calls w' = earlier ++ [SaveStudents saved; Puts "Goodbye."].
Proof.
  revert w. induction fuel as [|fuel' IH]; intros w; [done|].
  simpl.
  intros H. apply bind_inv in H as ([] & w1 & _ & H).
  apply bind_inv in H as (buf & w2 & _ & H).
  destruct (String.eqb buf "h" || String.eqb buf "H").
  { apply bind_inv in H as ([] & w3 & _ & H). by apply (IH w3). }
  destruct (strtol buf) as [v consumed].
  destruct (negb (whole_buffer buf consumed)).
  { apply bind_inv in H as ([] & w3 & _ & H). by apply (IH w3). }
  cbv zeta in H.
  repeat match type of H with
         | (if ?c then _ else _) _ = _ => destruct c
         end;
    try (apply bind_inv in H as ([] & w3 & _ & H); by apply (IH w3)).
  unfold mbind, io_bind, call_save, on_store, puts, call in H.
  cbn [stdin calls store free_students] in H.
  injection H as <-. cbn [stdin calls store]. split; [done|].
  exists (calls w2), (store w2). by rewrite <- app_assoc.
Qed.

Lemma run_menu_exit_saves_witness :
  store (mkWorld "" [Printf "\nChoose option (h for help): " [];
                     SaveStudents []; Puts "Goodbye."] []) = [] /\
  exists earlier saved,
    calls (mkWorld "" [Printf "\nChoose option (h for help): " [];
                       SaveStudents []; Puts "Goodbye."] [])
    = earlier ++ [SaveStudents saved; Puts "Goodbye."].
Proof.
  apply (run_menu_exit_saves (fun _ => (0, 1%nat))
           (fun _ => (f32_zero, 0%nat)) 1 (mkWorld "0" [] [])).
  reflexivity.
Defined.

(** * The capacity of the array *)

Lemma update_student_name_count (t : Z) (nm : string) (st : list Student) :
  students_count (snd (update_student_name t nm st)) = students_count st.
Proof.
  unfold students_count.
  by rewrite <- (length_fmap id), update_student_name_ids, length_fmap.
Qed.

Lemma add_grade_to_student_count (t : Z) (g : float32) (st : list Student) :
  students_count (snd (add_grade_to_student t g st)) = students_count st.
Proof.
  unfold students_count.
  by rewrite <- (length_fmap id), add_grade_to_student_ids, length_fmap.
Qed.

Lemma delete_student_count (t : Z) (st : list Student) :
  students_count (snd (delete_student t st)) <= students_count st.
Proof.
  unfold students_count. destruct (decide (t ∈ id <$> st)) as [Hin|Hn].
  - destruct (first_occurrence st t Hin) as (l1 & s & l2 & -> & <- & Hn).
    rewrite delete_student_present by done. simpl.
    rewrite !length_app. simpl. lia.
  - rewrite delete_student_absent by done. simpl. lia.
Qed.

(** What holds of the size and the capacity between two operations. *)
Lemma ensure_capacity_room (size capacity : Z) :
  0 <= size <= capacity -> capacity <= 2 ^ 30 ->
  (capacity = 0 \/ exists k, 0 <= k /\ capacity = 4 * 2 ^ k) ->
  size < 2 ^ 30 ->
  size < ensure_capacity size capacity <= 2 ^ 30 /\
  exists k, 0 <= k /\ ensure_capacity size capacity = 4 * 2 ^ k.
Proof.
  intros Hsize Hmax Hcap Hbound. unfold ensure_capacity.
  destruct (Z.leb_spec capacity size) as [Hfull|Hroom].
  - assert (capacity = size) as -> by lia.
    destruct (Z.eqb_spec size 0) as [->|Hne].
    + split; [lia|]. exists 0. split; [lia|done].
    + destruct Hcap as [->|(k & Hk & Hcap)]; [done|].
      assert (Hk30 : k < 28).
      { destruct (Z.lt_ge_cases k 28) as [|Hge]; [done|].
        pose proof (Z.pow_le_mono_r 2 28 k ltac:(lia) Hge). lia. }
      assert (Hdouble : size * 2 <= 2 ^ 30).
      { pose proof (Z.pow_le_mono_r 2 k 27 ltac:(lia) ltac:(lia)). lia. }
      rewrite wrap32_small by (unfold INT_MIN, INT_MAX; lia).
      split; [lia|]. exists (k + 1). split; [lia|].
      rewrite Hcap, Z.pow_add_r by lia. lia.
  - destruct Hcap as [->|(k & Hk & Hcap)]; [lia|].
    split; [lia|by exists k].
Qed.

Lemma allocated_invariant (st : list Student) (cap : Z) :
  allocated st cap ->
  0 <= students_count st <= cap /\ cap <= 2 ^ 30 /\
  (cap = 0 \/ exists k, 0 <= k /\ cap = 4 * 2 ^ k).
Proof.
  induction 1 as [|st cap _ IH|t nm st cap _ IH Hsize|t st cap _ IH
                 |t nm st cap _ IH|t g st cap _ IH|method key st cap _ IH].
  - unfold students_count. simpl. split; [lia|]. split; [lia|by left].
  - unfold students_count. simpl. split; [lia|]. split; [lia|by left].
  - destruct IH as (Hc & Hmax & Hform). unfold add_student_capacity.
    destruct (decide (t ∈ id <$> st)) as [Hin|Hn].
    + rewrite add_student_duplicate by done.
      assert (index_of_id st t <> -1) as Hidx
        by (intros Hidx; by apply index_of_id_absent in Hidx).
      apply Z.eqb_neq in Hidx. rewrite Hidx. done.
    + rewrite add_student_fresh by done.
      apply index_of_id_absent in Hn as ->. simpl.
      destruct (ensure_capacity_room (students_count st) cap Hc Hmax Hform
                  Hsize) as ([Hroom Hle] & Hpow).
      unfold students_count in *. rewrite length_app. simpl.
      split; [lia|]. split; [done|by right].
  - destruct IH as (Hc & Hmax & Hform).
    pose proof (delete_student_count t st). unfold students_count in *.
    split; [lia|done].
  - by rewrite update_student_name_count.
  - by rewrite add_grade_to_student_count.
  - destruct IH as (Hc & Hmax & Hform). unfold students_count in *.
    by rewrite (sort_students_perm method key st).
Qed.

(** X23: the array never holds more records than it has room for.  Along any
    run of the store operations, [add_student] being run on fewer than
    [2^30] records, the number of records is at most the capacity, the
    capacity is 0 or 4 doubled some number of times and never above
    [2^30], so that the doubling does not overflow; and after
    [ensure_capacity] the capacity exceeds the number of records: the slot
    [add_student] writes to lies inside the array. *)
Theorem capacity_covers_size (students : list Student) (capacity : Z) :
  allocated students capacity ->
  0 <= students_count students <= capacity /\ capacity <= 2 ^ 30 /\
  (capacity = 0 \/ exists k, 0 <= k /\ capacity = 4 * 2 ^ k) /\
  (students_count students < 2 ^ 30 ->
   students_count students
     < ensure_capacity (students_count students) capacity <= 2 ^ 30).
Proof.
  intros Ha. destruct (allocated_invariant students capacity Ha)
    as (Hc & Hmax & Hform).
  split; [done|]. split; [done|]. split; [done|]. intros Hsize.
  by destruct (ensure_capacity_room (students_count students) capacity Hc
                 Hmax Hform Hsize) as [? _].
Qed.

Lemma capacity_covers_size_witness :
  0 <= students_count (snd (add_student 1 (Some "a"%string) init_students))
    <= add_student_capacity 1 init_students 0 /\
  add_student_capacity 1 init_students 0 <= 2 ^ 30 /\
  (add_student_capacity 1 init_students 0 = 0 \/
   exists k, 0 <= k /\ add_student_capacity 1 init_students 0 = 4 * 2 ^ k) /\
  (students_count (snd (add_student 1 (Some "a"%string) init_students))
     < 2 ^ 30 ->
   students_count (snd (add_student 1 (Some "a"%string) init_students))
     < ensure_capacity
         (students_count (snd (add_student 1 (Some "a"%string) init_students)))
         (add_student_capacity 1 init_students 0) <= 2 ^ 30).
Proof.
  apply (capacity_covers_size
           (snd (add_student 1 (Some "a"%string) init_students))
           (add_student_capacity 1 init_students 0)).
  apply alloc_add; [apply alloc_init|by vm_compute].
Defined.

(** * Strings, lines and the data file *)

(** ** The string functions of the C library *)

Lemma string_app_assoc (a b c : string) :
  ((a ++ b) ++ c)%string = (a ++ b ++ c)%string.
Proof. induction a as [|x a IH]; simpl; [done|by rewrite IH]. Qed.

Lemma string_app_length (a b : string) :
  String.length (a ++ b) = (String.length a + String.length b)%nat.
Proof. induction a as [|x a IH]; simpl; [done|by rewrite IH]. Qed.

Lemma string_app_nil_r (a : string) : (a ++ "")%string = a.
Proof. induction a as [|x a IH]; simpl; [done|by rewrite IH]. Qed.

Lemma prefix_nil (s : string) : String.prefix "" s = true.
Proof. by destruct s. Qed.

Lemma prefix_cons (a b : ascii) (s1 s2 : string) :
  String.prefix (String a s1) (String b s2) =
    Ascii.eqb a b && String.prefix s1 s2.
Proof.
  simpl. destruct (ascii_dec a b) as [->|Hne].
  - by rewrite Ascii.eqb_refl.
  - apply Ascii.eqb_neq in Hne. by rewrite Hne.
Qed.

Lemma strchr_app_None (a b : string) (c : ascii) :
  strchr a c = None ->
  strchr (a ++ b) c = (fun n => (String.length a + n)%nat) <$> strchr b c.
Proof.
  induction a as [|x a IH]; simpl.
  - intros _. by destruct (strchr b c).
  - destruct (Ascii.eqb x c); [done|].
    destruct (strchr a c) eqn:E; [done|]. intros _. rewrite IH by done.
    by destruct (strchr b c).
Qed.

Lemma strchr_app_None_None (a b : string) (c : ascii) :
  strchr a c = None -> strchr b c = None -> strchr (a ++ b) c = None.
Proof. intros Ha Hb. by rewrite strchr_app_None, Hb. Qed.

Lemma strchr_here (c : ascii) (s : string) : strchr (String c s) c = Some 0%nat.
Proof. simpl. by rewrite Ascii.eqb_refl. Qed.

Lemma strchr_at (a : string) (c : ascii) (b : string) :
  strchr a c = None ->
  strchr (a ++ String c b) c = Some (String.length a).
Proof.
  intros Ha. rewrite strchr_app_None, strchr_here by done. simpl.
  f_equal. lia.
Qed.

Lemma strchr_cons_None (x c : ascii) (s : string) :
  strchr (String x s) c = None <-> Ascii.eqb x c = false /\ strchr s c = None.
Proof.
  simpl. destruct (Ascii.eqb x c); [by split; [|intros []]|].
  destruct (strchr s c); simpl; split; try done. by intros [].
Qed.

(** A pattern is not found in a string that does not hold its first
    character. *)
Lemma strstr_skip (a b : string) (c : ascii) (pat : string) :
  strchr a c = None ->
  strstr (a ++ b) (String c pat) = strstr b (String c pat).
Proof.
  induction a as [|x a IH]; [done|].
  intros [Hx Ha]%strchr_cons_None.
  change (String x a ++ b)%string with (String x (a ++ b)).
  cbn [strstr]. rewrite prefix_cons, (Ascii.eqb_sym c x), Hx. simpl.
  by apply IH.
Qed.

Lemma strstr_absent (s : string) (c : ascii) (pat : string) :
  strchr s c = None -> strstr s (String c pat) = false.
Proof.
  intros Hs. rewrite <- (string_app_nil_r s). by rewrite strstr_skip.
Qed.

Lemma strstr_cons (x : ascii) (s pat : string) :
  strstr (String x s) pat = String.prefix pat (String x s) || strstr s pat.
Proof. done. Qed.

Lemma strstr_prefix (s pat : string) :
  String.prefix pat s = true -> strstr s pat = true.
Proof. intros H. destruct s; simpl in *; by rewrite H. Qed.

Lemma advance_app (a b : string) : advance (String.length a) (a ++ b) = b.
Proof. induction a as [|x a IH]; simpl; [by destruct b|done]. Qed.

Lemma substring_0_app (a b : string) :
  String.substring 0 (String.length a) (a ++ b) = a.
Proof.
  induction a as [|x a IH]; simpl; [by destruct b|by rewrite IH].
Qed.

Lemma until_char_app (c : ascii) (a b : string) :
  strchr a c = None -> until_char c (a ++ String c b) = (a, String c b).
Proof.
  induction a as [|x a IH]; simpl.
  - by rewrite Ascii.eqb_refl.
  - destruct (Ascii.eqb x c); [done|].
    destruct (strchr a c) eqn:E; [done|]. intros _. by rewrite IH.
Qed.

(** ** Reading lines *)

Lemma fgets_chars_line (room : nat) (l rest : string) :
  strchr l newline = None -> (String.length l < room)%nat ->
  fgets_chars room (l ++ nl ++ rest) = ((l ++ nl)%string, rest).
Proof.
  revert room. induction l as [|x l IH]; intros room Hl Hroom.
  - destruct room; [simpl in Hroom; lia|]. done.
  - apply strchr_cons_None in Hl as [Hx Hl].
    destruct room; [simpl in Hroom; lia|]. simpl in Hroom.
    change (String x l ++ nl ++ rest)%string with (String x (l ++ nl ++ rest)).
    cbn [fgets_chars]. rewrite Hx. rewrite IH by (done || lia). done.
Qed.

Lemma fgets_chars_chunk (l1 l2 : string) :
  strchr l1 newline = None ->
  fgets_chars (String.length l1) (l1 ++ l2) = (l1, l2).
Proof.
  induction l1 as [|x l1 IH]; intros Hl.
  - simpl. by destruct l2.
  - apply strchr_cons_None in Hl as [Hx Hl].
    change (String x l1 ++ l2)%string with (String x (l1 ++ l2)).
    cbn [String.length fgets_chars]. rewrite Hx. by rewrite IH.
Qed.

Lemma get_app_length (l : string) (c : ascii) (r : string) :
  String.get (String.length l) (l ++ String c r) = Some c.
Proof. induction l as [|x l IH]; simpl; done. Qed.

Lemma strip_newline_line (l : string) : strip_newline (l ++ nl) = l.
Proof.
  unfold strip_newline. rewrite string_app_length. simpl.
  replace (String.length l + 1 - 1)%nat with (String.length l) by lia.
  unfold nl. rewrite get_app_length.
  replace (String.length l + 1 =? 0)%nat with false
    by (symmetry; apply Nat.eqb_neq; lia).
  rewrite Ascii.eqb_refl. simpl. apply substring_0_app.
Qed.

Lemma get_last_not (l : string) (c : ascii) :
  strchr l c = None -> String.get (String.length l - 1) l <> Some c.
Proof.
  induction l as [|x l IH]; [done|].
  intros [Hx Hl]%strchr_cons_None. simpl.
  destruct l as [|y l].
  - simpl. intros [= ->]. by rewrite Ascii.eqb_refl in Hx.
  - cbn [String.length Nat.sub] in IH |- *.
    rewrite Nat.sub_0_r in IH. by apply IH.
Qed.

Lemma strip_newline_none (l : string) :
  strchr l newline = None -> strip_newline l = l.
Proof.
  intros Hl. unfold strip_newline.
  pose proof (get_last_not l newline Hl) as Hlast.
  destruct (String.get (String.length l - 1) l) as [c|]; [|done].
  destruct (Ascii.eqb_spec c newline) as [->|Hne]; [done|].
  by rewrite andb_false_r.
Qed.

Lemma string_split_at (n : nat) (l : string) :
  (n <= String.length l)%nat ->
  exists l1 l2, l = (l1 ++ l2)%string /\ String.length l1 = n.
Proof.
  revert l. induction n as [|n IH]; intros l Hn.
  - by exists EmptyString, l.
  - destruct l as [|x l]; [simpl in Hn; lia|]. simpl in Hn.
    destruct (IH l ltac:(lia)) as (l1 & l2 & -> & Hl).
    exists (String x l1), l2. simpl. by rewrite Hl.
Qed.

(** X24: [read_line (buf, n)] on an input that starts with a line without a
    newline in it, followed by its newline: when the line fits the buffer
    ([n - 2] characters at most) the line is returned without the newline
    and the input moves past the newline; otherwise the first [n - 1]
    characters are returned and the others stay in the input, newline
    included, for the next read. *)
Theorem read_line_line_or_chunk (n : nat) (l rest : string) (w : World) :
  (1 <= n)%nat -> strchr l newline = None ->
  stdin w = (l ++ nl ++ rest)%string ->
  ((String.length l < n - 1)%nat ->
     read_line n w = (Value l, mkWorld rest (calls w) (store w))) /\
  ((n - 1 <= String.length l)%nat ->
     exists l1 l2,
       l = (l1 ++ l2)%string /\ String.length l1 = (n - 1)%nat /\
       read_line n w =
         (Value l1, mkWorld (l2 ++ nl ++ rest) (calls w) (store w))).
Proof.
  intros Hn Hl Hin. unfold read_line, fgets. rewrite Hin.
  assert (Hne : exists c s, (l ++ nl ++ rest)%string = String c s).
  { destruct l; simpl; eauto. }
  destruct Hne as (c & s & Hcs). rewrite Hcs, <- Hcs. clear c s Hcs.
  split.
  - intros Hlen. rewrite fgets_chars_line by done.
    by rewrite strip_newline_line.
  - intros Hlen. destruct (string_split_at (n - 1) l Hlen) as (l1 & l2 & -> & H1).
    exists l1, l2. split; [done|]. split; [done|].
    assert (H1n : strchr l1 newline = None).
    { destruct (strchr l1 newline) eqn:E; [|done].
      clear -Hl E. exfalso. revert n0 E Hl.
      induction l1 as [|x l1 IH]; intros k E Hl; [done|].
      simpl in *. destruct (Ascii.eqb x newline); [done|].
      destruct (strchr l1 newline) eqn:E1; [|done].
      destruct (strchr (l1 ++ l2) newline) eqn:E2; [done|].
      by apply (IH n). }
    rewrite string_app_assoc, <- H1, fgets_chars_chunk by done.
    by rewrite strip_newline_none.
Qed.

Lemma read_line_line_or_chunk_witness :
  read_line 4 (mkWorld ("ab" ++ nl ++ "cd") [] []) =
    (Value "ab"%string,
     mkWorld "cd" (calls (mkWorld ("ab" ++ nl ++ "cd") [] []))
       (store (mkWorld ("ab" ++ nl ++ "cd") [] []))).
Proof.
  apply (proj1 (read_line_line_or_chunk 4 "ab" "cd"
                  (mkWorld ("ab" ++ nl ++ "cd") [] [])
                  ltac:(lia) eq_refl eq_refl)).
  simpl. lia.
Defined.

(** ** Loading the data file *)

Lemma id_key_not_after_quote (nm tail : string) :
  strchr nm dquote = None ->
  String.prefix (String "i" (String "d" (String dquote ":")))
    (nm ++ String dquote (String "," tail)) = false.
Proof.
  intros Hnm.
  destruct nm as [|a [|b [|c nm]]]; cbn [String.append];
    rewrite ?prefix_cons; try done.
  - apply andb_false_iff. by right.
  - apply andb_false_iff. right. apply andb_false_iff. right.
    apply andb_false_iff. by right.
  - apply strchr_cons_None in Hnm as [_ Hnm].
    apply strchr_cons_None in Hnm as [_ Hnm].
    apply strchr_cons_None in Hnm as [Hc _].
    rewrite (Ascii.eqb_sym dquote c), Hc.
    apply andb_false_iff. right. apply andb_false_iff. by right.
Qed.

Lemma id_key_quote : id_key = String dquote (String "i" (String "d" (String dquote ":"))).
Proof. done. Qed.

Lemma name_line_no_id_key (nm : string) :
  strchr nm dquote = None ->
  strstr (dq ++ "name" ++ dq ++ ": " ++ dq ++ nm ++ dq ++ "," ++ nl) id_key
  = false.
Proof.
  intros Hnm. simpl. rewrite id_key_not_after_quote by done. simpl.
  rewrite id_key_quote, strstr_skip by done. done.
Qed.

Lemma load_line_name (sscanf_d : string -> option Z)
    (sscanf_f : string -> option float32) (ld : Loader)
    (students : list Student) (s : Student) :
  strchr (name s) dquote = None ->
  load_line sscanf_d sscanf_f (ld, students) (name_line s) =
    (mkLoader (current_id ld) ": " (in_student ld), students).
Proof.
  intros Hnm. unfold load_line, name_line.
  change (skip_blanks
            ("      " ++ dq ++ "name" ++ dq ++ ": " ++ dq ++ name s ++ dq ++
             "," ++ nl))
    with (dq ++ "name" ++ dq ++ ": " ++ dq ++ name s ++ dq ++ "," ++ nl)%string.
  rewrite name_line_no_id_key by done.
  cbv zeta.
  assert (Hkey : strstr
            (dq ++ "name" ++ dq ++ ": " ++ dq ++ name s ++ dq ++ "," ++ nl)
            name_key = true) by done.
  rewrite Hkey. simpl. done.
Qed.

(** X25: the loader does not read a name back.  On the line that
    [save_students_to_file] writes for the name of a record (a name without
    a double quote in it), the text it takes for the name is what stands
    between the second and the third double quote of the line, which is a
    colon and a space: whatever the name saved, the name loaded is [: ]. *)
Theorem load_line_name_lost (sscanf_d : string -> option Z)
    (sscanf_f : string -> option float32) (ld : Loader)
    (students : list Student) (s : Student) :
  strchr (name s) dquote = None ->
  load_line sscanf_d sscanf_f (ld, students) (name_line s) =
    (mkLoader (current_id ld) ": " (in_student ld), students).
Proof. apply load_line_name. Qed.

Lemma load_line_name_lost_witness :
  load_line (fun _ => None) (fun _ => None)
    (mkLoader 7 EmptyString true, []) (name_line (mkStudent 7 "Alice" [] f32_zero))
  = (mkLoader (current_id (mkLoader 7 EmptyString true)) ": "
       (in_student (mkLoader 7 EmptyString true)), []).
Proof.
  apply (load_line_name_lost (fun _ => None) (fun _ => None)
           (mkLoader 7 EmptyString true) [] (mkStudent 7 "Alice" [] f32_zero)).
  reflexivity.
Defined.

Lemma store_loaded_grade (t : Z) (g : float32) (st : list Student) :
  store_loaded st -> store_loaded (snd (add_grade_to_student t g st)).
Proof.
  intros [Hnd Hall]. split; [by rewrite add_grade_to_student_ids|].
  apply add_grade_to_student_Forall; [|done].
  intros s (Hid & Hnm & Hlen & Hav).
  destruct (graded_average s g) as (Havg & Hgr & Hi & Hname).
  split; [|split; [|split]].
  - by rewrite Hi.
  - by rewrite Hname.
  - by rewrite Hname.
  - rewrite Havg, Hgr. apply arithmetic_mean_is_mean.
Qed.

Lemma grades_loop_loaded (sscanf_f : string -> option float32) (t : Z)
    (stop : nat) (tokens : list (nat * string)) (st : list Student) :
  store_loaded st -> store_loaded (grades_loop sscanf_f t stop tokens st).
Proof.
  revert st. induction tokens as [|[off token] tokens IH]; intros st Hst;
    [done|].
  simpl. destruct (off <? stop)%nat; [|done]. apply IH.
  destruct (sscanf_f token); [by apply store_loaded_grade|done].
Qed.

Lemma store_loaded_add (t : Z) (nm : string) (st : list Student) :
  0 <= t -> nm <> EmptyString -> store_loaded st ->
  store_loaded (snd (add_student t (Some nm) st)).
Proof.
  intros Ht Hnm [Hnd Hall]. split; [by apply add_student_NoDup|].
  apply add_student_Forall; [|done]. split; [|split; [|split]]; simpl.
  - done.
  - by apply copy_name_nonempty.
  - apply copy_name_length.
  - done.
Qed.

Lemma load_line_loaded (sscanf_d : string -> option Z)
    (sscanf_f : string -> option float32) (st : Loader * list Student)
    (line : string) :
  store_loaded (snd st) ->
  store_loaded (snd (load_line sscanf_d sscanf_f st line)).
Proof.
  destruct st as [ld students]. simpl. intros Hst. cbv zeta.
  destruct (strstr (skip_blanks line) id_key); [done|].
  destruct (strstr (skip_blanks line) name_key).
  { repeat match goal with
           | |- context [match ?x with _ => _ end] => destruct x
           end; done. }
  destruct (strstr (skip_blanks line) grades_key).
  - assert (Hadd : store_loaded
              (if (0 <=? current_id ld) &&
                  (0 <? String.length (current_name ld))%nat
               then snd (add_student (current_id ld)
                           (Some (current_name ld)) students)
               else students)).
    { destruct (Z.leb_spec 0 (current_id ld)); [|done].
      destruct (Nat.ltb_spec 0 (String.length (current_name ld))); [|done].
      apply store_loaded_add; [done| |done].
      intros Heq. rewrite Heq in *. simpl in *. lia. }
    destruct (strchr (skip_blanks line) "["), (strchr (skip_blanks line) "]");
      try done.
    destruct (0 <=? current_id ld); [|done].
    by apply grades_loop_loaded.
  - by destruct (strstr (skip_blanks line) "}" && in_student ld).
Qed.

Lemma load_lines_loaded (sscanf_d : string -> option Z)
    (sscanf_f : string -> option float32) (lines : list string)
    (st : Loader * list Student) :
  store_loaded (snd st) ->
  store_loaded (snd (foldl (load_line sscanf_d sscanf_f) st lines)).
Proof.
  revert st. induction lines as [|line lines IH]; intros st Hst; [done|].
  simpl. by apply IH, load_line_loaded.
Qed.

(** X26: [load_students_from_file] always returns true, and without a data
    file it leaves the store as it was.  Whatever the file holds, the
    records it adds come through [add_student] and [add_grade_to_student]:
    from the empty store (or any store loaded so) the ids are pairwise
    distinct and none is negative, every name is non-empty and has at most
    49 characters, and every average is the mean of the grades of its record,
    computed by the store and not read from the file. *)
Theorem load_students_from_file_valid (sscanf_d : string -> option Z)
    (sscanf_f : string -> option float32) (file : option string)
    (students : list Student) :
  fst (load_students_from_file sscanf_d sscanf_f file students) = true /\
  (file = None ->
     snd (load_students_from_file sscanf_d sscanf_f file students) = students) /\
  (store_loaded students ->
     store_loaded
       (snd (load_students_from_file sscanf_d sscanf_f file students))).
Proof.
  unfold load_students_from_file.
  split; [by destruct file|]. split; [by intros ->|].
  intros Hst. destruct file as [content|]; [|done].
  cbn [snd]. by apply load_lines_loaded.
Qed.

Lemma load_students_from_file_valid_witness :
  store_loaded
    (snd (load_students_from_file (fun _ => Some 3)
            (fun token => Some (f32_of_int (Z.of_nat (String.length token))))
            (Some (file_text (fun _ => "3"%string) (fun _ => "1.00"%string)
                     [mkStudent 3 "Al" [f32_of_int 1; f32_of_int 1]
                        (f32_of_int 1)]))
            [mkStudent 5 "Eve" [f32_of_int 80; f32_of_int 90]
               (f32_of_int 85)])) /\
  snd (load_students_from_file (fun _ => Some 3) (fun _ => None) None
         [mkStudent 5 "Eve" [f32_of_int 80; f32_of_int 90] (f32_of_int 85)]) =
    [mkStudent 5 "Eve" [f32_of_int 80; f32_of_int 90] (f32_of_int 85)].
Proof.
  split.
  - apply (load_students_from_file_valid (fun _ => Some 3)
             (fun token => Some (f32_of_int (Z.of_nat (String.length token))))).
    split; [simpl; apply NoDup_singleton|]. apply Forall_singleton.
    split; [simpl; lia|]. split; [done|]. split; [simpl; lia|].
    apply average_consistent_mean. reflexivity.
  - by apply (load_students_from_file_valid (fun _ => Some 3) (fun _ => None)
                None).
Defined.

(** What that load does: the record of the file is added after the one of
    the store, with the name the loader makes of it and the two grades that
    [sscanf] returns for the two tokens of the grades line (here their
    lengths, 4 and 6); its average, 5, is computed from them, and the 1.00
    of the file is not looked at. *)
Example load_students_from_file_grades :
  load_students_from_file (fun _ => Some 3)
    (fun token => Some (f32_of_int (Z.of_nat (String.length token))))
    (Some (file_text (fun _ => "3"%string) (fun _ => "1.00"%string)
             [mkStudent 3 "Al" [f32_of_int 1; f32_of_int 1] (f32_of_int 1)]))
    [mkStudent 5 "Eve" [f32_of_int 80; f32_of_int 90] (f32_of_int 85)] =
  (true,
   [mkStudent 5 "Eve" [f32_of_int 80; f32_of_int 90] (f32_of_int 85);
    mkStudent 3 ": " [f32_of_int 4; f32_of_int 6] (f32_of_int 5)]).
Proof. reflexivity. Qed.

(** ** Saving, then loading *)

Lemma string_concat_app (l1 l2 : list string) :
  string_concat (l1 ++ l2) = (string_concat l1 ++ string_concat l2)%string.
Proof.
  induction l1 as [|l l1 IH]; simpl; [done|].
  by rewrite IH, string_app_assoc.
Qed.

Section RoundTrip.
Variable fmt_d : Z -> string.
Variable fmt_2f : float32 -> string.
Variable sscanf_d : string -> option Z.
Variable sscanf_f : string -> option float32.
Variable reread : float32 -> float32.

Lemma students_text_lines (students : list Student) :
  students_text fmt_d fmt_2f students =
    string_concat (students_lines fmt_d fmt_2f students).
Proof.
  induction students as [|s rest IH]; [done|].
  cbn [students_text students_lines]. rewrite string_concat_app, <- IH.
  unfold record_lines. cbn [string_concat].
  rewrite string_app_nil_r, !string_app_assoc.
  by destruct rest.
Qed.

Lemma file_text_lines (students : list Student) :
  file_text fmt_d fmt_2f students =
    string_concat (file_lines fmt_d fmt_2f students).
Proof.
  unfold file_text, file_lines.
  rewrite !string_concat_app, <- students_text_lines. cbn [string_concat].
  by rewrite !string_app_assoc, !string_app_nil_r, ?string_app_assoc.
Qed.

Lemma whole_line_nonempty (l : string) : whole_line l -> (1 <= String.length l)%nat.
Proof.
  intros (b & -> & _). rewrite string_app_length. simpl. lia.
Qed.

Lemma string_concat_length (ls : list string) :
  Forall whole_line ls -> (length ls <= String.length (string_concat ls))%nat.
Proof.
  induction 1 as [|l ls Hl _ IH]; simpl; [lia|].
  apply whole_line_nonempty in Hl. rewrite string_app_length. lia.
Qed.

Lemma fgets_lines_concat (ls : list string) (fuel : nat) :
  Forall whole_line ls -> (length ls <= fuel)%nat ->
  fgets_lines fuel 512 (string_concat ls) = ls.
Proof.
  intros Hls. revert fuel. induction Hls as [|l ls Hl _ IH]; intros fuel Hf.
  - by destruct fuel.
  - destruct fuel as [|fuel]; [simpl in Hf; lia|]. simpl in Hf.
    destruct Hl as (b & -> & Hb & Hlen).
    cbn [string_concat fgets_lines]. rewrite string_app_assoc.
    unfold fgets.
    assert (Hne : exists c s, (b ++ nl ++ string_concat ls)%string = String c s).
    { destruct b; simpl; eauto. }
    destruct Hne as (c & s & Hcs). rewrite Hcs, <- Hcs. clear c s Hcs.
    change (512 - 1)%nat with 511%nat.
    rewrite fgets_chars_line by done. rewrite IH by lia. done.
Qed.

(** *** The lines that change nothing, or reset the loader *)

Lemma load_line_open (ld : Loader) (st : list Student) :
  load_line sscanf_d sscanf_f (ld, st) ("    {" ++ nl) = (ld, st).
Proof. done. Qed.

Lemma load_line_header1 (ld : Loader) (st : list Student) :
  load_line sscanf_d sscanf_f (ld, st) ("{" ++ nl) = (ld, st).
Proof. done. Qed.

Lemma load_line_header2 (ld : Loader) (st : list Student) :
  load_line sscanf_d sscanf_f (ld, st)
    ("  " ++ dq ++ "students" ++ dq ++ ": [" ++ nl) = (ld, st).
Proof. done. Qed.

Lemma load_line_footer1 (ld : Loader) (st : list Student) :
  load_line sscanf_d sscanf_f (ld, st) ("  ]" ++ nl) = (ld, st).
Proof. done. Qed.

Lemma load_line_footer2 (i : Z) (nm : string) (st : list Student) :
  load_line sscanf_d sscanf_f (mkLoader i nm false, st) ("}" ++ nl) =
    (mkLoader i nm false, st).
Proof. done. Qed.

Lemma load_line_close (i : Z) (nm : string) (more : bool)
    (st : list Student) :
  load_line sscanf_d sscanf_f (mkLoader i nm true, st)
    ("    }" ++ (if more then "," else "") ++ nl) =
    (mkLoader (-1) EmptyString false, st).
Proof. by destruct more. Qed.

Lemma load_line_id (ld : Loader) (st : list Student) (s : Student) :
  sscanf_d (" " ++ fmt_d (id s) ++ "," ++ nl) = Some (id s) ->
  load_line sscanf_d sscanf_f (ld, st) (id_line fmt_d s) =
    (mkLoader (id s) (current_name ld) true, st).
Proof.
  intros Hd. unfold load_line, id_line, sscanf_id. simpl in *.
  by rewrite Hd.
Qed.

Lemma name_key_quote :
  name_key =
    String dquote
      (String "n" (String "a" (String "m" (String "e" (String dquote ":"))))).
Proof. done. Qed.

Lemma grades_key_quote :
  grades_key =
    String dquote
      (String "g" (String "r" (String "a" (String "d" (String "e"
        (String "s" (String dquote ":"))))))).
Proof. done. Qed.

(** The three markers begin with a double quote: they are not found in a
    text without one. *)
Lemma keys_absent (t : string) :
  strchr t dquote = None ->
  strstr t id_key = false /\ strstr t name_key = false /\
  strstr t grades_key = false.
Proof.
  intros Ht. rewrite id_key_quote, name_key_quote, grades_key_quote.
  by rewrite !strstr_absent.
Qed.

Lemma load_line_average (ld : Loader) (st : list Student) (s : Student) :
  number_text (fmt_2f (average s)) ->
  load_line sscanf_d sscanf_f (ld, st) (average_line fmt_2f s) = (ld, st).
Proof.
  intros (_ & Hq & Hn & _ & _ & Hb). unfold load_line. cbv zeta.
  assert (Hp : skip_blanks (average_line fmt_2f s) =
               (dq ++ "average" ++ dq ++ ": " ++ fmt_2f (average s) ++ nl)%string)
    by done.
  rewrite Hp. clear Hp.
  assert (Htail : strchr (fmt_2f (average s) ++ nl) dquote = None)
    by (by apply strchr_app_None_None).
  destruct (keys_absent _ Htail) as (H1 & H2 & H3).
  assert (K1 : strstr (dq ++ "average" ++ dq ++ ": " ++ fmt_2f (average s) ++ nl)
                 id_key = false) by (simpl; by rewrite H1).
  assert (K2 : strstr (dq ++ "average" ++ dq ++ ": " ++ fmt_2f (average s) ++ nl)
                 name_key = false) by (simpl; by rewrite H2).
  assert (K3 : strstr (dq ++ "average" ++ dq ++ ": " ++ fmt_2f (average s) ++ nl)
                 grades_key = false) by (simpl; by rewrite H3).
  assert (K4 : strstr (dq ++ "average" ++ dq ++ ": " ++ fmt_2f (average s) ++ nl)
                 "}" = false).
  { simpl. rewrite strstr_skip by done. done. }
  by rewrite K1, K2, K3, K4.
Qed.

(** *** The grades line *)

Lemma strtok_nil (fuel : nat) (c : ascii) (off : nat) :
  strtok fuel c EmptyString off = [].
Proof. by destruct fuel. Qed.

Lemma strtok_delim (fuel : nat) (c : ascii) (b : string) (off : nat) :
  strtok (S fuel) c (String c b) off = strtok fuel c b (S off).
Proof. simpl. by rewrite Ascii.eqb_refl. Qed.

Lemma strtok_token (fuel : nat) (c : ascii) (a b : string) (off : nat) :
  a <> EmptyString -> strchr a c = None ->
  strtok (S fuel) c (a ++ String c b) off =
    (off, a) :: strtok fuel c (String c b) (off + String.length a).
Proof.
  intros Hne Ha. destruct a as [|x a]; [done|].
  pose proof (until_char_app c (String x a) b Ha) as Hu.
  apply strchr_cons_None in Ha as [Hx Ha].
  change (String x a ++ String c b)%string with (String x (a ++ String c b))
    in *.
  cbn [strtok]. rewrite Hx, Hu. done.
Qed.

Lemma until_char_none (c : ascii) (a : string) :
  strchr a c = None -> until_char c a = (a, EmptyString).
Proof.
  induction a as [|x a IH]; [done|].
  intros [Hx Ha]%strchr_cons_None. simpl. by rewrite Hx, IH.
Qed.

Lemma strtok_last (fuel : nat) (c : ascii) (a : string) (off : nat) :
  a <> EmptyString -> strchr a c = None ->
  strtok (S fuel) c a off = [(off, a)].
Proof.
  intros Hne Ha. destruct a as [|x a]; [done|].
  pose proof (until_char_none c (String x a) Ha) as Hu.
  apply strchr_cons_None in Ha as [Hx Ha].
  cbn [strtok]. rewrite Hx, Hu. by rewrite strtok_nil.
Qed.

Lemma grades_text_single (g : float32) : grades_text fmt_2f [g] = fmt_2f g.
Proof. simpl. by rewrite string_app_nil_r. Qed.

Lemma grades_text_more (g g' : float32) (rest : list float32) :
  grades_text fmt_2f (g :: g' :: rest) =
    (fmt_2f g ++ ", " ++ grades_text fmt_2f (g' :: rest))%string.
Proof. done. Qed.

Lemma pre_no_comma (pre : string) :
  pre ∈ [EmptyString; " "%string] -> strchr pre "," = None.
Proof.
  intros H. apply elem_of_cons in H as [->|H]; [done|].
  apply list_elem_of_singleton in H as ->. done.
Qed.

Lemma grades_loop_tokens (t : Z) (gs : list float32) (pre : string)
    (off fuel : nat) (st : list Student) :
  Forall (fun g => number_text (fmt_2f g) /\ grade_read_back fmt_2f sscanf_f reread g) gs ->
  pre ∈ [EmptyString; " "%string] -> (gs = [] -> pre = EmptyString) ->
  (String.length (pre ++ grades_text fmt_2f gs ++ "]," ++ nl) <= fuel)%nat ->
  grades_loop sscanf_f t (off + String.length (pre ++ grades_text fmt_2f gs))
    (strtok fuel "," (pre ++ grades_text fmt_2f gs ++ "]," ++ nl) off) st
  = add_grades t (reread <$> gs) st.
Proof.
  intros Hgs. revert pre off fuel st.
  induction Hgs as [|g gs [Hnum Hread] Hgs IH]; intros pre off fuel st Hpre He Hf.
  - rewrite (He eq_refl) in *. simpl in Hf.
    destruct fuel as [|fuel]; [lia|]. simpl.
    replace (off <? off + 0)%nat with false
      by (symmetry; apply Nat.ltb_ge; lia).
    done.
  - destruct Hnum as (Hne & _ & _ & Hcomma & _ & _).
    pose proof (pre_no_comma pre Hpre) as Hprec.
    assert (Hlen : (1 <= String.length (fmt_2f g))%nat).
    { destruct (fmt_2f g); [done|simpl; lia]. }
    destruct gs as [|g' rest].
    + (* the last grade: its token runs up to the bracket *)
      rewrite grades_text_single in *.
      replace (pre ++ fmt_2f g ++ "]," ++ nl)%string
        with ((pre ++ fmt_2f g ++ "]") ++ String "," nl)%string in *
        by (by rewrite !string_app_assoc).
      assert (Hf3 : (3 <= fuel)%nat).
      { rewrite !string_app_length in Hf. cbn [String.length] in Hf. lia. }
      destruct fuel as [|[|[|fuel]]]; try lia.
      rewrite strtok_token, strtok_delim; cycle 1.
      { destruct pre; [destruct (fmt_2f g)|]; done. }
      { apply strchr_app_None_None; [done|].
        by apply strchr_app_None_None. }
      unfold nl at 1. rewrite strtok_last by done.
      cbn [grades_loop].
      replace (off <? off + String.length (pre ++ fmt_2f g))%nat with true
        by (symmetry; apply Nat.ltb_lt; rewrite string_app_length; lia).
      rewrite (Hread pre "]"%string Hpre) by (right; left).
      replace (S (off + String.length (pre ++ fmt_2f g ++ "]")) <?
               off + String.length (pre ++ fmt_2f g))%nat with false
        by (symmetry; apply Nat.ltb_ge; rewrite !string_app_length; simpl; lia).
      done.
    + (* a grade followed by others *)
      rewrite grades_text_more in *.
      replace (pre ++ (fmt_2f g ++ ", " ++ grades_text fmt_2f (g' :: rest))
               ++ "]," ++ nl)%string
        with ((pre ++ fmt_2f g) ++
              String "," (" " ++ grades_text fmt_2f (g' :: rest) ++ "]," ++ nl))%string
        in * by (by rewrite !string_app_assoc).
      assert (Hf2 : (2 <= fuel)%nat).
      { rewrite !string_app_length in Hf. cbn [String.length] in Hf. lia. }
      destruct fuel as [|[|fuel]]; try lia.
      rewrite strtok_token, strtok_delim; cycle 1.
      { destruct pre; [destruct (fmt_2f g)|]; done. }
      { by apply strchr_app_None_None. }
      cbn [grades_loop].
      replace (off <? off + String.length
                 (pre ++ fmt_2f g ++ ", " ++ grades_text fmt_2f (g' :: rest)))%nat
        with true
        by (symmetry; apply Nat.ltb_lt; rewrite !string_app_length; lia).
      pose proof (Hread pre EmptyString Hpre ltac:(left)) as Hr.
      rewrite string_app_nil_r in Hr. rewrite Hr.
      replace (off + String.length
                 (pre ++ fmt_2f g ++ ", " ++ grades_text fmt_2f (g' :: rest)))%nat
        with (S (off + String.length (pre ++ fmt_2f g)) +
              String.length (" " ++ grades_text fmt_2f (g' :: rest)))%nat
        by (rewrite !string_app_length; simpl; lia).
      rewrite IH; [done|right; left|done|].
      clear IH. rewrite !string_app_length in *.
      cbn [String.length String.append] in *.
      rewrite !string_app_length in *. cbn [String.length] in *. lia.
Qed.

Lemma grades_text_no_char (c : ascii) (gs : list float32) :
  Ascii.eqb "," c = false -> Ascii.eqb " " c = false ->
  Forall (fun g => strchr (fmt_2f g) c = None) gs ->
  strchr (grades_text fmt_2f gs) c = None.
Proof.
  intros Hc Hs. induction 1 as [|g gs Hg Hgs IH]; [done|].
  cbn [grades_text]. apply strchr_app_None_None; [done|].
  apply strchr_app_None_None; [|done].
  destruct gs; [done|]. cbn [strchr]. by rewrite Hc, Hs.
Qed.

Lemma load_line_grades (i : Z) (st : list Student) (s : Student) :
  Forall (fun g => number_text (fmt_2f g) /\
                   grade_read_back fmt_2f sscanf_f reread g) (grades s) ->
  load_line sscanf_d sscanf_f (mkLoader i ": " true, st)
    (grades_line fmt_2f s) =
    (mkLoader i ": " true,
     if 0 <=? i
     then add_grades i (reread <$> grades s)
            (snd (add_student i (Some ": "%string) st))
     else st).
Proof.
  intros Hgs. unfold load_line. cbv zeta.
  assert (Hp : skip_blanks (grades_line fmt_2f s) =
               (dq ++ "grades" ++ dq ++ ": [" ++
                grades_text fmt_2f (grades s) ++ "]," ++ nl)%string)
    by done.
  rewrite Hp. clear Hp.
  assert (Hq : strchr (grades_text fmt_2f (grades s)) dquote = None).
  { apply grades_text_no_char; [done|done|].
    eapply Forall_impl; [exact Hgs|]. by intros g [(_ & ? & _) _]. }
  assert (Hb : strchr (grades_text fmt_2f (grades s)) "]" = None).
  { apply grades_text_no_char; [done|done|].
    eapply Forall_impl; [exact Hgs|]. by intros g [(_ & _ & _ & _ & ? & _) _]. }
  assert (Hloop : forall fuel,
            (String.length (grades_text fmt_2f (grades s)) + 3 <= fuel)%nat ->
            grades_loop sscanf_f i
              (11 + String.length (grades_text fmt_2f (grades s)))
              (strtok fuel ","
                 (grades_text fmt_2f (grades s) ++ "]," ++ nl) 11)
              (snd (add_student i (Some ": "%string) st))
            = add_grades i (reread <$> grades s)
                (snd (add_student i (Some ": "%string) st))).
  { intros fuel Hfuel.
    apply (grades_loop_tokens i (grades s) EmptyString 11 fuel);
      [done|left|done|].
    cbn [String.append]. rewrite string_app_length. simpl. lia. }
  remember (grades_text fmt_2f (grades s)) as gt eqn:Egt. clear Egt.
  assert (Htail : strchr (gt ++ "]," ++ nl) dquote = None)
    by (by apply strchr_app_None_None).
  destruct (keys_absent _ Htail) as (H1 & H2 & _).
  assert (K1 : strstr (dq ++ "grades" ++ dq ++ ": [" ++ gt ++ "]," ++ nl)
                 id_key = false) by (simpl in *; by rewrite H1).
  assert (K2 : strstr (dq ++ "grades" ++ dq ++ ": [" ++ gt ++ "]," ++ nl)
                 name_key = false) by (simpl in *; by rewrite H2).
  assert (K3 : strstr (dq ++ "grades" ++ dq ++ ": [" ++ gt ++ "]," ++ nl)
                 grades_key = true) by done.
  assert (C1 : strchr (dq ++ "grades" ++ dq ++ ": [" ++ gt ++ "]," ++ nl) "["
               = Some 10%nat) by done.
  assert (C2 : strchr (dq ++ "grades" ++ dq ++ ": [" ++ gt ++ "]," ++ nl) "]"
               = Some (11 + String.length gt)%nat).
  { simpl. change (String "]" (String "," nl)) with ("]," ++ nl)%string.
    change ("]," ++ nl)%string with (String "]" ("," ++ nl)).
    by rewrite strchr_at. }
  rewrite K1, K2, K3, C1, C2. cbn [current_id current_name in_student].
  change (0 <? String.length ": ")%nat with true. rewrite andb_true_r.
  destruct (0 <=? i); [|done].
  f_equal.
  change (advance (10 + 1)
            (dq ++ "grades" ++ dq ++ ": [" ++ gt ++ "]," ++ nl))
    with (gt ++ "]," ++ nl)%string.
  change (10 + 1)%nat with 11%nat.
  apply Hloop. rewrite !string_app_length. simpl. lia.
Qed.

(** *** A record, then the file *)

Lemma load_record (st : list Student) (s : Student) (more : bool) :
  record_saved fmt_d fmt_2f sscanf_d sscanf_f reread s ->
  foldl (load_line sscanf_d sscanf_f) (mkLoader (-1) EmptyString false, st)
    (record_lines fmt_d fmt_2f s more) =
    (mkLoader (-1) EmptyString false,
     if 0 <=? id s then enroll st (reloaded reread s) else st).
Proof.
  intros (Hq & _ & _ & Hd & Hav & Hgs & _).
  unfold record_lines. cbn [foldl].
  rewrite load_line_open, load_line_id by done.
  rewrite load_line_name by done. cbn [current_id current_name in_student].
  rewrite load_line_grades by done.
  rewrite load_line_average by done.
  by rewrite load_line_close.
Qed.

Lemma load_students_lines (st : list Student) (students : list Student) :
  Forall (record_saved fmt_d fmt_2f sscanf_d sscanf_f reread) students ->
  foldl (load_line sscanf_d sscanf_f) (mkLoader (-1) EmptyString false, st)
    (students_lines fmt_d fmt_2f students) =
    (mkLoader (-1) EmptyString false,
     foldl enroll st
       (reloaded reread <$> filter (fun s => 0 <= id s) students)).
Proof.
  intros Hall. revert st.
  induction Hall as [|s rest Hs _ IH]; intros st; [done|].
  cbn [students_lines]. rewrite foldl_app, load_record by done.
  rewrite IH. f_equal.
  destruct (Z.leb_spec 0 (id s)).
  - by rewrite filter_cons_True.
  - rewrite filter_cons_False by lia. done.
Qed.

Lemma whole_line_intro (body : string) :
  strchr body newline = None -> (String.length (body ++ nl) <= 511)%nat ->
  whole_line (body ++ nl).
Proof.
  intros Hb Hlen. exists body. split; [done|]. split; [done|].
  rewrite string_app_length in Hlen. simpl in Hlen. lia.
Qed.

Lemma whole_line_text (body : string) :
  strchr body newline = None -> (String.length body <? 511)%nat = true ->
  whole_line (body ++ nl).
Proof.
  intros Hb Hlen. exists body. split; [done|]. split; [done|].
  by apply Nat.ltb_lt.
Qed.

Ltac no_newline :=
  repeat first
    [ assumption | by vm_compute | apply strchr_app_None_None ].

Lemma record_lines_whole (s : Student) (more : bool) :
  record_saved fmt_d fmt_2f sscanf_d sscanf_f reread s ->
  Forall whole_line (record_lines fmt_d fmt_2f s more).
Proof.
  intros (_ & Hnm & Hid & _ & Hav & Hgs & L1 & L2 & L3 & L4).
  assert (Hgt : strchr (grades_text fmt_2f (grades s)) newline = None).
  { apply grades_text_no_char; [done|done|].
    eapply Forall_impl; [exact Hgs|]. by intros g [(_ & _ & ? & _) _]. }
  destruct Hav as (_ & _ & Havn & _).
  unfold record_lines. repeat apply Forall_cons_2; [| | | | | |constructor].
  - by apply (whole_line_text "    {").
  - unfold id_line in *.
    replace ("      " ++ dq ++ "id" ++ dq ++ ": " ++ fmt_d (id s) ++ "," ++ nl)%string
      with (("      " ++ dq ++ "id" ++ dq ++ ": " ++ fmt_d (id s) ++ ",") ++ nl)%string
      in * by (by rewrite !string_app_assoc).
    apply whole_line_intro; [no_newline|done].
  - unfold name_line in *.
    replace ("      " ++ dq ++ "name" ++ dq ++ ": " ++ dq ++ name s ++ dq ++ "," ++ nl)%string
      with (("      " ++ dq ++ "name" ++ dq ++ ": " ++ dq ++ name s ++ dq ++ ",") ++ nl)%string
      in * by (by rewrite !string_app_assoc).
    apply whole_line_intro; [no_newline|done].
  - unfold grades_line in *.
    replace ("      " ++ dq ++ "grades" ++ dq ++ ": [" ++
             grades_text fmt_2f (grades s) ++ "]," ++ nl)%string
      with (("      " ++ dq ++ "grades" ++ dq ++ ": [" ++
             grades_text fmt_2f (grades s) ++ "],") ++ nl)%string
      in * by (by rewrite !string_app_assoc).
    apply whole_line_intro; [no_newline|done].
  - unfold average_line in *.
    replace ("      " ++ dq ++ "average" ++ dq ++ ": " ++
             fmt_2f (average s) ++ nl)%string
      with (("      " ++ dq ++ "average" ++ dq ++ ": " ++
             fmt_2f (average s)) ++ nl)%string
      in * by (by rewrite !string_app_assoc).
    apply whole_line_intro; [no_newline|done].
  - destruct more.
    + by apply (whole_line_text "    },").
    + by apply (whole_line_text "    }").
Qed.

Lemma file_lines_whole (students : list Student) :
  Forall (record_saved fmt_d fmt_2f sscanf_d sscanf_f reread) students ->
  Forall whole_line (file_lines fmt_d fmt_2f students).
Proof.
  intros Hall. unfold file_lines.
  apply Forall_app. split.
  { repeat apply Forall_cons_2; [| |constructor].
    - by apply (whole_line_text "{").
    - by apply (whole_line_text ("  " ++ dq ++ "students" ++ dq ++ ": [")). }
  apply Forall_app. split.
  - induction Hall as [|s rest Hs _ IH]; [constructor|].
    cbn [students_lines]. apply Forall_app. split; [|done].
    by apply record_lines_whole.
  - repeat apply Forall_cons_2; [| |constructor].
    + by apply (whole_line_text "  ]").
    + by apply (whole_line_text "}").
Qed.

Lemma save_then_load_store (students : list Student) :
  Forall (record_saved fmt_d fmt_2f sscanf_d sscanf_f reread) students ->
  load_students_from_file sscanf_d sscanf_f
    (Some (file_text fmt_d fmt_2f students)) init_students =
    (true,
     store_of (reloaded reread <$> filter (fun s => 0 <= id s) students)).
Proof.
  intros Hall. unfold load_students_from_file. f_equal.
  pose proof (file_lines_whole students Hall) as Hwhole.
  rewrite file_text_lines.
  rewrite fgets_lines_concat by (done || by apply string_concat_length).
  unfold file_lines. rewrite !foldl_app. cbn [foldl].
  rewrite load_line_header1, load_line_header2, load_students_lines by done.
  by rewrite load_line_footer1, load_line_footer2.
Qed.
End RoundTrip.

(** X27: what comes back from the data file.  When the records saved are
    such that the file can be read back line by line (no line longer than
    the 511 characters the loader reads at a time, no double quote or newline
    in a name, numbers written without the characters the loader looks for
    and read back by [sscanf]), loading into the empty store the file just
    saved returns true and gives: the records whose id is not negative, in
    their order, each with its id, with the name [: ] instead of its name,
    with its grades as [sscanf] reads them back from their two-decimal
    text, and with the average computed from those; the records with a
    negative id are dropped. *)
Theorem save_then_load (fmt_d : Z -> string) (fmt_2f : float32 -> string)
    (sscanf_d : string -> option Z) (sscanf_f : string -> option float32)
    (reread : float32 -> float32) (students : list Student) (file : option string) :
  Forall (record_saved fmt_d fmt_2f sscanf_d sscanf_f reread) students ->
  exists saved,
    save_students_to_file fmt_d fmt_2f true students file = (true, Some saved) /\
    load_students_from_file sscanf_d sscanf_f (Some saved) init_students =
      (true,
       store_of (reloaded reread <$> filter (fun s => 0 <= id s) students)).
Proof.
  intros Hall. exists (file_text fmt_d fmt_2f students). split; [done|].
  by apply save_then_load_store.
Qed.

Lemma save_then_load_witness :
  exists saved,
    save_students_to_file (fun _ => "3"%string) (fun _ => "1.00"%string) true
      [mkStudent 3 "Al" [f32_of_int 1] (f32_of_int 1)] None =
      (true, Some saved) /\
    load_students_from_file (fun _ => Some 3) (fun _ => Some (f32_of_int 1))
      (Some saved) init_students =
      (true,
       store_of
         (reloaded (fun _ => f32_of_int 1) <$>
          filter (fun s => 0 <= id s)
            [mkStudent 3 "Al" [f32_of_int 1] (f32_of_int 1)])).
Proof.
  apply (save_then_load (fun _ => "3"%string) (fun _ => "1.00"%string)
           (fun _ => Some 3) (fun _ => Some (f32_of_int 1))
           (fun _ => f32_of_int 1)
           [mkStudent 3 "Al" [f32_of_int 1] (f32_of_int 1)] None).
  apply Forall_singleton.
  split; [reflexivity|]. split; [reflexivity|]. split; [reflexivity|].
  split; [reflexivity|].
  split; [by repeat split|].
  split.
  { apply Forall_singleton. split; [by repeat split|].
    intros pre post _ _. reflexivity. }
  repeat split; apply Nat.leb_le; reflexivity.
Defined.
